(** * Galois lonestar applications: BFS and SSSP

    A shallow embedding of the worklist algorithms of
    [lonestar/bfs/bfs.cpp] and [lonestar/analytics/cpu/sssp/SSSP.cpp]. *)

From Stdlib Require Import ZArith List Lia Bool Permutation.
From stdpp Require Import base list numbers sorting.

Unset Default Proof Using.

(** ** Machine integers

    [Dist] is [unsigned int] in bfs.cpp and [uint32_t] in SSSP.cpp: a 32-bit
    unsigned integer, kept as a [Z] with the wrap-around written out. *)

Abbreviation Dist := Z (only parsing).
Definition wrap (x : Z) : Dist := (x mod 2 ^ 32)%Z.

(** ** The graph *)

Abbreviation GNode := nat (only parsing).
Abbreviation edge_iterator := nat (only parsing).

(** Modelled from the spec: [galois::graphs::LC_CSR_Graph]
    (galois/graphs/LCGraph.h) is missing; the spec keeps the CSR graph
    storage outside and names its interface only (graph iteration, node
    data). The model is the compressed sparse row layout: the out-edges
    of all nodes lie in one array, the edges of node [n] are the edge
    indices from [edge_begin n] up to [edge_end n], and [edgeIndData]
    holds the end offset of every node. Nodes and edge iterators are
    indices. The node data (the distance of every node) is the only
    mutable part; it is kept apart from the topology as [NodeData]. *)
Record Graph := mkGraph {
  edgeIndData : list nat;
  edgeDst : list GNode;
  edgeData : list Z
}.

Definition graph_size (g : Graph) : nat := length (edgeIndData g).

Definition edge_end (g : Graph) (n : GNode) : edge_iterator :=
  nth n (edgeIndData g) 0.

Definition edge_begin (g : Graph) (n : GNode) : edge_iterator :=
  match n with
  | 0 => 0
  | S m => edge_end g m
  end.

Definition getEdgeDst (g : Graph) (e : edge_iterator) : GNode :=
  nth e (edgeDst g) 0.

Definition getEdgeData (g : Graph) (e : edge_iterator) : Z :=
  nth e (edgeData g) 0%Z.

Definition getDegree (g : Graph) (n : GNode) : nat :=
  edge_end g n - edge_begin g n.

(** The iterators of the half-open range from [b] to [e]. *)
Definition edge_range (b e : edge_iterator) : list edge_iterator :=
  seq b (e - b).

(** [graph.edges(n)] *)
Definition edges (g : Graph) (n : GNode) : list edge_iterator :=
  edge_range (edge_begin g n) (edge_end g n).

Abbreviation NodeData := (list Dist) (only parsing).

Definition getData (d : NodeData) (n : GNode) : Dist :=
  default 0%Z (d !! n).

Definition setData (d : NodeData) (n : GNode) (v : Dist) : NodeData :=
  <[n := v]> d.

(** The initialisation in [main] of bfs.cpp and in [trial] of SSSP.cpp:
    every node gets [DIST_INFINITY], then the source gets 0. The constant
    [DIST_INFINITY] is declared in Lonestar/BFS_SSSP.h, which is missing:
    it is a parameter. *)
Definition initData (DIST_INFINITY : Dist) (g : Graph) (source : GNode)
    : NodeData :=
  setData (replicate (graph_size g) DIST_INFINITY) source 0%Z.

(** A graph read from a file is well formed: the offsets grow and stay
    within the edge array, and every destination is a node. *)
Definition offsets_ok (g : Graph) : bool :=
  forallb (fun n => (edge_begin g n <=? edge_end g n) &&
                    (edge_end g n <=? length (edgeDst g)))
          (seq 0 (graph_size g)).

Definition dsts_ok (g : Graph) : bool :=
  forallb (fun v => v <? graph_size g) (edgeDst g).

Definition wf_graph (g : Graph) : bool :=
  offsets_ok g && dsts_ok g.

(** ** Paths and levels

    [walk g s v k]: there is a path of [k] edges from [s] to [v]. The BFS
    level of a node is the length of a shortest path from the source. *)

Definition has_edge (g : Graph) (u v : GNode) : Prop :=
  u < graph_size g /\ exists e, In e (edges g u) /\ getEdgeDst g e = v.

Inductive walk (g : Graph) (s : GNode) : GNode -> nat -> Prop :=
| walk_here : walk g s s 0
| walk_step u v k : walk g s u k -> has_edge g u v -> walk g s v (S k).

Definition reachable (g : Graph) (s v : GNode) : Prop :=
  exists k, walk g s v k.

Definition bfs_level (g : Graph) (s v : GNode) (k : nat) : Prop :=
  walk g s v k /\ forall k', walk g s v k' -> k <= k'.

(** ** Breadth-first search (bfs.cpp) *)

Module BFS.

(** Modelled from the spec: [BFS::UpdateRequest] (Lonestar/BFS_SSSP.h)
    is missing; [serialAlgo] builds it from a node and a distance and
    reads its fields [n] and [w]. *)
Record UpdateRequest := Req { req_n : GNode; req_w : Dist }.

(** How a run of [syncAlgo] ends. *)
Inductive Outcome (A : Type) :=
| Finished (a : A)
| AssertionFailed
| OutOfFuel.
Arguments Finished {A} a.
Arguments AssertionFailed {A}.
Arguments OutOfFuel {A}.

Section WithInfinity.

(** [BFS::DIST_INFINITY] is declared in Lonestar/BFS_SSSP.h, which is
    missing: it is a parameter. *)
Variable DIST_INFINITY : Dist.

(** The body of the edge loop of [serialAlgo]. *)
Definition serialRelax (g : Graph) (req : UpdateRequest)
    (st : NodeData * list UpdateRequest) (e : edge_iterator)
    : NodeData * list UpdateRequest :=
  let dst := getEdgeDst g e in
  if (getData st.1 dst =? DIST_INFINITY)%Z
  then (setData st.1 dst (req_w req),
        st.2 ++ [Req dst (wrap (req_w req + 1))])
  else st.

(** The [while (!wl.empty())] loop of [serialAlgo]; [wl] is the deque,
    its front is the head of the list. [None] when the fuel runs out. *)
Fixpoint serialLoop (fuel : nat) (g : Graph) (d : NodeData)
    (wl : list UpdateRequest) {struct fuel} : option NodeData :=
  match wl with
  | [] => Some d
  | req :: wl' =>
      match fuel with
      | 0 => None
      | S fuel' =>
          let st := fold_left (serialRelax g req) (edges g (req_n req)) (d, wl') in
          serialLoop fuel' g st.1 st.2
      end
  end.

Definition serialAlgo (fuel : nat) (g : Graph) (source : GNode)
    (d : NodeData) : option NodeData :=
  serialLoop fuel g (setData d source 0%Z) [Req source 1%Z].

(** [serialAlgo] with the list of the nodes whose request has been
    popped and processed, in the order of processing. *)
Fixpoint serialLoopL (fuel : nat) (g : Graph) (d : NodeData)
    (wl : list UpdateRequest) (log : list GNode) {struct fuel}
    : option (NodeData * list GNode) :=
  match wl with
  | [] => Some (d, log)
  | req :: wl' =>
      match fuel with
      | 0 => None
      | S fuel' =>
          let st := fold_left (serialRelax g req) (edges g (req_n req)) (d, wl') in
          serialLoopL fuel' g st.1 st.2 (log ++ [req_n req])
      end
  end.

Definition serialAlgoL (fuel : nat) (g : Graph) (source : GNode)
    (d : NodeData) : option (NodeData * list GNode) :=
  serialLoopL fuel g (setData d source 0%Z) [Req source 1%Z] [].

(** *** Edge tiles *)

Record EdgeTile := mkEdgeTile { tile_beg : edge_iterator; tile_end : edge_iterator }.

(** [EdgeTileMaker::operator()] *)
Definition EdgeTileMaker (b e : edge_iterator) : EdgeTile := mkEdgeTile b e.

Definition EDGE_TILE_SIZE : nat := 256.

(** Modelled from the spec: [BFS::pushEdgeTiles] (Lonestar/BFS_SSSP.h)
    is missing. bfs.cpp fixes its interface: it pushes to a container the
    tiles that a tile maker builds for the edges of a node, and a tile
    spans at most [EDGE_TILE_SIZE] edges. The model cuts the range from
    [b] to [e] into consecutive tiles, full ones first and the non-empty
    rest last, and pushes them in this order; for an empty range nothing
    is pushed. *)
Fixpoint edgeTiles (fuel : nat) (b e : edge_iterator) : list EdgeTile :=
  match fuel with
  | 0 => []
  | S fuel' =>
      if b + EDGE_TILE_SIZE <? e
      then EdgeTileMaker b (b + EDGE_TILE_SIZE) :: edgeTiles fuel' (b + EDGE_TILE_SIZE) e
      else if b <? e then [EdgeTileMaker b e] else []
  end.

Definition pushEdgeTiles (wl : list EdgeTile) (g : Graph) (src : GNode)
    : list EdgeTile :=
  wl ++ edgeTiles (S (getDegree g src)) (edge_begin g src) (edge_end g src).

(** Modelled from the spec: [galois::block_range] is missing; it gives
    worker [tid] of [numT] its block of a range cut into equal parts. *)
Definition block_range (b e : edge_iterator) (tid numT : nat)
    : edge_iterator * edge_iterator :=
  let dist := e - b in
  let numper := Nat.max ((dist + numT - 1) / numT) 1 in
  let A := Nat.min (numper * tid) dist in
  let B := Nat.min (numper * (tid + 1)) dist in
  (b + A, b + B).

(** Modelled from the spec: [BFS::pushEdgeTilesParallel]
    (Lonestar/BFS_SSSP.h) is missing. It tiles a long edge range per
    worker, every worker its own block; a range of at most
    [EDGE_TILE_SIZE] edges becomes one tile, and an empty range none. The
    bag is unordered; the model lists the blocks by worker id. *)
Definition pushEdgeTilesParallel (numT : nat) (wl : list EdgeTile)
    (g : Graph) (src : GNode) : list EdgeTile :=
  let b := edge_begin g src in
  let e := edge_end g src in
  if EDGE_TILE_SIZE <? e - b
  then wl ++ flat_map (fun tid =>
                let p := block_range b e tid numT in
                edgeTiles (S (p.2 - p.1)) p.1 p.2) (seq 0 numT)
  else if 0 <? e - b then wl ++ [EdgeTileMaker b e] else wl.

(** The loop over the edges of a tile, the same text in the operator of
    [syncAlgo] and in [serialSyncAlgo]:
    [for (auto e = t.beg; e != t.end; ++e)]. *)
Definition syncRelax (g : Graph) (nextLevel : Dist)
    (st : NodeData * list EdgeTile) (e : edge_iterator)
    : NodeData * list EdgeTile :=
  let dst := getEdgeDst g e in
  if (getData st.1 dst =? DIST_INFINITY)%Z
  then (setData st.1 dst nextLevel, pushEdgeTiles st.2 g dst)
  else st.

Definition tile_edges (t : EdgeTile) : list edge_iterator :=
  edge_range (tile_beg t) (tile_end t).

Definition processTile (g : Graph) (nextLevel : Dist)
    (st : NodeData * list EdgeTile) (t : EdgeTile)
    : NodeData * list EdgeTile :=
  fold_left (syncRelax g nextLevel) (tile_edges t) st.

(** The [while (!next->empty())] loop of [serialSyncAlgo]. [curr] and
    [next] are the two vectors behind the pointers of the same names:
    swapping the pointers exchanges them, and [next->clear()] empties the
    one now called [next]. *)
Fixpoint serialSyncLoop (fuel : nat) (g : Graph) (d : NodeData)
    (curr next : list EdgeTile) (nextLevel : Dist) {struct fuel}
    : option NodeData :=
  match next with
  | [] => Some d
  | _ :: _ =>
      match fuel with
      | 0 => None
      | S fuel' =>
          let '(curr, next) := (next, curr) in
          let next := @nil EdgeTile in
          let nextLevel := wrap (nextLevel + 1) in
          let st := fold_left (processTile g nextLevel) curr (d, next) in
          serialSyncLoop fuel' g st.1 curr st.2 nextLevel
      end
  end.

Definition serialSyncAlgo (fuel : nat) (g : Graph) (source : GNode)
    (d : NodeData) : option NodeData :=
  let d := setData d source 0%Z in
  let next := pushEdgeTiles [] g source in
  serialSyncLoop fuel g d [] next 0%Z.

(** *** Runs with an event log

    To speak of the round in which a tile is pushed or processed, the
    bulk-synchronous variants are also given with a log of events. The
    round of an event is the number of turns of the [while] loop begun
    when it happens; the seeding before the loop is round 0. *)

Inductive Event :=
| EvPush (round : nat) (t : EdgeTile)
| EvProc (round : nat) (t : EdgeTile).

Definition ev_round (ev : Event) : nat :=
  match ev with EvPush r _ | EvProc r _ => r end.

(** The tiles processed, and the tiles pushed, in round [r], in the
    order of the log. *)
Definition procs_of (r : nat) (log : list Event) : list EdgeTile :=
  flat_map (fun ev => match ev with
                      | EvProc r' t => if r' =? r then [t] else []
                      | EvPush _ _ => []
                      end) log.

Definition pushes_of (r : nat) (log : list Event) : list EdgeTile :=
  flat_map (fun ev => match ev with
                      | EvPush r' t => if r' =? r then [t] else []
                      | EvProc _ _ => []
                      end) log.

Definition LState : Type := NodeData * list EdgeTile * list Event.

Definition syncRelaxL (g : Graph) (nextLevel : Dist) (round : nat)
    (st : LState) (e : edge_iterator) : LState :=
  let '(d, next, log) := st in
  let dst := getEdgeDst g e in
  if (getData d dst =? DIST_INFINITY)%Z
  then
    let tiles := pushEdgeTiles [] g dst in
    (setData d dst nextLevel, next ++ tiles, log ++ map (EvPush round) tiles)
  else st.

Definition processTileL (g : Graph) (nextLevel : Dist) (round : nat)
    (st : LState) (t : EdgeTile) : LState :=
  let '(d, next, log) := st in
  fold_left (syncRelaxL g nextLevel round) (tile_edges t)
            (d, next, log ++ [EvProc round t]).

Fixpoint serialSyncLoopL (fuel : nat) (g : Graph) (d : NodeData)
    (curr next : list EdgeTile) (nextLevel : Dist) (round : nat)
    (log : list Event) {struct fuel} : option (NodeData * list Event) :=
  match next with
  | [] => Some (d, log)
  | _ :: _ =>
      match fuel with
      | 0 => None
      | S fuel' =>
          let '(curr, next) := (next, curr) in
          let next := @nil EdgeTile in
          let nextLevel := wrap (nextLevel + 1) in
          let round := S round in
          let '(d', next', log') :=
            fold_left (processTileL g nextLevel round) curr (d, next, log) in
          serialSyncLoopL fuel' g d' curr next' nextLevel round log'
      end
  end.

Definition serialSyncAlgoL (fuel : nat) (g : Graph) (source : GNode)
    (d : NodeData) : option (NodeData * list Event) :=
  let d := setData d source 0%Z in
  let next := pushEdgeTiles [] g source in
  serialSyncLoopL fuel g d [] next 0%Z 0 (map (EvPush 0) next).

(** *** [syncAlgo] *)

Section Scheduler.

(** The order in which the workers take the tiles of a bag. *)
Variable sched : list EdgeTile -> list EdgeTile.

(** Modelled from the spec: [galois::do_all] is only declared
    (GaloisForwardDecl.h). By the spec it is blocking, its operator
    pushes no work to the loop itself, and the driver partitions the
    input range across the workers; [galois::InsertBag] is an unordered
    container. The model runs the operator on one tile after the other,
    in the order [sched] gives to the bag, and returns when all tiles
    are done. *)
Definition do_all (g : Graph) (nextLevel : Dist) (round : nat)
    (curr : list EdgeTile) (st : LState) : LState :=
  fold_left (processTileL g nextLevel round) (sched curr) st.

Fixpoint syncLoop (fuel : nat) (g : Graph) (d : NodeData)
    (curr next : list EdgeTile) (nextLevel : Dist) (round : nat)
    (log : list Event) {struct fuel} : Outcome (NodeData * list Event) :=
  match next with
  | [] => Finished (d, log)
  | _ :: _ =>
      match fuel with
      | 0 => OutOfFuel
      | S fuel' =>
          let '(curr, next) := (next, curr) in
          let next := @nil EdgeTile in
          let nextLevel := wrap (nextLevel + 1) in
          let round := S round in
          let '(d', next', log') :=
            do_all g nextLevel round curr (d, next, log) in
          syncLoop fuel' g d' curr next' nextLevel round log'
      end
  end.

(** [assert(!next->empty())] stops the run when the bag is empty. *)
Definition syncAlgo (numT fuel : nat) (g : Graph) (source : GNode)
    (d : NodeData) : Outcome (NodeData * list Event) :=
  let d := setData d source 0%Z in
  let next := pushEdgeTilesParallel numT [] g source in
  match next with
  | [] => AssertionFailed
  | _ :: _ => syncLoop fuel g d [] next 0%Z 0 (map (EvPush 0) next)
  end.

End Scheduler.

(** *** [sync2phaseAlgo] *)

Section TwoPhase.

(** The orders in which the workers of the two [do_all] loops take the
    nodes of [activeNodes] and the tiles of [edgeTiles]. *)
Variable schedNodes : list GNode -> list GNode.
Variable schedTiles : list EdgeTile -> list EdgeTile.

(** The loop over the edges of a tile in the second [do_all]; a node
    found is pushed to [activeNodes]. *)
Definition sync2Relax (g : Graph) (nextLevel : Dist)
    (st : NodeData * list GNode) (e : edge_iterator)
    : NodeData * list GNode :=
  let dst := getEdgeDst g e in
  if (getData st.1 dst =? DIST_INFINITY)%Z
  then (setData st.1 dst nextLevel, st.2 ++ [dst])
  else st.

Definition sync2Tile (g : Graph) (nextLevel : Dist)
    (st : NodeData * list GNode) (t : EdgeTile) : NodeData * list GNode :=
  fold_left (sync2Relax g nextLevel) (tile_edges t) st.

(** The [while (!activeNodes.empty())] loop. Both bags live outside the
    loop: the first [do_all] fills [edgeTiles] from the active nodes,
    [activeNodes] is cleared, the second [do_all] fills it again, and
    [edgeTiles] is cleared at the end of the turn. (The bag [edgeTiles]
    of the source hides the tiling function of the same name here.) *)
Fixpoint sync2phaseLoop (fuel : nat) (g : Graph) (d : NodeData)
    (activeNodes : list GNode) (edgeTiles : list EdgeTile)
    (nextLevel : Dist) {struct fuel} : option NodeData :=
  match activeNodes with
  | [] => Some d
  | _ :: _ =>
      match fuel with
      | 0 => None
      | S fuel' =>
          let edgeTiles :=
            fold_left (fun tiles src => pushEdgeTiles tiles g src)
                      (schedNodes activeNodes) edgeTiles in
          let nextLevel := wrap (nextLevel + 1) in
          let activeNodes := @nil GNode in
          let st := fold_left (sync2Tile g nextLevel) (schedTiles edgeTiles)
                              (d, activeNodes) in
          let edgeTiles := @nil EdgeTile in
          sync2phaseLoop fuel' g st.1 st.2 edgeTiles nextLevel
      end
  end.

Definition sync2phaseAlgo (fuel : nat) (g : Graph) (source : GNode)
    (d : NodeData) : option NodeData :=
  let d := setData d source 0%Z in
  sync2phaseLoop fuel g d [source] [] 0%Z.

End TwoPhase.

End WithInfinity.

(** The chain 0 -> 1 -> ... -> 9. *)
Definition chain10 : Graph :=
  mkGraph [1; 2; 3; 4; 5; 6; 7; 8; 9; 9]
          [1; 2; 3; 4; 5; 6; 7; 8; 9]
          [].

(** The schedule that takes the tiles in the order of the bag. *)
Definition in_order (curr : list EdgeTile) : list EdgeTile := curr.

End BFS.

(** ** Single-source shortest paths (SSSP.cpp) *)

Module SSSP.

(** Modelled from the spec: [SSSP::UpdateRequest] (Lonestar/BFS_SSSP.h)
    is missing; the algorithms read its fields [src] and [dist]. *)
Record UpdateRequest := Req { req_src : GNode; req_dist : Dist }.

(** The algorithms are templates over the work item [T]; they read
    [item.src] and [item.dist]. *)
Class WorkItem (T : Type) := {
  src : T -> GNode;
  dist : T -> Dist
}.

#[global] Instance UpdateRequest_item : WorkItem UpdateRequest :=
  {| src := req_src; dist := req_dist |}.

(** Modelled from the spec: [SSSP::ReqPushWrap] and
    [SSSP::OutEdgeRangeFn] (Lonestar/BFS_SSSP.h) are missing; they are
    the push wrapper [P] and the edge range function [R] that [trial]
    hands to the templates for [UpdateRequest]. A push wrapper is given
    by the items it pushes for a node and a distance: [ReqPushWrap]
    pushes one request. [OutEdgeRangeFn] gives the out-edges of the
    item's node. *)
Definition ReqPushWrap (n : GNode) (dist : Dist) : list UpdateRequest :=
  [Req n dist].

Definition OutEdgeRangeFn (g : Graph) (item : UpdateRequest)
    : list edge_iterator :=
  edges g (req_src item).

(** Modelled from the spec: [SSSP::UpdateRequestIndexer]
    (Lonestar/BFS_SSSP.h) is missing; by the spec the indexer of
    Delta-stepping is [item.dist >> shift]. *)
Definition UpdateRequestIndexer {T} `{WorkItem T} (shift : Z) (item : T) : Z :=
  Z.shiftr (dist item) shift.

(** *** Worklists *)

(** The operations that [dijkstraAlgo] uses of its worklist. *)
Class Heap (T WL : Type) := {
  heap_empty : WL -> bool;
  heap_pop : WL -> option (T * WL);
  heap_push : WL -> T -> WL
}.

Definition is_nil {A} (l : list A) : bool :=
  match l with [] => true | _ => false end.

(** Modelled from the spec: [galois::MinHeap<T>] (galois/PriorityQueue.h)
    is missing; it is a priority queue over the items' [operator<]: [pop]
    removes a least item. The model keeps the items in a list sorted by
    [ltb]; under an order in which only equal items tie, every such queue
    pops the same items in the same order. *)
Fixpoint heap_insert {T} (ltb : T -> T -> bool) (x : T) (h : list T) : list T :=
  match h with
  | [] => [x]
  | y :: h' => if ltb x y then x :: y :: h' else y :: heap_insert ltb x h'
  end.

Definition MinHeap {T} (ltb : T -> T -> bool) : Heap T (list T) :=
  {| heap_empty := is_nil;
     heap_pop h := match h with [] => None | x :: h' => Some (x, h') end;
     heap_push h x := heap_insert ltb x h |}.

(** Modelled from the spec: [operator<] of [UpdateRequest] is missing;
    requests are ordered by distance, then by node. *)
Definition req_ltb (a b : UpdateRequest) : bool :=
  if (req_dist a =? req_dist b)%Z then req_src a <? req_src b
  else (req_dist a <? req_dist b)%Z.

(** Modelled from the spec: [SerialBucketWL] (Lonestar/BFS_SSSP.h) is
    missing. It is the serial form of the priority buckets of the
    Delta-stepping worklist: a vector of buckets indexed by priority, a
    cursor [m_minBucket] on the bucket being drained, and an overflow
    bucket for priorities from [MAX_BUCKETS] on. [push] files an item
    under the priority the indexer gives it, [minBucket] is the bucket
    under the cursor, [goToNextBucket] moves the cursor over empty
    buckets, [empty] looks at the buckets from the cursor on and
    [allEmpty] at all of them. *)
Record SerialBucketWL (T : Type) := mkWL {
  m_minBucket : nat;
  m_buckets : list (list T);
  m_lastBucket : list T
}.
Arguments mkWL {T}.
Arguments m_minBucket {T}.
Arguments m_buckets {T}.
Arguments m_lastBucket {T}.

Definition MAX_BUCKETS : Z := 543210.

(** A reference to one bucket of the worklist, as [minBucket] returns. *)
Inductive BucketRef := InBuckets (i : nat) | LastBucket.

Section Buckets.

Context {T : Type}.
Variable m_func : T -> Z.

Definition wl_new : SerialBucketWL T := mkWL 0 [] [].

Definition wl_push (wl : SerialBucketWL T) (item : T) : SerialBucketWL T :=
  let b := m_func item in
  if (b <? Z.of_nat (length (m_buckets wl)))%Z
  then mkWL (m_minBucket wl)
            (alter (fun q => q ++ [item]) (Z.to_nat b) (m_buckets wl))
            (m_lastBucket wl)
  else if (MAX_BUCKETS <=? b)%Z
  then mkWL (m_minBucket wl) (m_buckets wl) (m_lastBucket wl ++ [item])
  else mkWL (m_minBucket wl)
            (alter (fun q => q ++ [item]) (Z.to_nat b)
                   (resize (Z.to_nat (b + 1)) [] (m_buckets wl)))
            (m_lastBucket wl).

Fixpoint skipEmpty (bs : list (list T)) : nat :=
  match bs with
  | [] => 0
  | b :: bs' => if is_nil b then S (skipEmpty bs') else 0
  end.

Definition wl_goToNextBucket (wl : SerialBucketWL T) : SerialBucketWL T :=
  mkWL (m_minBucket wl + skipEmpty (drop (m_minBucket wl) (m_buckets wl)))
       (m_buckets wl) (m_lastBucket wl).

Definition wl_minBucket (wl : SerialBucketWL T) : BucketRef :=
  if m_minBucket wl <? length (m_buckets wl)
  then InBuckets (m_minBucket wl) else LastBucket.

Definition emptyImpl (wl : SerialBucketWL T) (start : nat) : bool :=
  forallb is_nil (drop start (m_buckets wl)) && is_nil (m_lastBucket wl).

Definition wl_empty (wl : SerialBucketWL T) : bool :=
  emptyImpl wl (m_minBucket wl).

Definition wl_allEmpty (wl : SerialBucketWL T) : bool := emptyImpl wl 0.

(** The deque behind a reference, and [pop_front] on it. *)
Definition bucket (wl : SerialBucketWL T) (r : BucketRef) : list T :=
  match r with
  | InBuckets i => default [] (m_buckets wl !! i)
  | LastBucket => m_lastBucket wl
  end.

Definition bucket_pop_front (wl : SerialBucketWL T) (r : BucketRef)
    : SerialBucketWL T :=
  match r with
  | InBuckets i =>
      mkWL (m_minBucket wl) (alter (drop 1) i (m_buckets wl)) (m_lastBucket wl)
  | LastBucket =>
      mkWL (m_minBucket wl) (m_buckets wl) (drop 1 (m_lastBucket wl))
  end.

End Buckets.

(** *** The algorithms *)

Inductive Outcome :=
| Finished (d : NodeData)
| Aborted
| OutOfFuel.

Section Templates.

Context {T : Type} `{WorkItem T}.
Variable pushWrap : GNode -> Dist -> list T.
Variable edgeRange : T -> list edge_iterator.

(** The body of the edge loop, the same text in [serDeltaAlgo] and in
    [dijkstraAlgo]; [push] is the worklist's. *)
Definition relax {WL} (push : WL -> T -> WL) (g : Graph) (item : T)
    (st : NodeData * WL) (e : edge_iterator) : NodeData * WL :=
  let dst := getEdgeDst g e in
  let newDist := wrap (dist item + getEdgeData g e) in
  if (newDist <? getData st.1 dst)%Z
  then (setData st.1 dst newDist, fold_left push (pushWrap dst newDist) st.2)
  else st.

(** One turn of the [while] loop of [dijkstraAlgo] on the popped item. *)
Definition dijkstraStep {WL} `{Heap T WL} (g : Graph) (item : T)
    (st : NodeData * WL) : NodeData * WL :=
  if (getData st.1 (src item) <? dist item)%Z
  then st
  else fold_left (relax heap_push g item) (edgeRange item) st.

Fixpoint dijkstraLoop {WL} `{Heap T WL} (fuel : nat) (g : Graph)
    (st : NodeData * WL) {struct fuel} : option NodeData :=
  if heap_empty st.2 then Some st.1
  else
    match fuel with
    | 0 => None
    | S fuel' =>
        match heap_pop st.2 with
        | None => None
        | Some (item, wl) => dijkstraLoop fuel' g (dijkstraStep g item (st.1, wl))
        end
    end.

Definition dijkstraAlgo {WL} `{Heap T WL} (wl0 : WL) (fuel : nat) (g : Graph)
    (source : GNode) (d : NodeData) : option NodeData :=
  let d := setData d source 0%Z in
  let wl := fold_left heap_push (pushWrap source 0%Z) wl0 in
  dijkstraLoop fuel g (d, wl).

(** [serDeltaAlgo]. [stepShift] is the command line option [delta]. *)
Section SerDelta.

Variable stepShift : Z.

Definition State : Type := NodeData * SerialBucketWL T.

Definition push : SerialBucketWL T -> T -> SerialBucketWL T :=
  wl_push (UpdateRequestIndexer stepShift).

(** The inner loop [while (!curr.empty())]; [curr] is the reference that
    [wl.minBucket()] returned. *)
Fixpoint drainBucket (fuel : nat) (g : Graph) (curr : BucketRef)
    (st : State) {struct fuel} : option State :=
  match bucket st.2 curr with
  | [] => Some st
  | item :: _ =>
      match fuel with
      | 0 => None
      | S fuel' =>
          let wl := bucket_pop_front st.2 curr in
          if (getData st.1 (src item) <? dist item)%Z
          then drainBucket fuel' g curr (st.1, wl)
          else drainBucket fuel' g curr
                 (fold_left (relax push g item) (edgeRange item) (st.1, wl))
      end
  end.

Fixpoint serDeltaLoop (fuel : nat) (g : Graph) (st : State)
    {struct fuel} : option State :=
  if wl_empty st.2 then Some st
  else
    match fuel with
    | 0 => None
    | S fuel' =>
        match drainBucket fuel' g (wl_minBucket st.2) st with
        | None => None
        | Some st' => serDeltaLoop fuel' g (st'.1, wl_goToNextBucket st'.2)
        end
    end.

Definition serDeltaAlgo (fuel : nat) (g : Graph) (source : GNode)
    (d : NodeData) : Outcome :=
  let d := setData d source 0%Z in
  let wl := fold_left push (pushWrap source 0%Z) wl_new in
  match serDeltaLoop fuel g (d, wl) with
  | None => OutOfFuel
  | Some st => if negb (wl_allEmpty st.2) then Aborted else Finished st.1
  end.

End SerDelta.

(** *** The operator of [deltaStepAlgo] *)

(** Modelled from the spec: [galois::atomicMin] (galois/AtomicHelpers.h)
    is missing; as one atomic step it lowers the cell to the given value
    if that is smaller, and returns the old value. *)
Definition atomicMin (d : NodeData) (n : GNode) (v : Dist) : Dist * NodeData :=
  let old := getData d n in
  (old, if (v <? old)%Z then setData d n v else d).

(** One turn of the edge loop of the operator; [ctx] collects what is
    pushed to the context. [sdata] is a reference to the node data of
    [item.src], read again at every use. *)
Definition deltaRelax (g : Graph) (item : T) (st : NodeData * list T)
    (ii : edge_iterator) : NodeData * list T :=
  let dst := getEdgeDst g ii in
  let ew := getEdgeData g ii in
  let newDist := wrap (getData st.1 (src item) + ew) in
  let '(oldDist, d') := atomicMin st.1 dst newDist in
  if (newDist <? oldDist)%Z
  then (d', st.2 ++ pushWrap dst newDist)
  else (d', st.2).

Definition deltaStepOp (g : Graph) (item : T) (st : NodeData * list T)
    : NodeData * list T :=
  if (getData st.1 (src item) <? dist item)%Z
  then st
  else fold_left (deltaRelax g item) (edgeRange item) st.

(** Modelled from the spec: [galois::for_each] is only declared
    (GaloisForwardDecl.h). By the spec a worker pops an item from the
    worklist and invokes the operator with a context; what the operator
    pushes to the context goes to the worklist; the loop ends when the
    worklist is empty; and the ordered-by-integer-metric worklist gives
    an approximate priority order only, so any item may be the next one.
    The model runs one operator call at a time, on any item of the
    worklist: [for_each_run op (d, wl) r] says that some such run from
    the distances [d] and the worklist [wl] ends with the distances
    [r]. *)
Inductive for_each_run (op : T -> NodeData * list T -> NodeData * list T)
    : NodeData * list T -> NodeData -> Prop :=
| for_each_done d : for_each_run op (d, []) d
| for_each_step d wl1 item wl2 st r :
    op item (d, []) = st ->
    for_each_run op (st.1, wl1 ++ wl2 ++ st.2) r ->
    for_each_run op (d, wl1 ++ item :: wl2) r.

(** [deltaStepAlgo]: the runs of the loop from the seeded bag. *)
Definition deltaStepAlgo (g : Graph) (source : GNode) (d : NodeData)
    (r : NodeData) : Prop :=
  for_each_run (deltaStepOp g) (setData d source 0%Z, pushWrap source 0%Z) r.

Fixpoint data_eqb (d1 d2 : NodeData) : bool :=
  match d1, d2 with
  | [], [] => true
  | x :: d1', y :: d2' => (x =? y)%Z && data_eqb d1' d2'
  | _, _ => false
  end.

(** All runs of the loop end within [fuel] operator calls, and with the
    distances [expected]: the search through every choice of the next
    item. *)
Fixpoint all_runs (op : T -> NodeData * list T -> NodeData * list T)
    (expected : NodeData) (fuel : nat) (st : NodeData * list T)
    {struct fuel} : bool :=
  match st.2 with
  | [] => data_eqb st.1 expected
  | _ :: _ =>
      match fuel with
      | 0 => false
      | S fuel' =>
          forallb (fun i =>
                     match st.2 !! i with
                     | None => true
                     | Some item =>
                         let st' := op item (st.1, []) in
                         all_runs op expected fuel'
                           (st'.1, take i st.2 ++ drop (S i) st.2 ++ st'.2)
                     end)
                  (seq 0 (length st.2))
      end
  end.

End Templates.

(** *** [topoAlgo] *)

Section Topo.

(** [SSSP::DIST_INFINITY] is declared in Lonestar/BFS_SSSP.h, which is
    missing: it is a parameter. *)
Variable DIST_INFINITY : Dist.

(** The order in which the workers of the [do_all] of a round take the
    nodes; the first argument is the number of the round. *)
Variable sched : nat -> list GNode -> list GNode.

(** One turn of the edge loop of the operator. [sdata] is a reference to
    the node data of [n], read again at every use. *)
Definition topoRelax (g : Graph) (n : GNode) (d : NodeData)
    (e : edge_iterator) : NodeData :=
  let newDist := wrap (getData d n + getEdgeData g e) in
  let dst := getEdgeDst g e in
  (atomicMin d dst newDist).2.

(** The operator of the [do_all] on node [n]; the state is the node
    data, the array [oldDist] and the flag [changed]. *)
Definition topoOp (g : Graph) (st : NodeData * NodeData * bool) (n : GNode)
    : NodeData * NodeData * bool :=
  let '(d, oldDist, changed) := st in
  if (getData d n <? getData oldDist n)%Z
  then
    let oldDist := setData oldDist n (getData d n) in
    let changed := true in
    (fold_left (topoRelax g n) (edges g n) d, oldDist, changed)
  else st.

(** The [do { ... } while (changed.reduce())] loop; [rounds] counts the
    rounds as the variable of the same name does. *)
Fixpoint topoLoop (fuel : nat) (g : Graph) (d oldDist : NodeData)
    (rounds : nat) {struct fuel} : option NodeData :=
  match fuel with
  | 0 => None
  | S fuel' =>
      let rounds := S rounds in
      let changed := false in
      let '(d, oldDist, changed) :=
        fold_left (topoOp g) (sched rounds (seq 0 (graph_size g)))
                  (d, oldDist, changed) in
      if changed then topoLoop fuel' g d oldDist rounds else Some d
  end.

Definition topoAlgo (fuel : nat) (g : Graph) (source : GNode)
    (d : NodeData) : option NodeData :=
  let oldDist := replicate (graph_size g) DIST_INFINITY in
  let d := setData d source 0%Z in
  topoLoop fuel g d oldDist 0.

End Topo.

(** *** [topoTileAlgo] *)

(** Modelled from the spec: [SSSP::SrcEdgeTile], [SSSP::SrcEdgeTileMaker]
    and [SSSP::pushEdgeTiles] (Lonestar/BFS_SSSP.h) are missing. SSSP.cpp
    fixes their interface: a tile has the fields [src], [dist], [beg] and
    [end]; the maker is built from a node and a distance; and
    [pushEdgeTiles] pushes to a container the tiles that the maker builds
    for the edges of a node, a tile spanning at most [EDGE_TILE_SIZE]
    edges (512 in SSSP.cpp). As for bfs.cpp, the model cuts the edge range
    into consecutive tiles, full ones first and the non-empty rest
    last. *)
Record SrcEdgeTile := mkSrcEdgeTile {
  tile_src : GNode;
  tile_dist : Dist;
  tile_beg : edge_iterator;
  tile_end : edge_iterator
}.

Definition SrcEdgeTileMaker (src : GNode) (dist : Dist)
    (b e : edge_iterator) : SrcEdgeTile :=
  mkSrcEdgeTile src dist b e.

Definition EDGE_TILE_SIZE : nat := 512.

Fixpoint edgeTiles {T} (maker : edge_iterator -> edge_iterator -> T)
    (fuel : nat) (b e : edge_iterator) : list T :=
  match fuel with
  | 0 => []
  | S fuel' =>
      if b + EDGE_TILE_SIZE <? e
      then maker b (b + EDGE_TILE_SIZE)
           :: edgeTiles maker fuel' (b + EDGE_TILE_SIZE) e
      else if b <? e then [maker b e] else []
  end.

Definition pushEdgeTiles {T} (wl : list T) (g : Graph) (src : GNode)
    (maker : edge_iterator -> edge_iterator -> T) : list T :=
  wl ++ edgeTiles maker (S (getDegree g src)) (edge_begin g src)
                  (edge_end g src).

Section TopoTile.

Variable DIST_INFINITY : Dist.

(** The order in which the workers of the first [do_all] take the nodes,
    and the order in which the workers of the [do_all] of a round take
    the tiles of the bag, given by their positions; the first argument is
    the number of the round. *)
Variable schedNodes : list GNode -> list GNode.
Variable schedTiles : nat -> list nat -> list nat.

(** The first [do_all]: the tiles of all nodes, each with the distance
    [DIST_INFINITY]. *)
Definition makeTiles (g : Graph) : list SrcEdgeTile :=
  fold_left (fun tiles n =>
               pushEdgeTiles tiles g n (SrcEdgeTileMaker n DIST_INFINITY))
            (schedNodes (seq 0 (graph_size g))) [].

(** The operator of the second [do_all] on the tile at position [i] of
    the bag; the tile is changed in place. [sdata] is a reference to the
    node data of [t.src], read again at every use, so that the edge loop
    is the one of [topoAlgo]. *)
Definition topoTileOp (g : Graph) (st : NodeData * list SrcEdgeTile * bool)
    (i : nat) : NodeData * list SrcEdgeTile * bool :=
  let '(d, tiles, changed) := st in
  match tiles !! i with
  | None => st
  | Some t =>
      if (getData d (tile_src t) <? tile_dist t)%Z
      then
        let t' := mkSrcEdgeTile (tile_src t) (getData d (tile_src t))
                                (tile_beg t) (tile_end t) in
        let changed := true in
        (fold_left (topoRelax g (tile_src t))
                   (edge_range (tile_beg t) (tile_end t)) d,
         <[i := t']> tiles, changed)
      else st
  end.

Fixpoint topoTileLoop (fuel : nat) (g : Graph) (d : NodeData)
    (tiles : list SrcEdgeTile) (rounds : nat) {struct fuel}
    : option NodeData :=
  match fuel with
  | 0 => None
  | S fuel' =>
      let rounds := S rounds in
      let changed := false in
      let '(d, tiles, changed) :=
        fold_left (topoTileOp g) (schedTiles rounds (seq 0 (length tiles)))
                  (d, tiles, changed) in
      if changed then topoTileLoop fuel' g d tiles rounds else Some d
  end.

Definition topoTileAlgo (fuel : nat) (g : Graph) (source : GNode)
    (d : NodeData) : option NodeData :=
  let d := setData d source 0%Z in
  let tiles := makeTiles g in
  topoTileLoop fuel g d tiles 0.

End TopoTile.

(** The graph of scenario E2: edges (0,1,10), (0,2,1), (2,1,1), (1,3,1). *)
Definition graphE2 : Graph :=
  mkGraph [2; 3; 4; 4] [1; 2; 3; 1] [10; 1; 1; 1]%Z.

(** A path 0 -> 1 -> 2 whose length does not fit into 32 bits: the
    weights are 8192 and 2^32 - 8192. *)
Definition graphWrap : Graph :=
  mkGraph [1; 2; 2] [1; 2] [8192; 4294959104]%Z.

End SSSP.

(** ** The choice of the source in [main] of SSSP.cpp *)

Module Main.

Inductive Exit :=
| Returned (code : Z)
| Abort
| OutOfFuel.

Section WithRng.

(** The outputs of [std::mt19937_64], in the order they are drawn. *)
Variable rng : nat -> Z.

Definition rng_max : Z := 2 ^ 64 - 1.

(** [UniDist<GNode, std::mt19937_64>]; [GNode] is a 32-bit unsigned
    integer, and so are [mod_] and [cutoff_]. *)
Record UniDist := mkUniDist {
  no_mod_ : bool;
  mod_ : Z;
  cutoff_ : Z
}.

Definition newUniDist (max_value : Z) : UniDist :=
  let no_mod := (rng_max =? wrap max_value)%Z in
  let m := wrap (max_value + 1) in
  let remainder_sub_1 := wrap (rng_max mod m) in
  let cutoff :=
    if (remainder_sub_1 =? wrap (m - 1))%Z then 0%Z
    else wrap (rng_max - remainder_sub_1) in
  mkUniDist no_mod m cutoff.

(** The rejection loop [while (rand_num >= cutoff_)]; [i] counts the
    numbers drawn so far. *)
Fixpoint reject (fuel : nat) (u : UniDist) (rand_num : Z) (i : nat)
    {struct fuel} : option (Z * nat) :=
  if (cutoff_ u <=? rand_num)%Z
  then match fuel with
       | 0 => None
       | S fuel' => reject fuel' u (wrap (rng i)) (S i)
       end
  else Some (rand_num, i).

(** [UniDist::operator()] *)
Definition draw (fuel : nat) (u : UniDist) (i : nat) : option (Z * nat) :=
  let rand_num := wrap (rng i) in
  let i := S i in
  if no_mod_ u then Some (rand_num, i)
  else
    match (if (cutoff_ u =? 0)%Z then Some (rand_num, i)
           else reject fuel u rand_num i) with
    | None => None
    | Some (rand_num, i) => Some ((rand_num mod mod_ u)%Z, i)
    end.

(** [do { s = udist(); deg = graph.getDegree(s); } while (deg == 0);] *)
Fixpoint selectSource (fuel : nat) (g : Graph) (u : UniDist) (i : nat)
    {struct fuel} : option (GNode * nat) :=
  match fuel with
  | 0 => None
  | S fuel' =>
      match draw fuel' u i with
      | None => None
      | Some (s, i') =>
          let deg := getDegree g (Z.to_nat s) in
          if deg =? 0 then selectSource fuel' g u i'
          else Some (Z.to_nat s, i')
      end
  end.

(** [trial] runs the chosen algorithm; here it only matters whether a
    call returns ([true]) or not. *)
Variable trial : Graph -> GNode -> bool.

(** The loop [for (unsigned int i = 0; i <= rounds; i++) trial(graph, s)]
    with its 32-bit counter: [i] is the counter, [count] the number of
    calls of [trial] made so far, which the loop returns when it ends. *)
Fixpoint roundsLoop (fuel : nat) (g : Graph) (s : GNode) (rounds : Z)
    (i : Z) (count : nat) {struct fuel} : option nat :=
  if (i <=? rounds)%Z
  then match fuel with
       | 0 => None
       | S fuel' =>
           if trial g s
           then roundsLoop fuel' g s rounds (wrap (i + 1)) (S count)
           else None
       end
  else Some count.

(** The loop [for (v = 0; v < sources; v++)]; [rounds] is the 32-bit
    value of the option. The body selects a source and runs the loop over
    the rounds; where one of the two does not end within [fuel], neither
    does [main]. *)
Fixpoint sourcesLoop (fuel : nat) (g : Graph) (u : UniDist)
    (sources : nat) (rounds : Z) (i : nat) {struct sources} : Exit :=
  match sources with
  | 0 => Returned 0
  | S sources' =>
      match selectSource fuel g u i with
      | None => OutOfFuel
      | Some (s, i') =>
          match roundsLoop fuel g s rounds 0 0 with
          | None => OutOfFuel
          | Some _ => sourcesLoop fuel g u sources' rounds i'
          end
      end
  end.

Definition main (fuel : nat) (g : Graph) (startNode : nat)
    (sources : nat) (rounds : Z) : Exit :=
  if graph_size g <=? startNode then Abort
  else
    let udist := newUniDist (Z.of_nat (graph_size g) - 1) in
    sourcesLoop fuel g udist sources rounds 0.

End WithRng.

(** A graph with one node and no edge. *)
Definition lonely : Graph := mkGraph [0] [] [].

End Main.

(** ** [main] of bfs.cpp *)

Module BFSMain.

(** The command line option [algo]. *)
Inductive Algo := Async | Sync2p | Sync | SerialSync | Serial.

(** How [main] ends: it returns, it aborts ([abort()] or a failed
    [assert]), or it dies in [GALOIS_DIE]; the distance of [reportNode]
    is printed before the verification. *)
Inductive Exit :=
| Returned (code : Z) (reported : Dist)
| Abort
| Die (reported : Dist)
| OutOfFuel.

Section WithEnvironment.

(** [BFS::DIST_INFINITY] (Lonestar/BFS_SSSP.h) is missing: a parameter. *)
Variable DIST_INFINITY : Dist.

(** The number of threads and the schedules of the [do_all] loops. *)
Variable numThreads : nat.
Variable schedTiles : list BFS.EdgeTile -> list BFS.EdgeTile.
Variable schedNodes : list GNode -> list GNode.

(** [asyncAlgo] builds its tiles with [BFS::DistEdgeTileMaker], and
    [main] checks the result with [BFS::verify]; both are declared in
    Lonestar/BFS_SSSP.h, which is missing: they are parameters. *)
Variable asyncAlgo : Graph -> GNode -> NodeData -> option NodeData.
Variable verify : Graph -> NodeData -> GNode -> bool.

(** The [switch (algo)]: the chosen algorithm on the initialised node
    data. [None] stands for a run that does not end within the fuel. *)
Definition runAlgo (fuel : nat) (g : Graph) (source : GNode) (algo : Algo)
    (d : NodeData) : BFS.Outcome NodeData :=
  let ended (r : option NodeData) :=
    match r with
    | Some d' => BFS.Finished d'
    | None => BFS.OutOfFuel
    end in
  match algo with
  | Sync2p =>
      ended (BFS.sync2phaseAlgo DIST_INFINITY schedNodes schedTiles fuel g
               source d)
  | Sync =>
      match BFS.syncAlgo DIST_INFINITY schedTiles numThreads fuel g source d
      with
      | BFS.Finished (d', _) => BFS.Finished d'
      | BFS.AssertionFailed => BFS.AssertionFailed
      | BFS.OutOfFuel => BFS.OutOfFuel
      end
  | Async => ended (asyncAlgo g source d)
  | Serial => ended (BFS.serialAlgo DIST_INFINITY fuel g source d)
  | SerialSync => ended (BFS.serialSyncAlgo DIST_INFINITY fuel g source d)
  end.

(** [main]: the check of the two node options, the initialisation of
    the node data (all nodes to [DIST_INFINITY], then the source to 0),
    the algorithm, the report and the verification. Nodes are their
    indices, so advancing [graph.begin()] by [startNode] gives the node
    [startNode]. *)
Definition main (fuel : nat) (g : Graph) (startNode reportNode : nat)
    (algo : Algo) (skipVerify : bool) : Exit :=
  if (graph_size g <=? startNode) || (graph_size g <=? reportNode)
  then Abort
  else
    let source := startNode in
    let report := reportNode in
    let d := initData DIST_INFINITY g source in
    match runAlgo fuel g source algo d with
    | BFS.Finished d' =>
        let reported := getData d' report in
        if negb skipVerify
        then if verify g d' source then Returned 0 reported else Die reported
        else Returned 0 reported
    | BFS.AssertionFailed => Abort
    | BFS.OutOfFuel => OutOfFuel
    end.

End WithEnvironment.

End BFSMain.

(** ** Properties that the claims speak of *)

(** No distance of [d'] is above the one in [d]. *)
Definition le_data (d' d : NodeData) : Prop :=
  forall v, (getData d' v <= getData d v)%Z.

(** Every edge weight [w] is a 32-bit number with [B + w] below 2^32: a
    distance of at most [B] plus a weight does not wrap around. *)
Definition weights_bounded (B : Z) (g : Graph) : bool :=
  forallb (fun w => (0 <=? w)%Z && (B + w <? 2 ^ 32)%Z) (edgeData g).

(** A log keeps the rounds apart: its events come in the order of their
    rounds, nothing is processed in round 0, and the tiles processed in
    round [N + 1] are the tiles pushed in round [N], up to [Rel]: in the
    same order for the serial variant, rearranged by the scheduler for
    [do_all]. *)
Definition Separated (Rel : relation (list BFS.EdgeTile))
    (log : list BFS.Event) : Prop :=
  StronglySorted (fun a b => BFS.ev_round a <= BFS.ev_round b) log /\
  BFS.procs_of 0 log = [] /\
  forall N, Rel (BFS.procs_of (S N) log) (BFS.pushes_of N log).

(** * Proofs *)

(** ** Node data and graph lemmas *)

Lemma getData_setData_eq d n v :
  n < length d -> getData (setData d n v) n = v.
Proof.
  intros H. unfold getData, setData.
  by rewrite list_lookup_insert_eq.
Qed.

Lemma getData_setData_ne d n m v :
  n <> m -> getData (setData d n v) m = getData d m.
Proof.
  intros H. unfold getData, setData.
  by rewrite list_lookup_insert_ne.
Qed.

Lemma length_setData d n v : length (setData d n v) = length d.
Proof. apply length_insert. Qed.

Lemma getData_replicate k x n : n < k -> getData (replicate k x) n = x.
Proof.
  intros H. unfold getData. by rewrite lookup_replicate_2.
Qed.

Lemma in_edge_range b e i : In i (edge_range b e) <-> b <= i < e.
Proof. unfold edge_range. rewrite in_seq. lia. Qed.

Lemma wf_offsets g u :
  wf_graph g = true -> u < graph_size g ->
  edge_begin g u <= edge_end g u <= length (edgeDst g).
Proof.
  unfold wf_graph, offsets_ok. intros H Hu.
  apply andb_prop in H as [H _].
  rewrite forallb_forall in H.
  specialize (H u). rewrite in_seq in H.
  destruct (andb_prop _ _ (H ltac:(lia))) as [H1 H2].
  apply Nat.leb_le in H1, H2. lia.
Qed.

Lemma wf_dst g e :
  wf_graph g = true -> e < length (edgeDst g) ->
  getEdgeDst g e < graph_size g.
Proof.
  unfold wf_graph, dsts_ok. intros H He.
  apply andb_prop in H as [_ H].
  rewrite forallb_forall in H.
  apply Nat.ltb_lt, H. unfold getEdgeDst. by apply nth_In.
Qed.

Lemma wf_edge_dst g u e :
  wf_graph g = true -> u < graph_size g -> In e (edges g u) ->
  getEdgeDst g e < graph_size g.
Proof.
  intros H Hu He. apply in_edge_range in He.
  pose proof (wf_offsets g u H Hu). apply wf_dst; [done | lia].
Qed.

(** ** Edge tiles cover the edge range *)

Definition covered (tiles : list BFS.EdgeTile) (e : edge_iterator) : Prop :=
  exists t, In t tiles /\ In e (BFS.tile_edges t).

Lemma edgeTiles_spec fuel :
  forall b e, e - b < fuel ->
  (forall t, In t (BFS.edgeTiles fuel b e) ->
     b <= BFS.tile_beg t /\ BFS.tile_beg t < BFS.tile_end t /\
     BFS.tile_end t <= e) /\
  (forall i, b <= i < e -> covered (BFS.edgeTiles fuel b e) i).
Proof.
  assert (Hpos : 0 < BFS.EDGE_TILE_SIZE) by (unfold BFS.EDGE_TILE_SIZE; lia).
  induction fuel as [|fuel IH]; intros b e Hfuel; [lia|].
  cbn [BFS.edgeTiles].
  destruct (Nat.ltb_spec (b + BFS.EDGE_TILE_SIZE) e) as [Hlong|Hshort].
  - destruct (IH (b + BFS.EDGE_TILE_SIZE) e ltac:(lia)) as [IH1 IH2].
    split.
    + intros t [<-|Hin]; [simpl; lia|]. apply IH1 in Hin. lia.
    + intros i Hi.
      destruct (Nat.lt_ge_cases i (b + BFS.EDGE_TILE_SIZE)) as [Hlo|Hhi].
      * eexists. split; [by left|].
        apply in_edge_range. simpl. lia.
      * destruct (IH2 i ltac:(lia)) as (t & Hin & Hr).
        exists t. split; [by right | done].
  - destruct (Nat.ltb_spec b e) as [Hne|Hemp].
    + split.
      * intros t [<-|[]]. simpl. lia.
      * intros i Hi. eexists. split; [by left|].
        apply in_edge_range. simpl. lia.
    + split; [by intros t []|]. intros i Hi. lia.
Qed.

Lemma pushEdgeTiles_old wl g v t :
  In t wl -> In t (BFS.pushEdgeTiles wl g v).
Proof. intros H. unfold BFS.pushEdgeTiles. rewrite in_app_iff. auto. Qed.

Lemma pushEdgeTiles_new wl g v t :
  In t (BFS.pushEdgeTiles wl g v) ->
  In t wl \/ (BFS.tile_beg t < BFS.tile_end t /\
              forall e, In e (BFS.tile_edges t) -> In e (edges g v)).
Proof.
  unfold BFS.pushEdgeTiles. rewrite in_app_iff. intros [H|H]; [by left|].
  right.
  destruct (edgeTiles_spec (S (getDegree g v)) (edge_begin g v) (edge_end g v))
    as [H1 _]; [unfold getDegree; lia|].
  apply H1 in H. split; [lia|]. intros e He.
  apply in_edge_range in He. apply in_edge_range. lia.
Qed.

Lemma pushEdgeTiles_covered wl g v e :
  In e (edges g v) -> covered (BFS.pushEdgeTiles wl g v) e.
Proof.
  intros He. apply in_edge_range in He.
  destruct (edgeTiles_spec (S (getDegree g v)) (edge_begin g v) (edge_end g v))
    as [_ H2]; [unfold getDegree; lia|].
  destruct (H2 e He) as (t & Hin & Hr). exists t. split; [|done].
  unfold BFS.pushEdgeTiles. rewrite in_app_iff. auto.
Qed.

Lemma pushEdgeTiles_nil g v :
  getDegree g v = 0 -> BFS.pushEdgeTiles [] g v = [].
Proof.
  unfold BFS.pushEdgeTiles, getDegree. intros H. rewrite H.
  cbn [BFS.edgeTiles app].
  destruct (Nat.ltb_spec (edge_begin g v + BFS.EDGE_TILE_SIZE) (edge_end g v));
    [lia|].
  destruct (Nat.ltb_spec (edge_begin g v) (edge_end g v)); [lia | done].
Qed.

Lemma covered_mono tiles tiles' e :
  (forall t, In t tiles -> In t tiles') -> covered tiles e -> covered tiles' e.
Proof. intros H (t & Hin & He). exists t. auto. Qed.

(** The loop over the tiles of [curr] is one loop over their edges. *)
Lemma processTile_flat INF g L curr st :
  fold_left (BFS.processTile INF g L) curr st
  = fold_left (BFS.syncRelax INF g L) (flat_map BFS.tile_edges curr) st.
Proof.
  revert st. induction curr as [|t curr IH]; intros st; [done|].
  cbn [fold_left flat_map]. rewrite fold_left_app. apply IH.
Qed.

(** ** Breadth-first search: the invariants shared by the variants *)

Section BFSInvariants.

Variable INF : Z.
Variable g : Graph.
Variable s : GNode.
Hypothesis Hwf : wf_graph g = true.
Hypothesis Hs : s < graph_size g.
Hypothesis HINF : (Z.of_nat (graph_size g) <= INF < 2 ^ 32)%Z.

#[local] Abbreviation n := (graph_size g).

Definition visited (d : NodeData) (v : GNode) : Prop := getData d v <> INF.

(** Number of nodes that still hold the infinite distance. *)
Fixpoint unvisited (d : NodeData) : nat :=
  match d with
  | [] => 0
  | x :: d' => (if (x =? INF)%Z then 1 else 0) + unvisited d'
  end.

Lemma unvisited_setData d v x :
  v < length d -> getData d v = INF -> x <> INF ->
  S (unvisited (setData d v x)) = unvisited d.
Proof.
  revert v. induction d as [|y d IH]; intros v Hv Hd Hx; [simpl in Hv; lia|].
  destruct v as [|v].
  - change (setData (y :: d) 0 x) with (x :: d).
    change (getData (y :: d) 0) with y in Hd. subst y.
    cbn [unvisited]. rewrite Z.eqb_refl.
    destruct (Z.eqb_spec x INF); [done | lia].
  - change (setData (y :: d) (S v) x) with (y :: setData d v x).
    change (getData (y :: d) (S v)) with (getData d v) in Hd.
    cbn [unvisited]. simpl in Hv.
    rewrite <- (IH v); [ | lia | exact Hd | exact Hx].
    destruct (y =? INF)%Z; lia.
Qed.

Lemma unvisited_replicate k : unvisited (replicate k INF) = k.
Proof. induction k; simpl; [done|]. rewrite Z.eqb_refl. lia. Qed.

(** Distinct levels are held by distinct nodes: if every level up to [K]
    is the distance of some node, the graph has more than [K] nodes. *)
Lemma levels_pigeonhole (d : NodeData) (K : nat) :
  (forall k, k <= K -> exists u, u < n /\ getData d u = Z.of_nat k) ->
  S K <= n.
Proof.
  intros H.
  assert (exists l, length l = S K /\ List.NoDup l /\
            forall u, In u l -> u < n /\ (0 <= getData d u <= Z.of_nat K)%Z)
    as (l & Hlen & Hnd & Hl).
  { induction K as [|K IH].
    - destruct (H 0 ltac:(lia)) as (u & Hu & Hd).
      exists [u]. split; [done|]. split.
      + constructor; [ intros [] | constructor ].
      + intros u' [<-|[]]. split; [done | lia].
    - destruct IH as (l & Hlen & Hnd & Hl).
      { intros k Hk. apply H. lia. }
      destruct (H (S K) ltac:(lia)) as (u & Hu & Hd).
      exists (u :: l). split; [simpl; lia|]. split.
      + constructor; [|done].
        intros Hin. apply Hl in Hin. lia.
      + intros u' [<-|Hin]; [split; [done|lia]|].
        apply Hl in Hin. lia. }
  rewrite <- Hlen.
  replace n with (length (seq 0 n)) by apply length_seq.
  apply List.NoDup_incl_length.
  - done.
  - intros u Hu. apply in_seq. apply Hl in Hu. lia.
Qed.

Record Base (d : NodeData) : Prop := {
  base_len : length d = n;
  base_src : getData d s = 0%Z;
  base_sound : forall v, v < n -> visited d v ->
    exists k, walk g s v k /\ getData d v = Z.of_nat k;
  base_inh : forall v, v < n -> visited d v ->
    forall k, (0 <= k <= getData d v)%Z ->
    exists u, u < n /\ getData d u = k
}.

Lemma base_lt d v :
  Base d -> v < n -> visited d v -> (0 <= getData d v < Z.of_nat n)%Z.
Proof.
  intros HB Hv Hvis.
  destruct (base_sound d HB v Hv Hvis) as (k & _ & Hk).
  split; [lia|].
  enough (S k <= n) by lia.
  apply (levels_pigeonhole d). intros k' Hk'.
  apply (base_inh d HB v Hv Hvis). lia.
Qed.

Lemma base_src_visited d : Base d -> visited d s.
Proof. intros HB. unfold visited. rewrite (base_src d HB). lia. Qed.

(** Visiting a new node [v] from a visited node [u]. *)
Lemma base_visit d u v :
  Base d -> u < n -> visited d u -> has_edge g u v -> v < n ->
  getData d v = INF ->
  let w := (getData d u + 1)%Z in
  Base (setData d v w) /\ (0 < w < Z.of_nat n)%Z.
Proof.
  intros HB Hu Hvisu Hedge Hv Hdv w.
  pose proof (base_lt d u HB Hu Hvisu) as Hdu.
  assert (Hinh : forall k, (0 <= k <= w)%Z ->
            exists x, x < n /\ getData (setData d v w) x = k).
  { intros k Hk. destruct (Z.eq_dec k w) as [->|Hne].
    - exists v. split; [done|]. apply getData_setData_eq.
      by rewrite (base_len d HB).
    - destruct (base_inh d HB u Hu Hvisu k ltac:(lia)) as (x & Hx & Hdx).
      exists x. split; [done|]. rewrite getData_setData_ne; [done|].
      intros ->. lia. }
  assert (Hw : (0 < w < Z.of_nat n)%Z).
  { split; [lia|].
    enough (S (Z.to_nat w) <= n) by lia.
    apply (levels_pigeonhole (setData d v w)). intros k Hk.
    apply Hinh. lia. }
  split; [|done].
  assert (Hframe : forall x, x <> v -> getData (setData d v w) x = getData d x).
  { intros x Hx. by apply getData_setData_ne. }
  assert (Hvw : getData (setData d v w) v = w).
  { apply getData_setData_eq. by rewrite (base_len d HB). }
  split.
  - rewrite length_setData. apply (base_len d HB).
  - rewrite Hframe; [apply (base_src d HB)|].
    intros Heq. apply (base_src_visited d HB). by rewrite Heq.
  - intros x Hx Hvis. destruct (Nat.eq_dec x v) as [->|Hne].
    + destruct (base_sound d HB u Hu Hvisu) as (k & Hwalk & Hk).
      exists (S k). split; [by eapply walk_step|]. rewrite Hvw. lia.
    + unfold visited in Hvis. rewrite Hframe in * by done.
      by apply (base_sound d HB).
  - intros x Hx Hvis k Hk.
    destruct (Nat.eq_dec x v) as [->|Hne].
    + apply Hinh. by rewrite Hvw in Hk.
    + unfold visited in Hvis. rewrite Hframe in * by done.
      pose proof (base_lt d x HB Hx Hvis).
      destruct (base_inh d HB x Hx Hvis k Hk) as (y & Hy & Hdy).
      exists y. split; [done|]. rewrite Hframe; [done|].
      intros ->. lia.
Qed.

(** *** What the final array says *)

Definition edge_ok (d : NodeData) (x : GNode) (e : edge_iterator) : Prop :=
  visited d (getEdgeDst g e) /\
  (getData d (getEdgeDst g e) <= getData d x + 1)%Z.

Definition closed (d : NodeData) : Prop :=
  forall x e, x < n -> visited d x -> In e (edges g x) -> edge_ok d x e.

(** The nodes visited in [d] keep their distance in [d']. *)
Definition frame (d d' : NodeData) : Prop :=
  forall x, x < n -> visited d x -> getData d' x = getData d x.

Lemma frame_refl d : frame d d.
Proof. by intros x _ _. Qed.

Lemma frame_visited d d' x : frame d d' -> x < n -> visited d x -> visited d' x.
Proof. intros Hf Hx Hv. unfold visited. by rewrite Hf. Qed.

Lemma frame_trans d1 d2 d3 : frame d1 d2 -> frame d2 d3 -> frame d1 d3.
Proof.
  intros H12 H23 x Hx Hv. rewrite H23; [by apply H12 | done |].
  by eapply frame_visited.
Qed.

Lemma edge_ok_frame d d' x e :
  frame d d' -> x < n -> visited d x -> In e (edges g x) ->
  edge_ok d x e -> edge_ok d' x e.
Proof.
  intros Hf Hx Hv He [Hvd Hle].
  pose proof (wf_edge_dst g x e Hwf Hx He) as Hdst.
  split; [by eapply frame_visited|]. by rewrite !Hf.
Qed.

Lemma frame_setData d v w : getData d v = INF -> frame d (setData d v w).
Proof.
  intros Hd x Hx Hv. apply getData_setData_ne. intros ->. by apply Hv.
Qed.

Lemma walk_node v k : walk g s v k -> v < n.
Proof.
  destruct 1 as [|u v k _ (Hu & e & He & <-)]; [done|].
  by eapply wf_edge_dst.
Qed.

Lemma closed_walk d v k :
  Base d -> closed d -> walk g s v k ->
  visited d v /\ (getData d v <= Z.of_nat k)%Z.
Proof.
  intros HB Hcl. induction 1 as [|u v k Hw [IHv IHd] Hedge].
  - split; [by apply base_src_visited|]. rewrite (base_src d HB). lia.
  - pose proof (walk_node u k Hw) as Hu.
    destruct Hedge as (_ & e & He & <-).
    destruct (Hcl u e Hu IHv He) as [Hv Hle]. split; [done | lia].
Qed.

Definition bfs_result (d : NodeData) : Prop :=
  length d = n /\
  forall v, v < n ->
    (forall k, bfs_level g s v k -> getData d v = Z.of_nat k) /\
    (reachable g s v -> getData d v <> INF) /\
    (~ reachable g s v -> getData d v = INF).

Lemma closed_result d : Base d -> closed d -> bfs_result d.
Proof.
  intros HB Hcl. split; [apply (base_len d HB)|]. intros v Hv.
  split; [|split].
  - intros k [Hwalk Hmin].
    destruct (closed_walk d v k HB Hcl Hwalk) as [Hvis Hle].
    destruct (base_sound d HB v Hv Hvis) as (k' & Hw' & Hk').
    specialize (Hmin k' Hw'). lia.
  - intros [k Hwalk]. by destruct (closed_walk d v k HB Hcl Hwalk).
  - intros Hnr. destruct (Z.eq_dec (getData d v) INF) as [|Hne]; [done|].
    destruct Hnr. destruct (base_sound d HB v Hv Hne) as (k & Hw & _).
    by exists k.
Qed.

(** Two arrays that both hold the levels are the same array. *)
Lemma bfs_result_unique d1 d2 :
  Base d1 -> closed d1 -> bfs_result d2 -> d1 = d2.
Proof.
  intros HB Hcl [Hlen2 H2].
  apply list_eq. intros v.
  destruct (Nat.lt_ge_cases v n) as [Hv|Hv].
  - destruct (lookup_lt_is_Some_2 d1 v) as [x1 Hx1];
      [by rewrite (base_len d1 HB)|].
    destruct (lookup_lt_is_Some_2 d2 v) as [x2 Hx2]; [by rewrite Hlen2|].
    rewrite Hx1, Hx2. f_equal.
    assert (Hg1 : getData d1 v = x1) by (unfold getData; by rewrite Hx1).
    assert (Hg2 : getData d2 v = x2) by (unfold getData; by rewrite Hx2).
    rewrite <- Hg1, <- Hg2.
    destruct (H2 v Hv) as (Hlev & _ & Hunr).
    destruct (Z.eq_dec (getData d1 v) INF) as [Heq|Hne].
    + rewrite Heq. symmetry. apply Hunr. intros [k Hw].
      by destruct (closed_walk d1 v k HB Hcl Hw).
    + destruct (base_sound d1 HB v Hv Hne) as (k & Hw & Hk).
      rewrite Hk. symmetry. apply Hlev. split; [done|].
      intros k' Hw'.
      destruct (closed_walk d1 v k' HB Hcl Hw') as [_ Hle]. lia.
  - rewrite !lookup_ge_None_2; [done | by rewrite Hlen2 |].
    by rewrite (base_len d1 HB).
Qed.

(** The state in which [main] calls the algorithms, after the source is
    set to 0 once more. *)
Lemma init_getData x :
  x < n ->
  getData (setData (initData INF g s) s 0%Z) x
  = if Nat.eq_dec x s then 0%Z else INF.
Proof.
  intros Hx. unfold initData.
  destruct (Nat.eq_dec x s) as [->|Hne].
  - apply getData_setData_eq. rewrite length_setData, length_replicate. lia.
  - rewrite !getData_setData_ne by done. by apply getData_replicate.
Qed.

Lemma init_visited x :
  x < n -> visited (setData (initData INF g s) s 0%Z) x -> x = s.
Proof.
  intros Hx Hv. unfold visited in Hv. rewrite init_getData in Hv by done.
  by destruct (Nat.eq_dec x s).
Qed.

Lemma base_init : Base (setData (initData INF g s) s 0%Z).
Proof.
  assert (Hs0 : getData (setData (initData INF g s) s 0%Z) s = 0%Z).
  { rewrite init_getData by done. by destruct (Nat.eq_dec s s). }
  split.
  - unfold initData. by rewrite !length_setData, length_replicate.
  - done.
  - intros v Hv Hvis. rewrite (init_visited v Hv Hvis).
    exists 0. split; [constructor | done].
  - intros v Hv Hvis k Hk. rewrite (init_visited v Hv Hvis) in Hk.
    exists s. split; [done|]. lia.
Qed.

Lemma unvisited_init :
  S (unvisited (setData (initData INF g s) s 0%Z)) = n.
Proof.
  unfold initData.
  assert (H0 : (0 <> INF)%Z) by lia.
  assert (Hidem : setData (setData (replicate n INF) s 0%Z) s 0%Z
                  = setData (replicate n INF) s 0%Z).
  { unfold setData. apply list_insert_insert_eq. }
  rewrite Hidem.
  rewrite (unvisited_setData (replicate n INF) s 0%Z).
  - apply unvisited_replicate.
  - by rewrite length_replicate.
  - by apply getData_replicate.
  - done.
Qed.

(** *** [serialAlgo]: the deque holds the frontier in level order *)

Definition pending (wl : list BFS.UpdateRequest) (x : GNode) : Prop :=
  exists r, In r wl /\ BFS.req_n r = x.

Definition req_valid (d : NodeData) (r : BFS.UpdateRequest) : Prop :=
  BFS.req_n r < n /\ visited d (BFS.req_n r) /\
  getData d (BFS.req_n r) = (BFS.req_w r - 1)%Z.

Definition queue_ok (w : Z) (wl : list BFS.UpdateRequest) : Prop :=
  exists l1 l2, wl = l1 ++ l2 /\
    Forall (fun r => BFS.req_w r = w) l1 /\
    Forall (fun r => BFS.req_w r = (w + 1)%Z) l2.

(** The invariant while the request [(u, w)] is being processed and [wl]
    is the rest of the deque. *)
Record PInv (u : GNode) (w : Z) (d : NodeData)
    (wl : list BFS.UpdateRequest) : Prop := {
  p_base : Base d;
  p_cur : req_valid d (BFS.Req u w);
  p_valid : Forall (req_valid d) wl;
  p_queue : queue_ok w wl;
  p_bound : forall v, v < n -> visited d v -> (getData d v <= w)%Z;
  p_closure : forall x e, x < n -> visited d x -> In e (edges g x) ->
      edge_ok d x e \/ pending wl x \/ x = u
}.

Lemma req_valid_frame d d' r : frame d d' -> req_valid d r -> req_valid d' r.
Proof.
  intros Hf (Hn & Hv & Hd). split; [done|].
  split; [by eapply frame_visited | by rewrite Hf].
Qed.

Lemma pending_app wl r x : pending wl x -> pending (wl ++ [r]) x.
Proof. intros (r' & Hin & Hr). exists r'. rewrite in_app_iff. auto. Qed.

Lemma queue_ok_push w wl r :
  queue_ok w wl -> BFS.req_w r = (w + 1)%Z -> queue_ok w (wl ++ [r]).
Proof.
  intros (l1 & l2 & -> & H1 & H2) Hr. exists l1, (l2 ++ [r]).
  split; [by rewrite app_assoc|]. split; [done|].
  apply Forall_app. split; [done|]. by constructor.
Qed.

Lemma serialRelax_inv u w d wl e :
  PInv u w d wl -> In e (edges g u) ->
  let st := BFS.serialRelax INF g (BFS.Req u w) (d, wl) e in
  PInv u w st.1 st.2 /\ edge_ok st.1 u e /\ frame d st.1 /\
  length st.2 + unvisited st.1 = length wl + unvisited d.
Proof.
  intros HP He. destruct HP as [HB Hcur Hval Hq Hbound Hcl].
  destruct Hcur as (Hu & Hvisu & Hdu). simpl in Hu, Hvisu, Hdu.
  pose proof (wf_edge_dst g u e Hwf Hu He) as Hv.
  unfold BFS.serialRelax. cbn [fst snd BFS.req_w].
  set (v := getEdgeDst g e) in *.
  destruct (Z.eqb_spec (getData d v) INF) as [Hdv|Hdv]; cbn [fst snd].
  - assert (Hedge : has_edge g u v) by (split; [done|by exists e]).
    destruct (base_visit d u v HB Hu Hvisu Hedge Hv Hdv) as [HB' Hw].
    replace (getData d u + 1)%Z with w in * by lia.
    assert (Hf : frame d (setData d v w)) by by apply frame_setData.
    assert (Hvw : getData (setData d v w) v = w).
    { apply getData_setData_eq. by rewrite (base_len d HB). }
    assert (Hvis' : visited (setData d v w) v).
    { unfold visited. rewrite Hvw. lia. }
    assert (Hwrap : wrap (w + 1) = (w + 1)%Z).
    { unfold wrap. apply Z.mod_small. lia. }
    rewrite Hwrap.
    split; [|split; [|split]].
    + split.
      * done.
      * by apply (req_valid_frame d); [|split].
      * apply Forall_app. split.
        -- eapply List.Forall_impl; [|exact Hval].
           intros r. by apply req_valid_frame.
        -- constructor; [|constructor]. split; [done|]. split; [done|].
           simpl. rewrite Hvw. lia.
      * by apply queue_ok_push.
      * intros x Hx Hvx. destruct (Nat.eq_dec x v) as [->|Hne].
        -- rewrite Hvw. lia.
        -- unfold visited in Hvx.
           rewrite getData_setData_ne in * by done. by apply Hbound.
      * intros x e' Hx Hvx He'. destruct (Nat.eq_dec x v) as [->|Hne].
        -- right. left. exists (BFS.Req v (w + 1)).
           rewrite in_app_iff. simpl. auto.
        -- assert (Hvx0 : visited d x).
           { unfold visited in *. by rewrite getData_setData_ne in Hvx. }
           destruct (Hcl x e' Hx Hvx0 He') as [Hok|[Hp|Hxu]].
           ++ left. by apply (edge_ok_frame d).
           ++ right. left. by apply pending_app.
           ++ by right; right.
    + unfold edge_ok. fold v. split; [done|]. rewrite Hvw, Hf by done. lia.
    + done.
    + rewrite length_app. simpl.
      rewrite <- (unvisited_setData d v w); [lia | | done | lia].
      by rewrite (base_len d HB).
  - split; [by split|]. split; [|split; [apply frame_refl | done]].
    unfold edge_ok. fold v. split; [done|]. rewrite Hdu. specialize (Hbound v Hv Hdv). lia.
Qed.

Lemma serialRelax_fold u w es :
  forall d wl,
  PInv u w d wl -> (forall e, In e es -> In e (edges g u)) ->
  let st := fold_left (BFS.serialRelax INF g (BFS.Req u w)) es (d, wl) in
  PInv u w st.1 st.2 /\ (forall e, In e es -> edge_ok st.1 u e) /\
  frame d st.1 /\
  length st.2 + unvisited st.1 = length wl + unvisited d.
Proof.
  induction es as [|e es IH]; intros d wl HP Hes; cbn [fold_left].
  - split; [done|]. split; [by intros e []|]. split; [apply frame_refl|done].
  - destruct (serialRelax_inv u w d wl e HP (Hes e (or_introl eq_refl)))
      as (HP1 & Hok1 & Hf1 & Hm1).
    destruct (BFS.serialRelax INF g (BFS.Req u w) (d, wl) e) as [d1 wl1].
    cbn [fst snd] in *.
    destruct (IH d1 wl1 HP1 (fun e' H => Hes e' (or_intror H)))
      as (HP2 & Hok2 & Hf2 & Hm2).
    split; [done|]. split; [|split; [by eapply frame_trans | lia]].
    intros e' [<-|Hin]; [|by apply Hok2].
    destruct (p_cur _ _ _ _ HP1) as (Hu & Hvu & _).
    apply (edge_ok_frame d1); try done. by apply Hes; left.
Qed.

(** The invariant at the head of the [while] loop. *)
Definition Inv (d : NodeData) (wl : list BFS.UpdateRequest) : Prop :=
  Base d /\ Forall (req_valid d) wl /\
  (forall x e, x < n -> visited d x -> In e (edges g x) ->
     edge_ok d x e \/ pending wl x) /\
  match wl with
  | [] => True
  | r :: wl' =>
      queue_ok (BFS.req_w r) wl' /\
      forall v, v < n -> visited d v -> (getData d v <= BFS.req_w r)%Z
  end.

Lemma Inv_PInv r wl d :
  Inv d (r :: wl) -> PInv (BFS.req_n r) (BFS.req_w r) d wl.
Proof.
  intros (HB & Hval & Hcl & Hq & Hbound).
  apply Forall_cons_1 in Hval as [Hr Hval].
  split; [done | | done | done | done | ].
  - by destruct r.
  - intros x e Hx Hvx He.
    destruct (Hcl x e Hx Hvx He) as [Hok|(r' & [<-|Hin] & Hr')]; auto.
    right. left. by exists r'.
Qed.

Lemma PInv_Inv u w d wl :
  PInv u w d wl -> (forall e, In e (edges g u) -> edge_ok d u e) -> Inv d wl.
Proof.
  intros [HB Hcur Hval Hq Hbound Hcl] Hok.
  split; [done|]. split; [done|]. split.
  - intros x e Hx Hvx He.
    destruct (Hcl x e Hx Hvx He) as [H|[H| ->]]; auto.
  - destruct wl as [|r wl]; [done|].
    destruct Hq as (l1 & l2 & Heq & H1 & H2).
    destruct l1 as [|r1 l1]; simpl in Heq.
    + subst l2. apply Forall_cons_1 in H2 as [Hr H2]. rewrite Hr. split.
      * exists wl, []. by rewrite app_nil_r.
      * intros v Hv Hvv. specialize (Hbound v Hv Hvv). lia.
    + injection Heq as <- ->. apply Forall_cons_1 in H1 as [Hr H1].
      rewrite Hr. split; [|done]. by exists l1, l2.
Qed.

Lemma serialLoop_inv fuel :
  forall d wl,
  Inv d wl -> length wl + unvisited d <= fuel ->
  exists d', BFS.serialLoop INF fuel g d wl = Some d' /\ Base d' /\ closed d'.
Proof.
  assert (Hnil : forall d, Inv d [] -> Base d /\ closed d).
  { intros d (HB & _ & Hcl & _). split; [done|]. intros x e Hx Hvx He.
    destruct (Hcl x e Hx Hvx He) as [H|(r & [] & _)]; done. }
  induction fuel as [|fuel IH]; intros d wl HI Hm.
  - destruct wl as [|r wl]; [|simpl in Hm; lia].
    exists d. split; [done|]. by apply Hnil.
  - destruct wl as [|r wl].
    + exists d. split; [done|]. by apply Hnil.
    + cbn [BFS.serialLoop].
      pose proof (Inv_PInv r wl d HI) as HP.
      destruct (serialRelax_fold (BFS.req_n r) (BFS.req_w r)
                  (edges g (BFS.req_n r)) d wl HP (fun e H => H))
        as (HP' & Hok & _ & Hm').
      assert (Hr : BFS.Req (BFS.req_n r) (BFS.req_w r) = r) by by destruct r.
      rewrite Hr in *.
      destruct (fold_left (BFS.serialRelax INF g r) (edges g (BFS.req_n r))
                  (d, wl)) as [d1 wl1].
      cbn [fst snd] in *.
      apply IH; [by eapply PInv_Inv | simpl in Hm; lia].
Qed.

Lemma serialAlgo_correct fuel :
  n <= fuel ->
  exists d, BFS.serialAlgo INF fuel g s (initData INF g s) = Some d /\
            Base d /\ closed d.
Proof.
  intros Hfuel. unfold BFS.serialAlgo. apply serialLoop_inv.
  - pose proof base_init as HB.
    split; [done|]. split; [|split; [|split]].
    + constructor; [|constructor]. split; [done|].
      split; [by apply base_src_visited|].
      simpl. by rewrite (base_src _ HB).
    + intros x e Hx Hvx He. right. exists (BFS.Req s 1).
      split; [by left|]. simpl. symmetry. by apply init_visited.
    + by exists [], [].
    + intros v Hv Hvv. rewrite (init_visited v Hv Hvv).
      rewrite (base_src _ HB). simpl. lia.
  - pose proof unvisited_init. simpl. lia.
Qed.

(** *** [serialSyncAlgo]: one level per round *)

(** The invariant of a round at level [L]: [next] holds the tiles of the
    nodes found in this round, and [es] are the edges of the previous
    level that are still to be looked at. *)
Record RInv (L : Z) (d : NodeData) (next : list BFS.EdgeTile)
    (es : list edge_iterator) : Prop := {
  r_base : Base d;
  r_bound : forall v, v < n -> visited d v -> (getData d v <= L)%Z;
  r_tiles : forall t, In t next ->
      exists u, u < n /\ visited d u /\ getData d u = L /\
                forall e, In e (BFS.tile_edges t) -> In e (edges g u);
  r_es : forall e, In e es ->
      exists u, u < n /\ visited d u /\ getData d u = (L - 1)%Z /\
                In e (edges g u);
  r_closure : forall x e, x < n -> visited d x -> In e (edges g x) ->
      edge_ok d x e \/ (getData d x = L /\ covered next e) \/
      (getData d x = (L - 1)%Z /\ In e es)
}.

Lemma syncRelax_inv L d next e es :
  RInv L d next (e :: es) ->
  let st := BFS.syncRelax INF g L (d, next) e in
  RInv L st.1 st.2 es /\
  (st = (d, next) \/ unvisited st.1 < unvisited d).
Proof.
  intros [HB Hbound Htiles Hes Hcl].
  destruct (Hes e (or_introl eq_refl)) as (u & Hu & Hvisu & Hdu & He).
  pose proof (wf_edge_dst g u e Hwf Hu He) as Hv.
  unfold BFS.syncRelax. cbn [fst snd].
  set (v := getEdgeDst g e) in *.
  destruct (Z.eqb_spec (getData d v) INF) as [Hdv|Hdv]; cbn [fst snd].
  - assert (Hedge : has_edge g u v) by (split; [done|by exists e]).
    destruct (base_visit d u v HB Hu Hvisu Hedge Hv Hdv) as [HB' Hw].
    replace (getData d u + 1)%Z with L in * by lia.
    assert (Hf : frame d (setData d v L)) by by apply frame_setData.
    assert (Hvw : getData (setData d v L) v = L).
    { apply getData_setData_eq. by rewrite (base_len d HB). }
    assert (Hvis' : visited (setData d v L) v).
    { unfold visited. rewrite Hvw. lia. }
    split.
    + split.
      * done.
      * intros x Hx Hvx. destruct (Nat.eq_dec x v) as [->|Hne].
        -- rewrite Hvw. lia.
        -- unfold visited in Hvx.
           rewrite getData_setData_ne in * by done. by apply Hbound.
      * intros t Ht. apply pushEdgeTiles_new in Ht as [Ht|[_ Ht]].
        -- destruct (Htiles t Ht) as (x & Hx & Hvx & Hdx & Hin).
           exists x. split; [done|]. split; [by eapply frame_visited|].
           split; [by rewrite Hf | done].
        -- by exists v.
      * intros e' He'.
        destruct (Hes e' (or_intror He')) as (x & Hx & Hvx & Hdx & Hin).
        exists x. split; [done|]. split; [by eapply frame_visited|].
        split; [by rewrite Hf | done].
      * intros x e' Hx Hvx He'. destruct (Nat.eq_dec x v) as [->|Hne].
        -- right. left. split; [done|]. by apply pushEdgeTiles_covered.
        -- assert (Hvx0 : visited d x).
           { unfold visited in *. by rewrite getData_setData_ne in Hvx. }
           rewrite (Hf x Hx Hvx0).
           destruct (Hcl x e' Hx Hvx0 He') as [Hok|[[Hd Hc]|[Hd [<-|Hin]]]].
           ++ left. by apply (edge_ok_frame d).
           ++ right. left. split; [done|].
              eapply covered_mono; [|exact Hc].
              intros t. apply pushEdgeTiles_old.
           ++ left. unfold edge_ok. fold v. split; [done|].
              rewrite Hvw, Hf by done. lia.
           ++ by right; right.
    + right. rewrite <- (unvisited_setData d v L); [lia | | done | lia].
      by rewrite (base_len d HB).
  - split; [|by left]. split; try done.
    + intros e' He'. by apply Hes; right.
    + intros x e' Hx Hvx He'.
      destruct (Hcl x e' Hx Hvx He') as [Hok|[H|[Hd [<-|Hin]]]]; auto.
      left. unfold edge_ok. fold v. split; [done|].
      specialize (Hbound v Hv Hdv). lia.
Qed.

Lemma syncRelax_fold L es :
  forall d next,
  RInv L d next es ->
  let st := fold_left (BFS.syncRelax INF g L) es (d, next) in
  RInv L st.1 st.2 [] /\
  (st = (d, next) \/ unvisited st.1 < unvisited d).
Proof.
  induction es as [|e es IH]; intros d next HR; cbn [fold_left].
  - split; [done | by left].
  - destruct (syncRelax_inv L d next e es HR) as [HR1 Hm1].
    destruct (BFS.syncRelax INF g L (d, next) e) as [d1 next1].
    cbn [fst snd] in *.
    destruct (IH d1 next1 HR1) as [HR2 Hm2].
    split; [done|].
    destruct Hm1 as [[= -> ->]|Hm1]; [done|].
    right. destruct Hm2 as [->|Hm2]; simpl; lia.
Qed.

Lemma RInv_round L d next :
  RInv L d next [] ->
  RInv (L + 1) d [] (flat_map BFS.tile_edges next).
Proof.
  intros [HB Hbound Htiles Hes Hcl]. split.
  - done.
  - intros v Hv Hvv. specialize (Hbound v Hv Hvv). lia.
  - by intros t [].
  - intros e (t & Ht & He)%in_flat_map.
    destruct (Htiles t Ht) as (u & Hu & Hvu & Hdu & Hin).
    exists u. split; [done|]. split; [done|]. split; [lia | auto].
  - intros x e Hx Hvx He.
    destruct (Hcl x e Hx Hvx He) as [Hok|[[Hd (t & Ht & Hin)]|[_ []]]].
    + by left.
    + right. right. split; [lia|]. apply in_flat_map. by exists t.
Qed.

Lemma serialSyncLoop_inv fuel :
  forall d curr next L,
  RInv L d next [] ->
  unvisited d + (match next with [] => 0 | _ => 1 end) <= fuel ->
  exists d', BFS.serialSyncLoop INF fuel g d curr next L = Some d' /\
             Base d' /\ closed d'.
Proof.
  assert (Hnil : forall L d, RInv L d [] [] -> Base d /\ closed d).
  { intros L d [HB _ _ _ Hcl]. split; [done|]. intros x e Hx Hvx He.
    destruct (Hcl x e Hx Hvx He) as [H|[[_ (t & [] & _)]|[_ []]]]; done. }
  induction fuel as [|fuel IH]; intros d curr next L HR Hm.
  - destruct next as [|t next]; [|lia].
    exists d. split; [done|]. by eapply Hnil.
  - destruct next as [|t next].
    + exists d. split; [done|]. by eapply Hnil.
    + cbn [BFS.serialSyncLoop].
      destruct (r_tiles _ _ _ _ HR t (or_introl eq_refl))
        as (u & Hu & Hvu & Hdu & _).
      pose proof (base_lt d u (r_base _ _ _ _ HR) Hu Hvu) as HL.
      assert (Hwrap : wrap (L + 1) = (L + 1)%Z).
      { unfold wrap. apply Z.mod_small. lia. }
      rewrite Hwrap, processTile_flat.
      destruct (syncRelax_fold (L + 1) (flat_map BFS.tile_edges (t :: next))
                  d [] (RInv_round L d (t :: next) HR)) as [HR' Hm'].
      destruct (fold_left (BFS.syncRelax INF g (L + 1))
                  (flat_map BFS.tile_edges (t :: next)) (d, []))
        as [d1 next1].
      cbn [fst snd] in *.
      apply IH; [done|].
      destruct Hm' as [[= -> ->]|Hm']; [lia|].
      destruct next1; lia.
Qed.

Lemma serialSyncAlgo_correct fuel :
  n <= fuel ->
  exists d, BFS.serialSyncAlgo INF fuel g s (initData INF g s) = Some d /\
            Base d /\ closed d.
Proof.
  intros Hfuel. unfold BFS.serialSyncAlgo. apply serialSyncLoop_inv.
  - pose proof base_init as HB. split.
    + done.
    + intros v Hv Hvv. rewrite (init_visited v Hv Hvv).
      rewrite (base_src _ HB). lia.
    + intros t Ht. apply pushEdgeTiles_new in Ht as [[]|[_ Ht]].
      exists s. split; [done|]. split; [by apply base_src_visited|].
      split; [apply (base_src _ HB) | done].
    + by intros e [].
    + intros x e Hx Hvx He. right. left.
      rewrite (init_visited x Hx Hvx) in *.
      split; [apply (base_src _ HB)|]. by apply pushEdgeTiles_covered.
  - pose proof unvisited_init.
    destruct (BFS.pushEdgeTiles [] g s); lia.
Qed.

End BFSInvariants.

(** ** Runs with [DIST_INFINITY] left open

    [DIST_INFINITY] stays a variable in the scenarios. For the shortest
    paths its four low bits are split off: every comparison with a number
    below 16 then computes, whatever the remaining bits are. For the
    breadth-first search, which tests equality with [DIST_INFINITY], the
    run is unfolded step by step and every test is settled from the
    hypotheses. *)

Ltac split_inf INF :=
  destruct INF as [|INF|INF]; try lia;
  do 4 (try (destruct INF as [INF|INF|]; try lia)).

Ltac eval_wrap :=
  repeat match goal with
  | |- context [wrap ?x] =>
      let v := eval vm_compute in (wrap x) in
      progress change (wrap x) with v
  end.

Ltac is_atom a :=
  first [ is_var a
        | match a with Z0 => idtac | Zpos _ => idtac | Zneg _ => idtac end ].

Ltac eqb_inf :=
  repeat first
    [ rewrite Z.eqb_refl
    | match goal with
      | |- context [(?a =? ?b)%Z] =>
          is_atom a; is_atom b;
          rewrite (proj2 (Z.eqb_neq a b)) by lia
      end ].

Tactic Notation "symex" "with" tactic3(unf) :=
  repeat (progress (cbn; unf; cbn; eval_wrap; eqb_inf)).

(** ** The models at work *)

Example edgeTiles_600 :
  BFS.edgeTiles 601 0 600
  = [BFS.mkEdgeTile 0 256; BFS.mkEdgeTile 256 512; BFS.mkEdgeTile 512 600].
Proof. reflexivity. Qed.

Example serialSyncAlgo_chain10 :
  BFS.serialSyncAlgo 2147483646 10 BFS.chain10 0
    (initData 2147483646 BFS.chain10 0)
  = Some [0; 1; 2; 3; 4; 5; 6; 7; 8; 9]%Z.
Proof. vm_compute. reflexivity. Qed.

(** The log of [serialSyncAlgo] on the graph of scenario E2: the tile of
    node 0 is pushed by the seeding and processed in round 1, where the
    tiles of the nodes 1 and 2 are pushed; these are processed in
    round 2. *)
Example serialSyncAlgoL_E2 :
  BFS.serialSyncAlgoL 2147483646 10 SSSP.graphE2 0
    (initData 2147483646 SSSP.graphE2 0)
  = Some ([0; 1; 1; 2]%Z,
          [BFS.EvPush 0 (BFS.mkEdgeTile 0 2);
           BFS.EvProc 1 (BFS.mkEdgeTile 0 2);
           BFS.EvPush 1 (BFS.mkEdgeTile 2 3);
           BFS.EvPush 1 (BFS.mkEdgeTile 3 4);
           BFS.EvProc 2 (BFS.mkEdgeTile 2 3);
           BFS.EvProc 2 (BFS.mkEdgeTile 3 4)]).
Proof. vm_compute. reflexivity. Qed.

(** The operator of [deltaStepAlgo] on the source item of scenario E2. *)
Example deltaStepOp_E2 :
  SSSP.deltaStepOp SSSP.ReqPushWrap (SSSP.OutEdgeRangeFn SSSP.graphE2)
    SSSP.graphE2 (SSSP.Req 0 0)
    (initData 2147483646 SSSP.graphE2 0, [])
  = ([0; 10; 1; 2147483646]%Z, [SSSP.Req 1 10; SSSP.Req 2 1]).
Proof. vm_compute. reflexivity. Qed.

(** ** Breadth-first search: the claims *)

Lemma serialLoop_fuel_mono INF g fuel :
  forall fuel' d wl r,
  BFS.serialLoop INF fuel g d wl = Some r -> fuel <= fuel' ->
  BFS.serialLoop INF fuel' g d wl = Some r.
Proof.
  induction fuel as [|fuel IH]; intros fuel' d wl r Hrun Hle.
  - destruct wl; [|done]. by destruct fuel'.
  - destruct wl as [|req wl]; [by destruct fuel'|].
    destruct fuel' as [|fuel']; [lia|].
    cbn [BFS.serialLoop] in *. apply IH; [done | lia].
Qed.

(** C2: on the chain 0 -> 1 -> ... -> 9 with source 0, all distances
    initialised to [DIST_INFINITY] and the source to 0, [serialAlgo]
    terminates (any fuel from 10 on is enough) with the distances
    0, 1, ..., 9. *)
Theorem serialAlgo_chain10 INF fuel :
  (10 <= INF)%Z -> 10 <= fuel ->
  BFS.serialAlgo INF fuel BFS.chain10 0 (initData INF BFS.chain10 0)
  = Some [0; 1; 2; 3; 4; 5; 6; 7; 8; 9]%Z.
Proof.
  intros HINF Hfuel. unfold BFS.serialAlgo.
  apply (serialLoop_fuel_mono INF BFS.chain10 10); [|done].
  unfold initData.
  symex with (unfold BFS.serialRelax). reflexivity.
Qed.

Lemma serialAlgo_chain10_witness :
  (10 <= 2147483646)%Z /\ 10 <= 10 /\
  BFS.serialAlgo 2147483646 10 BFS.chain10 0
    (initData 2147483646 BFS.chain10 0)
  = Some [0; 1; 2; 3; 4; 5; 6; 7; 8; 9]%Z.
Proof.
  split; [lia|]. split; [lia|]. apply serialAlgo_chain10; lia.
Defined.

(** The run with the list of processed nodes computes the same
    distances. *)
Lemma serialLoopL_erase INF g fuel :
  forall d wl log,
  fst <$> BFS.serialLoopL INF fuel g d wl log = BFS.serialLoop INF fuel g d wl.
Proof.
  induction fuel as [|fuel IH]; intros d wl log;
    cbn [BFS.serialLoopL BFS.serialLoop]; destruct wl as [|req wl];
    first [done | apply IH].
Qed.

(** Every node with a finite distance has been processed or is waiting
    in the deque. *)
Definition accounted (INF : Z) (n : nat) (d : NodeData)
    (wl : list BFS.UpdateRequest) (log : list GNode) : Prop :=
  forall v, v < n -> visited INF d v -> In v log \/ pending wl v.

Lemma serialRelax_accounted INF n g req log es :
  forall d wl,
  accounted INF n d wl log ->
  let st := fold_left (BFS.serialRelax INF g req) es (d, wl) in
  accounted INF n st.1 st.2 log.
Proof.
  induction es as [|e es IH]; intros d wl Hacc; cbn [fold_left]; [done|].
  destruct (BFS.serialRelax INF g req (d, wl) e) as [d1 wl1] eqn:Hstep.
  apply IH. unfold BFS.serialRelax in Hstep. cbn [fst snd] in Hstep.
  destruct (getData d (getEdgeDst g e) =? INF)%Z;
    injection Hstep as <- <-; [|done].
  intros v Hlt Hv.
  destruct (Nat.eq_dec v (getEdgeDst g e)) as [->|Hne].
  - right. eexists. rewrite in_app_iff. split; [right; by left | done].
  - unfold visited in Hv. rewrite getData_setData_ne in Hv by done.
    destruct (Hacc v Hlt Hv) as [Hin|Hp]; [by left|].
    right. by apply pending_app.
Qed.

Lemma serialLoopL_processed INF n g fuel :
  forall d wl log,
  accounted INF n d wl log ->
  match BFS.serialLoopL INF fuel g d wl log with
  | Some (d', log') => forall v, v < n -> visited INF d' v -> In v log'
  | None => True
  end.
Proof.
  assert (Hnil : forall d log, accounted INF n d [] log ->
                   forall v, v < n -> visited INF d v -> In v log).
  { intros d log Hacc v Hlt Hv.
    by destruct (Hacc v Hlt Hv) as [Hin|(r & [] & _)]. }
  induction fuel as [|fuel IH]; intros d wl log Hacc;
    cbn [BFS.serialLoopL]; destruct wl as [|req wl]; try done;
    try by apply Hnil.
  apply IH. apply serialRelax_accounted.
  intros v Hlt Hv. destruct (Hacc v Hlt Hv) as [Hin|(r & [<-|Hr] & Hn)].
  - left. rewrite in_app_iff. by left.
  - left. rewrite in_app_iff. right. by left.
  - right. by exists r.
Qed.

(** C3: for every well-formed graph and every source in range,
    [serialAlgo] terminates, and on return every node reachable from the
    source has been processed (its request was popped and its edges
    looked at) and has a finite distance, while every node that is not
    reachable keeps [DIST_INFINITY]. [DIST_INFINITY] must lie above the
    levels of the graph. *)
Theorem serialAlgo_complete INF g s :
  wf_graph g = true -> s < graph_size g ->
  (Z.of_nat (graph_size g) <= INF < 2 ^ 32)%Z ->
  exists d processed,
    BFS.serialAlgo INF (graph_size g) g s (initData INF g s) = Some d /\
    BFS.serialAlgoL INF (graph_size g) g s (initData INF g s)
    = Some (d, processed) /\
    forall v, v < graph_size g ->
      (reachable g s v -> In v processed /\ getData d v <> INF) /\
      (~ reachable g s v -> getData d v = INF).
Proof.
  intros Hwf Hs HINF.
  destruct (serialAlgo_correct INF g s Hwf Hs HINF (graph_size g) (le_n _))
    as (d & Hrun & HB & Hcl).
  pose proof (serialLoopL_erase INF g (graph_size g)
                (setData (initData INF g s) s 0%Z) [BFS.Req s 1%Z] []) as Her.
  pose proof (serialLoopL_processed INF (graph_size g) g (graph_size g)
                (setData (initData INF g s) s 0%Z) [BFS.Req s 1%Z] []) as Hpr.
  fold (BFS.serialAlgoL INF (graph_size g) g s (initData INF g s)) in Her, Hpr.
  fold (BFS.serialAlgo INF (graph_size g) g s (initData INF g s)) in Her.
  rewrite Hrun in Her.
  destruct (BFS.serialAlgoL INF (graph_size g) g s (initData INF g s))
    as [[d' processed]|]; [|done].
  injection Her as ->.
  exists d, processed. split; [done|]. split; [done|]. intros v Hv.
  destruct (closed_result INF g s Hwf Hs HINF d HB Hcl) as [_ Hres].
  destruct (Hres v Hv) as (_ & Hr & Hu). split; [|done].
  intros Hreach. split; [|by apply Hr].
  apply Hpr; [|done|by apply Hr].
  intros x Hlt Hx. right. exists (BFS.Req s 1). split; [by left|].
  symmetry. by eapply init_visited.
Qed.

Lemma serialAlgo_complete_witness :
  exists d processed,
    BFS.serialAlgo 2147483646 (graph_size BFS.chain10) BFS.chain10 0
      (initData 2147483646 BFS.chain10 0) = Some d /\
    BFS.serialAlgoL 2147483646 (graph_size BFS.chain10) BFS.chain10 0
      (initData 2147483646 BFS.chain10 0) = Some (d, processed) /\
    forall v, v < graph_size BFS.chain10 ->
      (reachable BFS.chain10 0 v ->
       In v processed /\ getData d v <> 2147483646%Z) /\
      (~ reachable BFS.chain10 0 v -> getData d v = 2147483646%Z).
Proof.
  apply serialAlgo_complete; [reflexivity | vm_compute; lia | split; by vm_compute].
Defined.

(** C7: for every well-formed graph and every source in range,
    [serialAlgo] and [serialSyncAlgo] return the same array: a node
    reachable from the source holds its BFS level, every other node
    holds [DIST_INFINITY]. *)
Theorem serial_serialSync_agree INF g s :
  wf_graph g = true -> s < graph_size g ->
  (Z.of_nat (graph_size g) <= INF < 2 ^ 32)%Z ->
  exists d,
    BFS.serialAlgo INF (graph_size g) g s (initData INF g s) = Some d /\
    BFS.serialSyncAlgo INF (graph_size g) g s (initData INF g s) = Some d /\
    forall v, v < graph_size g ->
      (forall k, bfs_level g s v k -> getData d v = Z.of_nat k) /\
      (~ reachable g s v -> getData d v = INF).
Proof.
  intros Hwf Hs HINF.
  destruct (serialAlgo_correct INF g s Hwf Hs HINF (graph_size g) (le_n _))
    as (d1 & Hrun1 & HB1 & Hcl1).
  destruct (serialSyncAlgo_correct INF g s Hwf Hs HINF (graph_size g) (le_n _))
    as (d2 & Hrun2 & HB2 & Hcl2).
  pose proof (closed_result INF g s Hwf Hs HINF d2 HB2 Hcl2) as Hres2.
  pose proof (bfs_result_unique INF g s Hwf Hs HINF d1 d2 HB1 Hcl1 Hres2) as Heq.
  subst d2. exists d1. split; [done|]. split; [done|].
  intros v Hv. destruct Hres2 as [_ Hres].
  destruct (Hres v Hv) as (Hl & _ & Hu). by split.
Qed.

Lemma serial_serialSync_agree_witness :
  exists d,
    BFS.serialAlgo 2147483646 (graph_size BFS.chain10) BFS.chain10 0
      (initData 2147483646 BFS.chain10 0) = Some d /\
    BFS.serialSyncAlgo 2147483646 (graph_size BFS.chain10) BFS.chain10 0
      (initData 2147483646 BFS.chain10 0) = Some d /\
    forall v, v < graph_size BFS.chain10 ->
      (forall k, bfs_level BFS.chain10 0 v k -> getData d v = Z.of_nat k) /\
      (~ reachable BFS.chain10 0 v -> getData d v = 2147483646%Z).
Proof.
  apply serial_serialSync_agree; [reflexivity | vm_compute; lia | split; by vm_compute].
Defined.

(** ** Shortest paths: the claims *)


(** ** Shortest paths: fuel *)

Section SSSPFuel.

Context {T : Type} `{SSSP.WorkItem T}.
Variable pushWrap : GNode -> Dist -> list T.
Variable edgeRange : T -> list edge_iterator.

Lemma dijkstraLoop_fuel_mono {WL} `{SSSP.Heap T WL} g fuel :
  forall fuel' st r,
  SSSP.dijkstraLoop pushWrap edgeRange fuel g st = Some r -> fuel <= fuel' ->
  SSSP.dijkstraLoop pushWrap edgeRange fuel' g st = Some r.
Proof.
  induction fuel as [|fuel IH]; intros fuel' st r Hrun Hle.
  - cbn [SSSP.dijkstraLoop] in Hrun.
    destruct (SSSP.heap_empty st.2) eqn:He; [|done].
    destruct fuel'; cbn [SSSP.dijkstraLoop]; by rewrite He.
  - destruct fuel' as [|fuel']; [lia|].
    cbn [SSSP.dijkstraLoop] in *.
    destruct (SSSP.heap_empty st.2); [done|].
    destruct (SSSP.heap_pop st.2) as [[item wl]|]; [|done].
    apply IH; [done | lia].
Qed.

Lemma drainBucket_fuel_mono shift g curr fuel :
  forall fuel' st r,
  SSSP.drainBucket pushWrap edgeRange shift fuel g curr st = Some r ->
  fuel <= fuel' ->
  SSSP.drainBucket pushWrap edgeRange shift fuel' g curr st = Some r.
Proof.
  induction fuel as [|fuel IH]; intros fuel' st r Hrun Hle.
  - cbn [SSSP.drainBucket] in Hrun.
    destruct (SSSP.bucket st.2 curr) eqn:Hb; [|done].
    destruct fuel'; cbn [SSSP.drainBucket]; by rewrite Hb.
  - destruct fuel' as [|fuel']; [lia|].
    cbn [SSSP.drainBucket] in *.
    destruct (SSSP.bucket st.2 curr) as [|item rest]; [done|].
    destruct (getData st.1 (SSSP.src item) <? SSSP.dist item)%Z;
      (apply IH; [done | lia]).
Qed.

Lemma serDeltaLoop_fuel_mono shift g fuel :
  forall fuel' st r,
  SSSP.serDeltaLoop pushWrap edgeRange shift fuel g st = Some r ->
  fuel <= fuel' ->
  SSSP.serDeltaLoop pushWrap edgeRange shift fuel' g st = Some r.
Proof.
  induction fuel as [|fuel IH]; intros fuel' st r Hrun Hle.
  - cbn [SSSP.serDeltaLoop] in Hrun.
    destruct (SSSP.wl_empty st.2) eqn:He; [|done].
    destruct fuel'; cbn [SSSP.serDeltaLoop]; by rewrite He.
  - destruct fuel' as [|fuel']; [lia|].
    cbn [SSSP.serDeltaLoop] in *.
    destruct (SSSP.wl_empty st.2); [done|].
    destruct (SSSP.drainBucket pushWrap edgeRange shift fuel g
                (SSSP.wl_minBucket st.2) st) as [st'|] eqn:Hd; [|done].
    rewrite (drainBucket_fuel_mono shift g _ fuel fuel' st st' Hd ltac:(lia)).
    apply IH; [done | lia].
Qed.

Lemma serDeltaAlgo_fuel_mono shift g source d fuel fuel' r :
  SSSP.serDeltaAlgo pushWrap edgeRange shift fuel g source d = SSSP.Finished r ->
  fuel <= fuel' ->
  SSSP.serDeltaAlgo pushWrap edgeRange shift fuel' g source d = SSSP.Finished r.
Proof.
  unfold SSSP.serDeltaAlgo. intros Hrun Hle.
  destruct (SSSP.serDeltaLoop pushWrap edgeRange shift fuel g _) as [st|] eqn:Hl;
    [|done].
  by rewrite (serDeltaLoop_fuel_mono shift g fuel fuel' _ st Hl Hle).
Qed.

End SSSPFuel.

(** ** Shortest paths: the claims *)

Lemma data_eqb_eq d1 d2 : SSSP.data_eqb d1 d2 = true -> d1 = d2.
Proof.
  revert d2. induction d1 as [|x d1 IH]; intros [|y d2] Heq; try done.
  cbn [SSSP.data_eqb] in Heq. apply andb_prop in Heq as [Hxy Hd].
  apply Z.eqb_eq in Hxy. f_equal; [done | by apply IH].
Qed.

(** What the search through the schedules finds holds of every run. *)
Lemma all_runs_sound {T} (op : T -> list Z * list T -> list Z * list T)
    expected fuel :
  forall st,
  SSSP.all_runs op expected fuel st = true ->
  forall r, SSSP.for_each_run op st r -> r = expected.
Proof.
  induction fuel as [|fuel IH]; intros st Hall r Hrun.
  - destruct Hrun as [d|d wl1 item wl2 st' r Hop Hrun].
    + by apply data_eqb_eq.
    + by destruct wl1.
  - destruct Hrun as [d|d wl1 item wl2 st' r Hop Hrun].
    + by apply data_eqb_eq.
    + cbn [SSSP.all_runs snd fst] in Hall.
      assert (Hne : exists x l, wl1 ++ item :: wl2 = x :: l)
        by (destruct wl1; eauto).
      destruct Hne as (x & l & Hne). rewrite Hne in Hall. rewrite <- Hne in Hall.
      rewrite forallb_forall in Hall.
      specialize (Hall (length wl1)).
      rewrite list_lookup_middle in Hall by done.
      rewrite take_app_length in Hall.
      replace (drop (S (length wl1)) (wl1 ++ item :: wl2)) with wl2 in Hall.
      * subst st'. apply (IH _ (Hall ltac:(apply in_seq; rewrite length_app; simpl; lia)) r Hrun).
      * rewrite cons_middle, app_assoc.
        replace (S (length wl1)) with (length (wl1 ++ [item]))
          by (rewrite length_app; simpl; lia).
        by rewrite drop_app_length.
Qed.

(** C1: on the graph with the edges (0,1,10), (0,2,1), (2,1,1), (1,3,1)
    and source 0, all distances initialised to [DIST_INFINITY] and the
    source to 0, [dijkstraAlgo] and [serDeltaAlgo] (for every shift)
    terminate with the distances 0, 2, 1, 3; and so does the loop of
    [deltaStepAlgo] in whatever order the items are taken, within 8
    operator calls. *)
Theorem sssp_E2 INF stepShift fuel :
  (10 < INF)%Z -> (0 <= stepShift < 32)%Z -> 10 <= fuel ->
  SSSP.dijkstraAlgo (H0 := SSSP.MinHeap SSSP.req_ltb)
    SSSP.ReqPushWrap (SSSP.OutEdgeRangeFn SSSP.graphE2)
    [] fuel SSSP.graphE2 0 (initData INF SSSP.graphE2 0)
  = Some [0; 2; 1; 3]%Z /\
  SSSP.serDeltaAlgo SSSP.ReqPushWrap (SSSP.OutEdgeRangeFn SSSP.graphE2)
    stepShift fuel SSSP.graphE2 0 (initData INF SSSP.graphE2 0)
  = SSSP.Finished [0; 2; 1; 3]%Z /\
  SSSP.all_runs
    (SSSP.deltaStepOp SSSP.ReqPushWrap (SSSP.OutEdgeRangeFn SSSP.graphE2)
       SSSP.graphE2)
    [0; 2; 1; 3]%Z 8
    (setData (initData INF SSSP.graphE2 0) 0 0%Z, SSSP.ReqPushWrap 0 0%Z)
  = true /\
  (forall r,
     SSSP.deltaStepAlgo SSSP.ReqPushWrap (SSSP.OutEdgeRangeFn SSSP.graphE2)
       SSSP.graphE2 0 (initData INF SSSP.graphE2 0) r ->
     r = [0; 2; 1; 3]%Z).
Proof.
  intros HINF Hs Hfuel.
  assert (Hall : SSSP.all_runs
            (SSSP.deltaStepOp SSSP.ReqPushWrap
               (SSSP.OutEdgeRangeFn SSSP.graphE2) SSSP.graphE2)
            [0; 2; 1; 3]%Z 8
            (setData (initData INF SSSP.graphE2 0) 0 0%Z,
             SSSP.ReqPushWrap 0 0%Z) = true).
  { clear Hfuel Hs. split_inf INF; vm_compute; reflexivity. }
  split; [|split; [|split; [exact Hall|]]]; cycle 2.
  { intros r Hrun. by eapply all_runs_sound. }
  - unfold SSSP.dijkstraAlgo. cbv zeta.
    apply (dijkstraLoop_fuel_mono (H0 := SSSP.MinHeap SSSP.req_ltb)
             _ _ SSSP.graphE2 10 fuel); [|done].
    clear Hfuel Hs. (split_inf INF; vm_compute; reflexivity).
  - apply (serDeltaAlgo_fuel_mono _ _ _ _ _ _ 10 fuel); [|done].
    clear Hfuel.
    assert (Hcases : In stepShift (map Z.of_nat (seq 0 32))).
    { replace stepShift with (Z.of_nat (Z.to_nat stepShift)) by lia.
      apply in_map, in_seq. lia. }
    clear Hs. cbv [map seq Z.of_nat Pos.of_succ_nat Pos.succ In] in Hcases.
    repeat (destruct Hcases as [<-|Hcases];
            [split_inf INF; vm_compute; reflexivity|]).
    destruct Hcases.
Qed.

Lemma sssp_E2_witness :
  SSSP.dijkstraAlgo (H0 := SSSP.MinHeap SSSP.req_ltb)
    SSSP.ReqPushWrap (SSSP.OutEdgeRangeFn SSSP.graphE2)
    [] 10 SSSP.graphE2 0 (initData 2147483646 SSSP.graphE2 0)
  = Some [0; 2; 1; 3]%Z /\
  SSSP.serDeltaAlgo SSSP.ReqPushWrap (SSSP.OutEdgeRangeFn SSSP.graphE2)
    13 10 SSSP.graphE2 0 (initData 2147483646 SSSP.graphE2 0)
  = SSSP.Finished [0; 2; 1; 3]%Z /\
  SSSP.all_runs
    (SSSP.deltaStepOp SSSP.ReqPushWrap (SSSP.OutEdgeRangeFn SSSP.graphE2)
       SSSP.graphE2)
    [0; 2; 1; 3]%Z 8
    (setData (initData 2147483646 SSSP.graphE2 0) 0 0%Z, SSSP.ReqPushWrap 0 0%Z)
  = true /\
  (forall r,
     SSSP.deltaStepAlgo SSSP.ReqPushWrap (SSSP.OutEdgeRangeFn SSSP.graphE2)
       SSSP.graphE2 0 (initData 2147483646 SSSP.graphE2 0) r ->
     r = [0; 2; 1; 3]%Z).
Proof.
  apply sssp_E2; lia.
Defined.

(** *** Distances only go down *)

Lemma le_data_refl d : le_data d d.
Proof. intros v. lia. Qed.

Lemma le_data_trans d1 d2 d3 : le_data d1 d2 -> le_data d2 d3 -> le_data d1 d3.
Proof. intros H12 H23 v. specialize (H12 v). specialize (H23 v). lia. Qed.

Lemma getData_setData d n v m :
  getData (setData d n v) m
  = if decide (n = m /\ n < length d) then v else getData d m.
Proof.
  unfold getData, setData. rewrite list_lookup_insert.
  by destruct (decide (n = m /\ n < length d)).
Qed.

Lemma le_data_setData d n v :
  (v <= getData d n)%Z -> le_data (setData d n v) d.
Proof.
  intros Hv m. rewrite getData_setData.
  destruct (decide (n = m /\ n < length d)) as [[-> _]|_]; lia.
Qed.

Section Monotone.

Context {T : Type} `{SSSP.WorkItem T}.
Variable pushWrap : GNode -> Dist -> list T.
Variable edgeRange : T -> list edge_iterator.

(** A relaxation leaves the distances alone or stores a strictly smaller
    value at the destination of the edge. *)
Lemma relax_write {WL} (push : WL -> T -> WL) g item d wl e :
  let d' := (SSSP.relax pushWrap push g item (d, wl) e).1 in
  d' = d \/
  exists x, (x < getData d (getEdgeDst g e))%Z /\
            d' = setData d (getEdgeDst g e) x.
Proof.
  unfold SSSP.relax. cbn [fst snd].
  destruct (Z.ltb_spec (wrap (SSSP.dist item + getEdgeData g e))
                       (getData d (getEdgeDst g e))) as [Hlt|Hge];
    cbn [fst]; [right; eauto | by left].
Qed.

Lemma atomicMin_write d n v :
  let d' := (SSSP.atomicMin d n v).2 in
  d' = d \/ ((v < getData d n)%Z /\ d' = setData d n v).
Proof.
  unfold SSSP.atomicMin. cbn [snd].
  destruct (Z.ltb_spec v (getData d n)); [by right | by left].
Qed.

Lemma relax_le {WL} (push : WL -> T -> WL) g item st e :
  le_data (SSSP.relax pushWrap push g item st e).1 st.1.
Proof.
  destruct st as [d wl].
  destruct (relax_write push g item d wl e) as [->|(x & Hx & ->)].
  - apply le_data_refl.
  - apply le_data_setData. cbn [fst]. lia.
Qed.

Lemma relax_fold_le {WL} (push : WL -> T -> WL) g item es :
  forall st, le_data (fold_left (SSSP.relax pushWrap push g item) es st).1 st.1.
Proof.
  induction es as [|e es IH]; intros st; cbn [fold_left].
  - apply le_data_refl.
  - eapply le_data_trans; [apply IH | apply relax_le].
Qed.

Lemma dijkstraStep_le {WL} `{SSSP.Heap T WL} g item st :
  le_data (SSSP.dijkstraStep pushWrap edgeRange g item st).1 st.1.
Proof.
  unfold SSSP.dijkstraStep.
  destruct (getData st.1 (SSSP.src item) <? SSSP.dist item)%Z.
  - apply le_data_refl.
  - apply relax_fold_le.
Qed.

Lemma dijkstraLoop_le {WL} `{SSSP.Heap T WL} g fuel :
  forall st,
  match SSSP.dijkstraLoop pushWrap edgeRange fuel g st with
  | Some r => le_data r st.1
  | None => True
  end.
Proof.
  induction fuel as [|fuel IH]; intros st; cbn [SSSP.dijkstraLoop].
  - destruct (SSSP.heap_empty st.2); [apply le_data_refl | done].
  - destruct (SSSP.heap_empty st.2); [apply le_data_refl|].
    destruct (SSSP.heap_pop st.2) as [[item wl]|]; [|done].
    specialize (IH (SSSP.dijkstraStep pushWrap edgeRange g item (st.1, wl))).
    destruct (SSSP.dijkstraLoop _ _ _ _ _) as [r|]; [|done].
    eapply le_data_trans; [exact IH|].
    apply (dijkstraStep_le g item (st.1, wl)).
Qed.

Lemma drainBucket_le shift g curr fuel :
  forall st,
  match SSSP.drainBucket pushWrap edgeRange shift fuel g curr st with
  | Some st' => le_data st'.1 st.1
  | None => True
  end.
Proof.
  induction fuel as [|fuel IH]; intros st; cbn [SSSP.drainBucket].
  - destruct (SSSP.bucket st.2 curr); [apply le_data_refl | done].
  - destruct (SSSP.bucket st.2 curr) as [|item rest]; [apply le_data_refl|].
    destruct (getData st.1 (SSSP.src item) <? SSSP.dist item)%Z.
    + apply (IH (st.1, _)).
    + match goal with
      | |- context [SSSP.drainBucket _ _ _ _ _ _ ?st1] =>
          specialize (IH st1);
          destruct (SSSP.drainBucket pushWrap edgeRange shift fuel g curr st1)
            as [st'|]; [|done];
          eapply le_data_trans; [exact IH|]
      end.
      apply (relax_fold_le _ g item _ (st.1, _)).
Qed.

Lemma serDeltaLoop_le shift g fuel :
  forall st,
  match SSSP.serDeltaLoop pushWrap edgeRange shift fuel g st with
  | Some st' => le_data st'.1 st.1
  | None => True
  end.
Proof.
  induction fuel as [|fuel IH]; intros st; cbn [SSSP.serDeltaLoop].
  - destruct (SSSP.wl_empty st.2); [apply le_data_refl | done].
  - destruct (SSSP.wl_empty st.2); [apply le_data_refl|].
    pose proof (drainBucket_le shift g (SSSP.wl_minBucket st.2) fuel st) as Hd.
    destruct (SSSP.drainBucket _ _ _ _ _ _ _) as [st1|]; [|done].
    specialize (IH (st1.1, SSSP.wl_goToNextBucket st1.2)).
    destruct (SSSP.serDeltaLoop _ _ _ _ _ _) as [st'|]; [|done].
    eapply le_data_trans; [exact IH | exact Hd].
Qed.

Lemma deltaRelax_le g item st ii :
  le_data (SSSP.deltaRelax pushWrap g item st ii).1 st.1.
Proof.
  unfold SSSP.deltaRelax.
  pose proof (atomicMin_write st.1 (getEdgeDst g ii)
                (wrap (getData st.1 (SSSP.src item) + getEdgeData g ii))) as Hw.
  destruct (SSSP.atomicMin _ _ _) as [old d']. cbn [snd] in Hw.
  assert (Hle : le_data d' st.1).
  { destruct Hw as [->|[Hlt ->]]; [apply le_data_refl|].
    apply le_data_setData. lia. }
  by destruct (_ <? old)%Z.
Qed.

Lemma deltaStepOp_le g item st :
  le_data (SSSP.deltaStepOp pushWrap edgeRange g item st).1 st.1.
Proof.
  unfold SSSP.deltaStepOp.
  destruct (getData st.1 (SSSP.src item) <? SSSP.dist item)%Z;
    [apply le_data_refl|].
  generalize (edgeRange item). intros es. revert st.
  induction es as [|e es IH]; intros st; cbn [fold_left].
  - apply le_data_refl.
  - eapply le_data_trans; [apply IH | apply deltaRelax_le].
Qed.

End Monotone.

(** C4: in a run of [dijkstraAlgo], [serDeltaAlgo] or the operator of
    [deltaStepAlgo], every write to a distance (the guarded assignment of
    the serial variants, [atomicMin] in the operator) stores a value
    strictly smaller than the one it replaces; so from any state on, in
    every turn of a loop and in the whole rest of a run, and over any
    sequence of operator calls, no distance ever goes up. *)
Theorem sssp_distances_decrease :
  (forall T (HT : SSSP.WorkItem T) pushWrap WL (push : WL -> T -> WL)
          g item d wl e,
     let d' := (SSSP.relax pushWrap push g item (d, wl) e).1 in
     d' = d \/
     exists x, (x < getData d (getEdgeDst g e))%Z /\
               d' = setData d (getEdgeDst g e) x) /\
  (forall d n v,
     let d' := (SSSP.atomicMin d n v).2 in
     d' = d \/ ((v < getData d n)%Z /\ d' = setData d n v)) /\
  (forall T (HT : SSSP.WorkItem T) pushWrap edgeRange WL (HW : SSSP.Heap T WL)
          g item st,
     le_data (SSSP.dijkstraStep pushWrap edgeRange g item st).1 st.1) /\
  (forall T (HT : SSSP.WorkItem T) pushWrap edgeRange WL (HW : SSSP.Heap T WL)
          fuel g st,
     match SSSP.dijkstraLoop pushWrap edgeRange fuel g st with
     | Some r => le_data r st.1
     | None => True
     end) /\
  (forall T (HT : SSSP.WorkItem T) pushWrap edgeRange shift fuel g curr st,
     match SSSP.drainBucket (T := T) pushWrap edgeRange shift fuel g curr st with
     | Some st' => le_data st'.1 st.1
     | None => True
     end) /\
  (forall T (HT : SSSP.WorkItem T) pushWrap edgeRange shift fuel g st,
     match SSSP.serDeltaLoop (T := T) pushWrap edgeRange shift fuel g st with
     | Some st' => le_data st'.1 st.1
     | None => True
     end) /\
  (forall T (HT : SSSP.WorkItem T) pushWrap edgeRange g (items : list T) st,
     le_data
       (fold_left (fun st item => SSSP.deltaStepOp pushWrap edgeRange g item st)
                  items st).1 st.1).
Proof.
  split; [intros; apply relax_write|].
  split; [intros; apply atomicMin_write|].
  split; [intros; apply dijkstraStep_le|].
  split; [intros; apply dijkstraLoop_le|].
  split; [intros; apply drainBucket_le|].
  split; [intros; apply serDeltaLoop_le|].
  intros T HT pushWrap edgeRange g items. induction items as [|item items IH];
    intros st; cbn [fold_left].
  - apply le_data_refl.
  - eapply le_data_trans; [apply IH | apply deltaStepOp_le].
Qed.

(** C6: when the node of a popped item already holds a distance smaller
    than the item's, the operator of [deltaStepAlgo] returns at once: the
    distances are unchanged and nothing is pushed to the context. *)
Theorem deltaStepOp_stale_item T (HT : SSSP.WorkItem T) pushWrap edgeRange
    g (item : T) d ctx :
  (getData d (SSSP.src item) < SSSP.dist item)%Z ->
  SSSP.deltaStepOp pushWrap edgeRange g item (d, ctx) = (d, ctx).
Proof.
  intros Hlt. unfold SSSP.deltaStepOp. cbn [fst].
  by rewrite (proj2 (Z.ltb_lt _ _) Hlt).
Qed.

Lemma deltaStepOp_stale_item_witness :
  (getData [0; 2; 1; 3]%Z (SSSP.src (SSSP.Req 1 10)) < SSSP.dist (SSSP.Req 1 10))%Z /\
  SSSP.deltaStepOp SSSP.ReqPushWrap (SSSP.OutEdgeRangeFn SSSP.graphE2)
    SSSP.graphE2 (SSSP.Req 1 10) ([0; 2; 1; 3]%Z, [])
  = ([0; 2; 1; 3]%Z, []).
Proof.
  assert (H : (getData [0; 2; 1; 3]%Z (SSSP.src (SSSP.Req 1 10))
               < SSSP.dist (SSSP.Req 1 10))%Z) by reflexivity.
  split; [exact H|]. by apply deltaStepOp_stale_item.
Defined.

(** *** [serDeltaAlgo]: no bucket below the cursor is ever filled *)

Lemma weights_bounded_edge B g e :
  (0 <= B < 2 ^ 32)%Z -> weights_bounded B g = true ->
  (0 <= getEdgeData g e)%Z /\ (B + getEdgeData g e < 2 ^ 32)%Z.
Proof.
  intros HB Hw. unfold getEdgeData.
  destruct (nth_in_or_default e (edgeData g) 0%Z) as [Hin| ->]; [|lia].
  unfold weights_bounded in Hw. rewrite forallb_forall in Hw.
  apply Hw in Hin. apply andb_prop in Hin as [H1 H2].
  apply Z.leb_le in H1. apply Z.ltb_lt in H2. done.
Qed.

Lemma skipEmpty_spec {T} (l : list (list T)) :
  SSSP.skipEmpty l <= length l /\
  forall j q, j < SSSP.skipEmpty l -> l !! j = Some q -> q = [].
Proof.
  induction l as [|b l [IH1 IH2]]; cbn [SSSP.skipEmpty].
  - split; [done|]. intros j q Hj. lia.
  - destruct b as [|x b]; cbn [SSSP.is_nil].
    + split; [simpl; lia|]. intros [|j] q Hj Hq.
      * by injection Hq as <-.
      * apply (IH2 j); [lia | done].
    + split; [simpl; lia|]. intros j q Hj. lia.
Qed.

Section SerDeltaSafe.

Context {T : Type} `{SSSP.WorkItem T}.
Variable pushWrap : GNode -> Dist -> list T.
Variable edgeRange : T -> list edge_iterator.
Variable shift : Z.
Variable B : Z.
Variable g : Graph.

Hypothesis Hweights : forall e,
  (0 <= getEdgeData g e)%Z /\ (B + getEdgeData g e < 2 ^ 32)%Z.
Hypothesis HpushWrap : forall n x item,
  In item (pushWrap n x) -> SSSP.dist item = x.

Definition idx (item : T) : Z := SSSP.UpdateRequestIndexer shift item.

Definition item_ok (item : T) : Prop := (0 <= SSSP.dist item <= B)%Z.

Lemma idx_nonneg item : item_ok item -> (0 <= idx item)%Z.
Proof.
  intros [H0 _]. unfold idx, SSSP.UpdateRequestIndexer.
  by apply Z.shiftr_nonneg.
Qed.

Lemma idx_mono a b :
  (SSSP.dist a <= SSSP.dist b)%Z -> (idx a <= idx b)%Z.
Proof.
  intros Hle. unfold idx, SSSP.UpdateRequestIndexer.
  destruct (Z.le_gt_cases 0 shift) as [Hpos|Hneg].
  - rewrite !Z.shiftr_div_pow2 by done.
    apply Z.div_le_mono; [|done]. by apply Z.pow_pos_nonneg.
  - rewrite !Z.shiftr_mul_pow2 by lia.
    apply Z.mul_le_mono_nonneg_r; [|done]. apply Z.pow_nonneg. lia.
Qed.

Record WLInv (wl : SSSP.SerialBucketWL T) : Prop := {
  w_idx : forall i q item,
    SSSP.m_buckets wl !! i = Some q -> In item q ->
    idx item = Z.of_nat i /\ item_ok item;
  w_last : forall item,
    In item (SSSP.m_lastBucket wl) ->
    (SSSP.MAX_BUCKETS <= idx item)%Z /\ item_ok item;
  w_size : (Z.of_nat (length (SSSP.m_buckets wl)) <= SSSP.MAX_BUCKETS)%Z;
  w_below : forall i q,
    i < SSSP.m_minBucket wl -> SSSP.m_buckets wl !! i = Some q -> q = [];
  w_min : SSSP.m_minBucket wl <= length (SSSP.m_buckets wl)
}.

Lemma wl_new_inv : WLInv SSSP.wl_new.
Proof.
  split; cbn.
  - intros i q item Hq. by rewrite lookup_nil in Hq.
  - by intros item [].
  - unfold SSSP.MAX_BUCKETS. lia.
  - intros i q Hi. lia.
  - done.
Qed.

Lemma wl_push_inv wl item :
  WLInv wl -> item_ok item ->
  (Z.of_nat (SSSP.m_minBucket wl) <= idx item)%Z ->
  WLInv (SSSP.wl_push idx wl item) /\
  SSSP.m_minBucket (SSSP.wl_push idx wl item) = SSSP.m_minBucket wl.
Proof.
  intros [Hidx Hlast Hsize Hbelow Hmin] Hok Hge.
  pose proof (idx_nonneg item Hok) as Hb0.
  unfold SSSP.wl_push. set (b := idx item) in *.
  destruct (Z.ltb_spec b (Z.of_nat (length (SSSP.m_buckets wl)))) as [Hin|Hout].
  - split; [|done]. split; cbn.
    + intros i q it Hq Hit. rewrite list_lookup_alter in Hq.
      destruct (decide (Z.to_nat b = i)) as [<-|Hne]; [|by eapply Hidx].
      destruct (SSSP.m_buckets wl !! Z.to_nat b) as [q0|] eqn:Hq0; [|done].
      injection Hq as <-. apply in_app_iff in Hit as [Hit|[<-|[]]].
      * by eapply Hidx.
      * split; [fold b; lia | done].
    + done.
    + by rewrite length_alter.
    + intros i q Hi Hq. rewrite list_lookup_alter_ne in Hq by lia.
      by eapply Hbelow.
    + by rewrite length_alter.
  - destruct (Z.leb_spec SSSP.MAX_BUCKETS b) as [Hbig|Hsmall].
    + split; [|done]. split; cbn; try done.
      intros it [Hit|[<-|[]]]%in_app_iff; [by apply Hlast | by split].
    + split; [|done].
      assert (Hlen : length (SSSP.m_buckets wl) <= Z.to_nat b) by lia.
      split; cbn.
      * intros i q it Hq Hit. rewrite list_lookup_alter in Hq.
        destruct (decide (Z.to_nat b = i)) as [<-|Hne].
        -- rewrite lookup_resize_new in Hq by lia. injection Hq as <-.
           destruct Hit as [<-|[]]. split; [fold b; lia | done].
        -- destruct (Nat.lt_ge_cases i (length (SSSP.m_buckets wl))).
           ++ rewrite lookup_resize in Hq by lia. by eapply Hidx.
           ++ destruct (Nat.lt_ge_cases i (Z.to_nat (b + 1))).
              ** rewrite lookup_resize_new in Hq by lia.
                 injection Hq as <-. destruct Hit.
              ** by rewrite lookup_resize_old in Hq by lia.
      * done.
      * rewrite length_alter, length_resize. lia.
      * intros i q Hi Hq. rewrite list_lookup_alter_ne in Hq by lia.
        rewrite lookup_resize in Hq by lia. by eapply Hbelow.
      * rewrite length_alter, length_resize. lia.
Qed.

Lemma wl_push_fold_inv items :
  forall wl,
  WLInv wl -> Forall item_ok items ->
  Forall (fun item => (Z.of_nat (SSSP.m_minBucket wl) <= idx item)%Z) items ->
  WLInv (fold_left (SSSP.wl_push idx) items wl) /\
  SSSP.m_minBucket (fold_left (SSSP.wl_push idx) items wl) = SSSP.m_minBucket wl.
Proof.
  induction items as [|item items IH]; intros wl Hinv Hok Hge; cbn [fold_left].
  - done.
  - apply Forall_cons_1 in Hok as [Hok1 Hok]. apply Forall_cons_1 in Hge as [Hge1 Hge].
    destruct (wl_push_inv wl item Hinv Hok1 Hge1) as [Hinv1 Hmin1].
    destruct (IH (SSSP.wl_push idx wl item) Hinv1 Hok) as [Hinv2 Hmin2].
    + by rewrite Hmin1.
    + split; [done | congruence].
Qed.

Lemma bucket_pop_front_inv wl r :
  WLInv wl ->
  WLInv (SSSP.bucket_pop_front wl r) /\
  SSSP.m_minBucket (SSSP.bucket_pop_front wl r) = SSSP.m_minBucket wl.
Proof.
  intros [Hidx Hlast Hsize Hbelow Hmin]. split; [|by destruct r].
  destruct r as [i|]; split; cbn; try done.
  - intros j q it Hq Hit. rewrite list_lookup_alter in Hq.
    destruct (decide (i = j)) as [<-|Hne]; [|by eapply Hidx].
    destruct (SSSP.m_buckets wl !! i) as [q0|] eqn:Hq0; [|done].
    injection Hq as <-. apply (Hidx i q0); [done|].
    destruct q0; [done | by right].
  - by rewrite length_alter.
  - intros j q Hj Hq. rewrite list_lookup_alter in Hq.
    destruct (decide (i = j)) as [<-|Hne]; [|by eapply Hbelow].
    destruct (SSSP.m_buckets wl !! i) as [q0|] eqn:Hq0; [|done].
    injection Hq as <-. by rewrite (Hbelow i q0 Hj Hq0).
  - by rewrite length_alter.
  - intros it Hit. apply Hlast. destruct (SSSP.m_lastBucket wl); [done | by right].
Qed.

Definition DInv (d : NodeData) : Prop := forall v, (getData d v <= B)%Z.

Lemma relax_inv item d wl e :
  WLInv wl -> DInv d -> item_ok item ->
  (Z.of_nat (SSSP.m_minBucket wl) <= idx item)%Z ->
  let st := SSSP.relax pushWrap (SSSP.push shift) g item (d, wl) e in
  WLInv st.2 /\ DInv st.1 /\ SSSP.m_minBucket st.2 = SSSP.m_minBucket wl.
Proof.
  intros Hinv Hd Hok Hge. unfold SSSP.relax. cbn [fst snd].
  destruct (Hweights e) as [Hw0 HwB]. destruct Hok as [Hi0 HiB].
  assert (Hwrap : wrap (SSSP.dist item + getEdgeData g e)
                  = (SSSP.dist item + getEdgeData g e)%Z).
  { unfold wrap. apply Z.mod_small. lia. }
  rewrite Hwrap.
  set (newDist := (SSSP.dist item + getEdgeData g e)%Z) in *.
  destruct (Z.ltb_spec newDist (getData d (getEdgeDst g e))) as [Hlt|Hnot];
    cbn [fst snd]; [|done].
  pose proof (Hd (getEdgeDst g e)) as Hdst.
  destruct (wl_push_fold_inv (pushWrap (getEdgeDst g e) newDist) wl Hinv)
    as [Hinv' Hmin'].
  - apply List.Forall_forall. intros it Hit. apply HpushWrap in Hit.
    unfold item_ok. rewrite Hit. unfold newDist. lia.
  - apply List.Forall_forall. intros it Hit. apply HpushWrap in Hit.
    etrans; [exact Hge|]. apply idx_mono. rewrite Hit. unfold newDist. lia.
  - split; [exact Hinv'|]. split; [|exact Hmin'].
    intros v. rewrite getData_setData.
    destruct (decide _); [lia | apply Hd].
Qed.

Lemma relax_fold_inv item es :
  forall d wl,
  WLInv wl -> DInv d -> item_ok item ->
  (Z.of_nat (SSSP.m_minBucket wl) <= idx item)%Z ->
  let st := fold_left (SSSP.relax pushWrap (SSSP.push shift) g item) es (d, wl) in
  WLInv st.2 /\ DInv st.1 /\ SSSP.m_minBucket st.2 = SSSP.m_minBucket wl.
Proof.
  induction es as [|e es IH]; intros d wl Hinv Hd Hok Hge; cbn [fold_left].
  - done.
  - destruct (relax_inv item d wl e Hinv Hd Hok Hge) as (Hinv1 & Hd1 & Hmin1).
    destruct (SSSP.relax pushWrap (SSSP.push shift) g item (d, wl) e) as [d1 wl1].
    cbn [fst snd] in *.
    destruct (IH d1 wl1 Hinv1 Hd1 Hok) as (Hinv2 & Hd2 & Hmin2);
      [by rewrite Hmin1|].
    split; [done|]. split; [done | congruence].
Qed.

(** The reference that [minBucket] returned stays good while the bucket
    is drained. *)
Definition curr_ok (wl : SSSP.SerialBucketWL T) (curr : SSSP.BucketRef) : Prop :=
  curr = SSSP.LastBucket \/ curr = SSSP.InBuckets (SSSP.m_minBucket wl).

Lemma curr_item wl curr item rest :
  WLInv wl -> curr_ok wl curr -> SSSP.bucket wl curr = item :: rest ->
  item_ok item /\ (Z.of_nat (SSSP.m_minBucket wl) <= idx item)%Z.
Proof.
  intros Hinv [->| ->] Hb; cbn [SSSP.bucket] in Hb.
  - destruct (w_last wl Hinv item) as [Hge Hok]; [rewrite Hb; by left|].
    split; [done|]. pose proof (w_size wl Hinv). pose proof (w_min wl Hinv). lia.
  - destruct (SSSP.m_buckets wl !! SSSP.m_minBucket wl) as [q|] eqn:Hq;
      [|done]. cbn in Hb. subst q.
    destruct (w_idx wl Hinv _ _ item Hq (or_introl eq_refl)) as [Hi Hok].
    split; [done | lia].
Qed.

Lemma drainBucket_inv curr fuel :
  forall st,
  WLInv st.2 -> DInv st.1 -> curr_ok st.2 curr ->
  match SSSP.drainBucket pushWrap edgeRange shift fuel g curr st with
  | Some st' => WLInv st'.2 /\ DInv st'.1
  | None => True
  end.
Proof.
  induction fuel as [|fuel IH]; intros [d wl] Hinv Hd Hcurr;
    cbn [SSSP.drainBucket fst snd] in *.
  - by destruct (SSSP.bucket wl curr).
  - destruct (SSSP.bucket wl curr) as [|item rest] eqn:Hb; [done|].
    destruct (curr_item wl curr item rest Hinv Hcurr Hb) as [Hok Hge].
    destruct (bucket_pop_front_inv wl curr Hinv) as [Hinv1 Hmin1].
    assert (Hcurr1 : curr_ok (SSSP.bucket_pop_front wl curr) curr).
    { unfold curr_ok. by rewrite Hmin1. }
    destruct (getData d (SSSP.src item) <? SSSP.dist item)%Z.
    + by apply (IH (d, _)).
    + destruct (relax_fold_inv item (edgeRange item) d
                  (SSSP.bucket_pop_front wl curr) Hinv1 Hd Hok)
        as (Hinv2 & Hd2 & Hmin2); [by rewrite Hmin1|].
      apply IH; [done | done |].
      unfold curr_ok. rewrite Hmin2, Hmin1. exact Hcurr.
Qed.

Lemma wl_minBucket_ok wl : curr_ok wl (SSSP.wl_minBucket wl).
Proof.
  unfold curr_ok, SSSP.wl_minBucket.
  destruct (_ <? _); [by right | by left].
Qed.

Lemma wl_goToNextBucket_inv wl : WLInv wl -> WLInv (SSSP.wl_goToNextBucket wl).
Proof.
  intros [Hidx Hlast Hsize Hbelow Hmin].
  destruct (skipEmpty_spec (drop (SSSP.m_minBucket wl) (SSSP.m_buckets wl)))
    as [Hlen Hskip].
  rewrite length_drop in Hlen.
  split; cbn; try done.
  - intros i q Hi Hq.
    destruct (Nat.lt_ge_cases i (SSSP.m_minBucket wl)) as [Hlo|Hhi];
      [by eapply Hbelow|].
    apply (Hskip (i - SSSP.m_minBucket wl)); [lia|].
    rewrite lookup_drop. by replace (SSSP.m_minBucket wl + (i - SSSP.m_minBucket wl))
      with i by lia.
  - lia.
Qed.

Lemma serDeltaLoop_inv fuel :
  forall st,
  WLInv st.2 -> DInv st.1 ->
  match SSSP.serDeltaLoop pushWrap edgeRange shift fuel g st with
  | Some st' => WLInv st'.2 /\ SSSP.wl_empty st'.2 = true
  | None => True
  end.
Proof.
  induction fuel as [|fuel IH]; intros st Hinv Hd; cbn [SSSP.serDeltaLoop].
  - by destruct (SSSP.wl_empty st.2) eqn:He.
  - destruct (SSSP.wl_empty st.2) eqn:He; [done|].
    pose proof (drainBucket_inv (SSSP.wl_minBucket st.2) fuel st Hinv Hd
                  (wl_minBucket_ok st.2)) as Hdrain.
    destruct (SSSP.drainBucket _ _ _ _ _ _ _) as [st1|]; [|done].
    destruct Hdrain as [Hinv1 Hd1].
    apply (IH (st1.1, _)); [by apply wl_goToNextBucket_inv | done].
Qed.

(** When the loop is left, all buckets are empty. *)
Lemma wl_empty_allEmpty wl :
  WLInv wl -> SSSP.wl_empty wl = true -> SSSP.wl_allEmpty wl = true.
Proof.
  intros Hinv He. unfold SSSP.wl_empty, SSSP.wl_allEmpty, SSSP.emptyImpl in *.
  apply andb_prop in He as [Hb Hl]. rewrite Hl, andb_true_r.
  rewrite drop_0. rewrite forallb_forall in *. intros q Hq.
  apply list_elem_of_In, list_elem_of_lookup in Hq as [i Hi].
  destruct (Nat.lt_ge_cases i (SSSP.m_minBucket wl)) as [Hlo|Hhi].
  - by rewrite (w_below wl Hinv i q Hlo Hi).
  - apply Hb. apply list_elem_of_In, list_elem_of_lookup.
    exists (i - SSSP.m_minBucket wl). rewrite lookup_drop.
    by replace (SSSP.m_minBucket wl + (i - SSSP.m_minBucket wl)) with i by lia.
Qed.

Lemma serDeltaAlgo_no_abort fuel source d :
  (0 <= B)%Z -> DInv d ->
  SSSP.serDeltaAlgo pushWrap edgeRange shift fuel g source d <> SSSP.Aborted.
Proof.
  intros HB Hd. unfold SSSP.serDeltaAlgo.
  destruct (wl_push_fold_inv (pushWrap source 0%Z) SSSP.wl_new wl_new_inv)
    as [Hinv0 _].
  - apply List.Forall_forall. intros it Hit. apply HpushWrap in Hit.
    unfold item_ok. rewrite Hit. lia.
  - apply List.Forall_forall. intros it Hit. apply HpushWrap in Hit.
    cbn. apply idx_nonneg. unfold item_ok. rewrite Hit. lia.
  - match goal with
    | |- context [SSSP.serDeltaLoop _ _ _ _ _ ?st0] =>
        pose proof (serDeltaLoop_inv fuel st0 Hinv0) as Hloop
    end.
    destruct (SSSP.serDeltaLoop _ _ _ _ _ _) as [st|]; [|done].
    destruct Hloop as [Hinv He].
    { intros v. cbn [fst]. rewrite getData_setData.
      destruct (decide _); [lia | apply Hd]. }
    by rewrite (wl_empty_allEmpty _ Hinv He).
Qed.

End SerDeltaSafe.

Lemma ReqPushWrap_dist n x item :
  In item (SSSP.ReqPushWrap n x) -> SSSP.dist item = x.
Proof. by intros [<-|[]]. Qed.

Lemma initData_le INF g source v :
  (0 <= INF)%Z -> (getData (initData INF g source) v <= INF)%Z.
Proof.
  intros HINF. unfold initData. rewrite getData_setData.
  destruct (decide _); [done|].
  unfold getData. destruct (replicate (graph_size g) INF !! v) as [x|] eqn:Hx.
  - apply lookup_replicate in Hx as [-> _]. simpl. lia.
  - done.
Qed.

(** C8, as it holds: when no relaxation can wrap around, that is when
    [DIST_INFINITY + w] fits into 32 bits for every edge weight [w], every
    item pushed while a bucket is drained has at least the priority of
    that bucket, all buckets are empty when the loop of [serDeltaAlgo] is
    left, and the [std::abort()] behind [!wl.allEmpty()] is not reached. *)
Theorem serDeltaAlgo_abort_unreachable INF g source stepShift fuel :
  (0 <= INF < 2 ^ 32)%Z -> weights_bounded INF g = true ->
  SSSP.serDeltaAlgo SSSP.ReqPushWrap (SSSP.OutEdgeRangeFn g) stepShift fuel
    g source (initData INF g source) <> SSSP.Aborted.
Proof.
  intros HINF Hw.
  apply (serDeltaAlgo_no_abort _ _ stepShift INF g).
  - intros e. by apply weights_bounded_edge.
  - apply ReqPushWrap_dist.
  - lia.
  - intros v. apply initData_le. lia.
Qed.

(** On the graph of scenario E2 with the shift 0 the priority of an item
    is its distance: the run files items under the priorities 0, 10, 1, 2
    and 3, the last three while a bucket below them is drained, and ends
    with the distances 0, 2, 1 and 3. *)
Lemma serDeltaAlgo_abort_unreachable_witness :
  SSSP.serDeltaAlgo SSSP.ReqPushWrap (SSSP.OutEdgeRangeFn SSSP.graphE2) 0 10
    SSSP.graphE2 0 (initData 2147483646 SSSP.graphE2 0)
  = SSSP.Finished [0; 2; 1; 3]%Z /\
  SSSP.serDeltaAlgo SSSP.ReqPushWrap (SSSP.OutEdgeRangeFn SSSP.graphE2) 0 10
    SSSP.graphE2 0 (initData 2147483646 SSSP.graphE2 0) <> SSSP.Aborted.
Proof.
  split; [by vm_compute|].
  apply serDeltaAlgo_abort_unreachable; [split; by vm_compute | reflexivity].
Defined.

(** C8, as it is stated, fails: on the path 0 -> 1 -> 2 with the weights
    8192 and 2^32 - 8192 and the default shift 13, the relaxation of the
    second edge wraps around to 0 and files node 2 under priority 0 while
    bucket 1 is drained; the loop is left with bucket 0 filled and
    [serDeltaAlgo] aborts. *)
Lemma serDeltaAlgo_abort_reached :
  SSSP.serDeltaAlgo SSSP.ReqPushWrap (SSSP.OutEdgeRangeFn SSSP.graphWrap) 13 10
    SSSP.graphWrap 0 (initData 2147483646 SSSP.graphWrap 0) = SSSP.Aborted.
Proof. vm_compute. reflexivity. Qed.

(** ** Bulk-synchronous BFS: the claims *)

Lemma pushEdgeTilesParallel_nil numT g v :
  getDegree g v = 0 -> BFS.pushEdgeTilesParallel numT [] g v = [].
Proof.
  unfold BFS.pushEdgeTilesParallel, getDegree. intros ->.
  destruct (Nat.ltb_spec BFS.EDGE_TILE_SIZE 0); [lia|].
  by destruct (Nat.ltb_spec 0 0); [lia|].
Qed.

Lemma edgeTiles_nonempty fuel b e :
  b < e -> BFS.edgeTiles (S fuel) b e <> [].
Proof.
  intros Hlt. cbn [BFS.edgeTiles].
  destruct (_ <? _); [done|].
  by destruct (Nat.ltb_spec b e); [|lia].
Qed.

Lemma pushEdgeTilesParallel_nonempty numT g v :
  0 < numT -> 0 < getDegree g v -> BFS.pushEdgeTilesParallel numT [] g v <> [].
Proof.
  unfold BFS.pushEdgeTilesParallel, getDegree. intros HT Hdeg.
  set (b := edge_begin g v) in *. set (e := edge_end g v) in *.
  destruct (Nat.ltb_spec BFS.EDGE_TILE_SIZE (e - b)) as [Hlong|Hshort].
  - destruct numT as [|numT]; [lia|].
    cbn [seq flat_map app]. intros Heq. apply app_eq_nil in Heq as [Heq _].
    revert Heq. apply edgeTiles_nonempty.
    unfold BFS.block_range. cbn [fst snd].
    rewrite Nat.mul_0_r, Nat.min_0_l, Nat.mul_1_r. lia.
  - destruct (Nat.ltb_spec 0 (e - b)); [done | lia].
Qed.

Lemma syncLoop_no_assert INF sched fuel g :
  forall d curr next L r log,
  BFS.syncLoop INF sched fuel g d curr next L r log <> BFS.AssertionFailed.
Proof.
  induction fuel as [|fuel IH]; intros d curr next L r log;
    cbn [BFS.syncLoop]; destruct next as [|t next]; try done.
  destruct (BFS.do_all _ _ _ _ _ _ _) as [[d' next'] log']. apply IH.
Qed.

(** C9: [syncAlgo] asserts that the bag is not empty after seeding; for a
    source without out-edges the seeding pushes no tile and the assertion
    fails (and with an out-edge and a worker it holds), whereas
    [serialAlgo] returns on such a source, the source at distance 0. *)
Theorem syncAlgo_needs_out_edge INF sched numT fuel g source d :
  (getDegree g source = 0 ->
     BFS.syncAlgo INF sched numT fuel g source d = BFS.AssertionFailed /\
     BFS.serialAlgo INF (S fuel) g source d = Some (setData d source 0%Z)) /\
  (0 < getDegree g source -> 0 < numT ->
     BFS.syncAlgo INF sched numT fuel g source d <> BFS.AssertionFailed).
Proof.
  split.
  - intros Hdeg. split.
    + unfold BFS.syncAlgo. by rewrite pushEdgeTilesParallel_nil.
    + unfold BFS.serialAlgo. cbn [BFS.serialLoop BFS.req_n].
      unfold edges, edge_range. unfold getDegree in Hdeg. rewrite Hdeg.
      cbn [seq fold_left fst snd]. by destruct fuel.
  - intros Hdeg HT. unfold BFS.syncAlgo.
    pose proof (pushEdgeTilesParallel_nonempty numT g source HT Hdeg) as Hne.
    destruct (BFS.pushEdgeTilesParallel numT [] g source); [done|].
    apply syncLoop_no_assert.
Qed.

Lemma syncAlgo_needs_out_edge_witness :
  BFS.syncAlgo 2147483646 BFS.in_order 4 10 BFS.chain10 9
    (initData 2147483646 BFS.chain10 9) = BFS.AssertionFailed /\
  BFS.serialAlgo 2147483646 11 BFS.chain10 9
    (initData 2147483646 BFS.chain10 9)
  = Some (setData (initData 2147483646 BFS.chain10 9) 9 0%Z).
Proof.
  apply (proj1 (syncAlgo_needs_out_edge 2147483646 BFS.in_order 4 10
                  BFS.chain10 9 (initData 2147483646 BFS.chain10 9))).
  reflexivity.
Defined.

(** *** Rounds *)

Lemma procs_of_app r l1 l2 :
  BFS.procs_of r (l1 ++ l2) = BFS.procs_of r l1 ++ BFS.procs_of r l2.
Proof. apply flat_map_app. Qed.

Lemma pushes_of_app r l1 l2 :
  BFS.pushes_of r (l1 ++ l2) = BFS.pushes_of r l1 ++ BFS.pushes_of r l2.
Proof. apply flat_map_app. Qed.

Lemma procs_of_pushes r r' ts : BFS.procs_of r (map (BFS.EvPush r') ts) = [].
Proof. by induction ts. Qed.

Lemma pushes_of_pushes r ts : BFS.pushes_of r (map (BFS.EvPush r) ts) = ts.
Proof.
  induction ts as [|t ts IH]; [done|]. cbn. rewrite Nat.eqb_refl. cbn.
  f_equal. exact IH.
Qed.

Lemma other_round r r' evs :
  Forall (fun ev => BFS.ev_round ev = r) evs -> r' <> r ->
  BFS.procs_of r' evs = [] /\ BFS.pushes_of r' evs = [].
Proof.
  intros Hall Hne. induction Hall as [|ev evs Hev _ [IH1 IH2]]; [done|].
  unfold BFS.procs_of, BFS.pushes_of in *. cbn [flat_map].
  rewrite IH1, IH2.
  destruct ev as [r0 t|r0 t]; cbn in Hev; subst r0;
    destruct (Nat.eqb_spec r r'); try congruence; done.
Qed.

Lemma same_round_sorted r evs :
  Forall (fun ev => BFS.ev_round ev = r) evs ->
  StronglySorted (fun a b => BFS.ev_round a <= BFS.ev_round b) evs.
Proof.
  induction 1 as [|ev evs Hev Hall IH]; constructor; [done|].
  eapply List.Forall_impl; [|exact Hall]. intros ev' Hev'. cbn in *. lia.
Qed.

Section Rounds.

Variable INF : Z.
Variable g : Graph.

(** What one round adds to the log: events of this round only, the
    processed tiles being the tiles of the round and the pushed tiles the
    new content of [next]. *)
Definition round_adds (r : nat) (tiles : list BFS.EdgeTile)
    (st st' : BFS.LState) : Prop :=
  exists evs,
    st'.2 = st.2 ++ evs /\
    Forall (fun ev => BFS.ev_round ev = r) evs /\
    BFS.procs_of r evs = tiles /\
    st'.1.2 = st.1.2 ++ BFS.pushes_of r evs.

Lemma syncRelaxL_adds L r st e :
  round_adds r [] st (BFS.syncRelaxL INF g L r st e).
Proof.
  destruct st as [[d next] log]. unfold BFS.syncRelaxL.
  destruct (getData d (getEdgeDst g e) =? INF)%Z.
  - exists (map (BFS.EvPush r) (BFS.pushEdgeTiles [] g (getEdgeDst g e))).
    cbn [fst snd]. split; [done|]. split; [|split].
    + apply List.Forall_forall. by intros ev (t & <- & _)%in_map_iff.
    + apply procs_of_pushes.
    + by rewrite pushes_of_pushes.
  - exists []. cbn. by rewrite !app_nil_r.
Qed.

Lemma round_adds_trans r ts1 ts2 st1 st2 st3 :
  round_adds r ts1 st1 st2 -> round_adds r ts2 st2 st3 ->
  round_adds r (ts1 ++ ts2) st1 st3.
Proof.
  intros (evs1 & Hl1 & Ha1 & Hp1 & Hn1) (evs2 & Hl2 & Ha2 & Hp2 & Hn2).
  exists (evs1 ++ evs2). split; [by rewrite Hl2, Hl1, app_assoc|].
  split; [by apply Forall_app|]. split.
  - by rewrite procs_of_app, Hp1, Hp2.
  - by rewrite Hn2, Hn1, pushes_of_app, app_assoc.
Qed.

Lemma syncRelaxL_fold_adds L r es :
  forall st,
  round_adds r [] st (fold_left (BFS.syncRelaxL INF g L r) es st).
Proof.
  induction es as [|e es IH]; intros st; cbn [fold_left].
  - exists []. cbn. by rewrite !app_nil_r.
  - apply (round_adds_trans r [] [] st _ _ (syncRelaxL_adds L r st e)), IH.
Qed.

Lemma processTileL_adds L r st t :
  round_adds r [t] st (BFS.processTileL INF g L r st t).
Proof.
  destruct st as [[d next] log]. unfold BFS.processTileL.
  apply (round_adds_trans r [t] [] _ (d, next, log ++ [BFS.EvProc r t])).
  - exists [BFS.EvProc r t]. cbn. rewrite Nat.eqb_refl.
    split; [done|]. split; [by repeat constructor|].
    by rewrite !app_nil_r.
  - apply syncRelaxL_fold_adds.
Qed.

Lemma processTileL_fold_adds L r tiles :
  forall st,
  round_adds r tiles st (fold_left (BFS.processTileL INF g L r) tiles st).
Proof.
  induction tiles as [|t tiles IH]; intros st; cbn [fold_left].
  - exists []. cbn. by rewrite !app_nil_r.
  - apply (round_adds_trans r [t] tiles st _ _ (processTileL_adds L r st t)), IH.
Qed.

Variable sched : list BFS.EdgeTile -> list BFS.EdgeTile.
Variable Rel : relation (list BFS.EdgeTile).
Hypothesis Hsched : forall l, Rel (sched l) l.
Hypothesis Hnil : Rel [] [].

(** The invariant at the head of the loop, in round [r]. *)
Record LInv (r : nat) (next : list BFS.EdgeTile) (log : list BFS.Event)
    : Prop := {
  l_sorted : StronglySorted (fun a b => BFS.ev_round a <= BFS.ev_round b) log;
  l_le : Forall (fun ev => BFS.ev_round ev <= r) log;
  l_next : BFS.pushes_of r log = next;
  l_zero : BFS.procs_of 0 log = [];
  l_prev : forall N, N < r -> Rel (BFS.procs_of (S N) log) (BFS.pushes_of N log)
}.

Lemma later_round r r' log :
  Forall (fun ev => BFS.ev_round ev <= r) log -> r < r' ->
  BFS.procs_of r' log = [] /\ BFS.pushes_of r' log = [].
Proof.
  intros Hall Hlt. induction Hall as [|ev evs Hev _ [IH1 IH2]]; [done|].
  unfold BFS.procs_of, BFS.pushes_of in *. cbn [flat_map].
  rewrite IH1, IH2.
  destruct ev as [r0 t|r0 t]; cbn in Hev;
    destruct (Nat.eqb_spec r0 r'); try lia; done.
Qed.

Lemma LInv_final r log : LInv r [] log -> Separated Rel log.
Proof.
  intros [Hsorted Hle Hnext Hzero Hprev]. split; [done|]. split; [done|].
  intros N. destruct (Nat.lt_ge_cases N r) as [Hlt|Hge]; [by apply Hprev|].
  destruct (later_round r (S N) log Hle ltac:(lia)) as [-> _].
  destruct (Nat.eq_dec N r) as [->|Hne]; [by rewrite Hnext|].
  by destruct (later_round r N log Hle ltac:(lia)) as [_ ->].
Qed.

Lemma LInv_round r next log st' :
  LInv r next log ->
  round_adds (S r) (sched next) (st'.1.1, [], log) st' ->
  LInv (S r) st'.1.2 st'.2.
Proof.
  intros [Hsorted Hle Hnext Hzero Hprev] (evs & Hlog & Hall & Hprocs & Hnew).
  cbn [fst snd] in *. rewrite Hlog, Hnew.
  destruct (later_round r (S r) log Hle ltac:(lia)) as [Hp Hq].
  split.
  - apply StronglySorted_app_2; [|done|by eapply same_round_sorted].
    intros ev1 ev2 H1%list_elem_of_In H2%list_elem_of_In.
    rewrite List.Forall_forall in Hle, Hall.
    specialize (Hle ev1 H1). specialize (Hall ev2 H2). lia.
  - apply Forall_app. split.
    + eapply List.Forall_impl; [|exact Hle]. intros ev Hev. cbn in *. lia.
    + eapply List.Forall_impl; [|exact Hall]. intros ev Hev. cbn in *. lia.
  - by rewrite pushes_of_app, Hq.
  - rewrite procs_of_app, Hzero.
    by destruct (other_round (S r) 0 evs Hall ltac:(lia)) as [-> _].
  - intros N HN. rewrite procs_of_app, pushes_of_app.
    destruct (other_round (S r) N evs Hall ltac:(lia)) as [_ ->].
    rewrite app_nil_r.
    destruct (Nat.eq_dec N r) as [->|Hne].
    + rewrite Hp, Hprocs, Hnext. cbn. apply Hsched.
    + destruct (other_round (S r) (S N) evs Hall ltac:(lia)) as [-> _].
      rewrite app_nil_r. apply Hprev. lia.
Qed.

Lemma syncLoop_separated fuel :
  forall d curr next L r log,
  LInv r next log ->
  match BFS.syncLoop INF sched fuel g d curr next L r log with
  | BFS.Finished (_, log') => Separated Rel log'
  | _ => True
  end.
Proof.
  induction fuel as [|fuel IH]; intros d curr next L r log Hinv;
    cbn [BFS.syncLoop]; destruct next as [|t next]; try done;
    try by eapply LInv_final.
  unfold BFS.do_all.
  pose proof (processTileL_fold_adds (wrap (L + 1)) (S r) (sched (t :: next))
                (d, [], log)) as Hadds.
  destruct (fold_left _ _ _) as [[d' next'] log'].
  apply IH. by apply (LInv_round r (t :: next) log (d', next', log')).
Qed.

Lemma LInv_seed tiles : LInv 0 tiles (map (BFS.EvPush 0) tiles).
Proof.
  assert (Hall : Forall (fun ev => BFS.ev_round ev = 0) (map (BFS.EvPush 0) tiles)).
  { apply List.Forall_forall. by intros ev (t & <- & _)%in_map_iff. }
  split.
  - by eapply same_round_sorted.
  - eapply List.Forall_impl; [|exact Hall]. intros ev Hev. cbn in *. lia.
  - apply pushes_of_pushes.
  - apply procs_of_pushes.
  - intros N HN. lia.
Qed.

Lemma syncAlgo_separated numT fuel source d :
  match BFS.syncAlgo INF sched numT fuel g source d with
  | BFS.Finished (_, log) => Separated Rel log
  | _ => True
  end.
Proof.
  unfold BFS.syncAlgo.
  destruct (BFS.pushEdgeTilesParallel numT [] g source) as [|t ts] eqn:Hseed;
    [done|].
  apply syncLoop_separated, LInv_seed.
Qed.

End Rounds.

(** The serial loop is the loop of [syncAlgo] under the schedule that
    keeps the order of the vector. *)
Lemma serialSyncLoopL_in_order INF g fuel :
  forall d curr next L r log,
  BFS.serialSyncLoopL INF fuel g d curr next L r log
  = match BFS.syncLoop INF BFS.in_order fuel g d curr next L r log with
    | BFS.Finished x => Some x
    | _ => None
    end.
Proof.
  induction fuel as [|fuel IH]; intros d curr next L r log;
    cbn [BFS.serialSyncLoopL BFS.syncLoop]; destruct next as [|t next];
    try done.
  unfold BFS.do_all, BFS.in_order.
  destruct (fold_left _ _ _) as [[d' next'] log']. apply IH.
Qed.

(** Without the log the run is [serialSyncAlgo]. *)
Lemma syncRelaxL_erase INF g L r st e :
  (BFS.syncRelaxL INF g L r st e).1 = BFS.syncRelax INF g L st.1 e.
Proof.
  destruct st as [[d next] log]. unfold BFS.syncRelaxL, BFS.syncRelax.
  cbn [fst snd]. by destruct (_ =? _)%Z.
Qed.

Lemma processTileL_fold_erase INF g L r tiles :
  forall st,
  (fold_left (BFS.processTileL INF g L r) tiles st).1
  = fold_left (BFS.processTile INF g L) tiles st.1.
Proof.
  assert (Hes : forall es st,
            (fold_left (BFS.syncRelaxL INF g L r) es st).1
            = fold_left (BFS.syncRelax INF g L) es st.1).
  { induction es as [|e es IH]; intros st; cbn [fold_left]; [done|].
    by rewrite IH, syncRelaxL_erase. }
  induction tiles as [|t tiles IH]; intros st; cbn [fold_left]; [done|].
  rewrite IH. f_equal. destruct st as [[d next] log].
  unfold BFS.processTileL, BFS.processTile. by rewrite Hes.
Qed.

Lemma serialSyncLoopL_erase INF g fuel :
  forall d curr next L r log,
  fst <$> BFS.serialSyncLoopL INF fuel g d curr next L r log
  = BFS.serialSyncLoop INF fuel g d curr next L.
Proof.
  induction fuel as [|fuel IH]; intros d curr next L r log;
    cbn [BFS.serialSyncLoopL BFS.serialSyncLoop]; destruct next as [|t next];
    try done.
  pose proof (processTileL_fold_erase INF g (wrap (L + 1)) (S r) (t :: next)
                (d, [], log)) as He.
  destruct (fold_left (BFS.processTileL _ _ _ _) _ _) as [[d' next'] log'].
  cbn [fst] in He. rewrite <- He. apply IH.
Qed.

(** C5: in [serialSyncAlgo] and in [syncAlgo] (under any scheduler that
    only rearranges the bag) the events of a finished run come round by
    round, nothing is processed before round 1, and the tiles processed
    in round [N + 1] are the tiles pushed in round [N]: a tile pushed to
    [next] while [curr] is drained is processed in the next round and not
    before, after all tiles of the current round. The logged run of
    [serialSyncAlgo] computes the distances of the plain one. *)
Theorem bulk_synchronous_rounds :
  (forall INF fuel g source d,
     match BFS.serialSyncAlgoL INF fuel g source d with
     | Some (_, log) => Separated eq log
     | None => True
     end) /\
  (forall INF sched numT fuel g source d,
     (forall l, Permutation (sched l) l) ->
     match BFS.syncAlgo INF sched numT fuel g source d with
     | BFS.Finished (_, log) => Separated (@Permutation BFS.EdgeTile) log
     | _ => True
     end) /\
  (forall INF fuel g source d,
     fst <$> BFS.serialSyncAlgoL INF fuel g source d
     = BFS.serialSyncAlgo INF fuel g source d).
Proof.
  split; [|split].
  - intros INF fuel g source d. unfold BFS.serialSyncAlgoL.
    rewrite serialSyncLoopL_in_order.
    match goal with
    | |- context [BFS.syncLoop _ _ _ _ ?d0 _ ?next _ _ ?log] =>
        pose proof (syncLoop_separated INF g BFS.in_order eq
                      (fun l => eq_refl) eq_refl fuel d0 [] next 0%Z 0 log
                      (LInv_seed eq next)) as Hsep;
        destruct (BFS.syncLoop INF BFS.in_order fuel g d0 [] next 0%Z 0 log)
          as [[d' log']| |]; done
    end.
  - intros INF sched numT fuel g source d Hperm.
    apply syncAlgo_separated; [exact Hperm | done].
  - intros INF fuel g source d. apply serialSyncLoopL_erase.
Qed.

(** ** The choice of the source: the claims *)

Section SourceSelection.

Variable rng : nat -> Z.
Variable trial : Graph -> GNode -> bool.
Variable g : Graph.
Hypothesis Hsize : (Z.of_nat (graph_size g) < 2 ^ 32)%Z.

#[local] Abbreviation udist := (Main.newUniDist (Z.of_nat (graph_size g) - 1)).

Lemma wrap_small x : (0 <= x < 2 ^ 32)%Z -> wrap x = x.
Proof. intros Hx. unfold wrap. by apply Z.mod_small. Qed.

Lemma wrap_range x : (0 <= wrap x < 2 ^ 32)%Z.
Proof. unfold wrap. apply Z.mod_pos_bound. lia. Qed.

Lemma udist_fields :
  Main.no_mod_ udist = false /\ Main.mod_ udist = Z.of_nat (graph_size g).
Proof.
  unfold Main.newUniDist. cbn [Main.no_mod_ Main.mod_]. split.
  - apply Z.eqb_neq. pose proof (wrap_range (Z.of_nat (graph_size g) - 1)).
    unfold Main.rng_max. lia.
  - rewrite <- (wrap_small (Z.of_nat (graph_size g))) at 2 by lia.
    f_equal. lia.
Qed.

(** A draw is a node of the graph. *)
Lemma draw_in_range fuel i s i' :
  0 < graph_size g ->
  Main.draw rng fuel udist i = Some (s, i') -> Z.to_nat s < graph_size g.
Proof.
  intros Hpos. unfold Main.draw. destruct udist_fields as [-> ->].
  intros Hdraw.
  assert (Hs : exists x, s = (x mod Z.of_nat (graph_size g))%Z).
  { destruct (if (Main.cutoff_ udist =? 0)%Z then _ else _) as [[x j]|];
      [|done]. injection Hdraw as <- _. by exists x. }
  destruct Hs as [x ->].
  pose proof (Z.mod_pos_bound x (Z.of_nat (graph_size g)) ltac:(lia)). lia.
Qed.

(** The loop only ends on a node that has out-edges. *)
Lemma selectSource_degree fuel :
  forall i s i',
  Main.selectSource rng fuel g udist i = Some (s, i') ->
  0 < getDegree g s /\ (0 < graph_size g -> s < graph_size g).
Proof.
  induction fuel as [|fuel IH]; intros i s i' Hsel; [done|].
  cbn [Main.selectSource] in Hsel.
  destruct (Main.draw rng fuel udist i) as [[x j]|] eqn:Hdraw; [|done].
  destruct (Nat.eqb_spec (getDegree g (Z.to_nat x)) 0) as [Hz|Hnz].
  - by apply (IH j s i').
  - injection Hsel as <- <-. split; [lia|]. intros Hpos.
    exact (draw_in_range fuel i x j Hpos Hdraw).
Qed.

Hypothesis Hisolated : forall v, v < graph_size g -> getDegree g v = 0.

Lemma selectSource_never fuel :
  0 < graph_size g -> forall i, Main.selectSource rng fuel g udist i = None.
Proof.
  intros Hpos. induction fuel as [|fuel IH]; intros i; [done|].
  cbn [Main.selectSource].
  destruct (Main.draw rng fuel udist i) as [[x j]|] eqn:Hdraw; [|done].
  rewrite (Hisolated (Z.to_nat x)); [apply IH|].
  exact (draw_in_range fuel i x j Hpos Hdraw).
Qed.

Lemma main_never_returns fuel startNode sources rounds code :
  0 < sources ->
  Main.main rng trial fuel g startNode sources rounds <> Main.Returned code.
Proof.
  intros Hsrc. unfold Main.main.
  destruct (Nat.leb_spec (graph_size g) startNode) as [Hle|Hlt]; [done|].
  destruct sources as [|sources]; [lia|]. cbn [Main.sourcesLoop].
  by rewrite selectSource_never by lia.
Qed.

End SourceSelection.

(** C10, as it holds: the selection loop only ends on a node with
    out-edges; on a graph whose nodes all have degree 0 it never ends,
    and [main] never returns as soon as one source is asked for. *)
Theorem source_selection rng trial fuel g startNode sources rounds :
  (Z.of_nat (graph_size g) < 2 ^ 32)%Z ->
  (forall i s i',
     Main.selectSource rng fuel g
       (Main.newUniDist (Z.of_nat (graph_size g) - 1)) i = Some (s, i') ->
     0 < getDegree g s /\ (0 < graph_size g -> s < graph_size g)) /\
  ((forall v, v < graph_size g -> getDegree g v = 0) ->
     (0 < graph_size g ->
      forall i, Main.selectSource rng fuel g
                  (Main.newUniDist (Z.of_nat (graph_size g) - 1)) i = None) /\
     (0 < sources ->
      forall code,
        Main.main rng trial fuel g startNode sources rounds
        <> Main.Returned code)).
Proof.
  intros Hsize. split; [by apply selectSource_degree|].
  intros Hiso. split.
  - intros Hpos. by apply selectSource_never.
  - intros Hsrc code. by apply main_never_returns.
Qed.

Lemma source_selection_witness :
  Main.main (fun _ => 0%Z) (fun _ _ => true) 5 Main.lonely 0 1 22
  <> Main.Returned 0.
Proof.
  assert (Hsize : (Z.of_nat (graph_size Main.lonely) < 2 ^ 32)%Z)
    by by vm_compute.
  assert (Hiso : forall v, v < graph_size Main.lonely ->
                           getDegree Main.lonely v = 0).
  { intros v Hv. destruct v as [|v]; [reflexivity|]. vm_compute in Hv. lia. }
  apply (proj2 (proj2 (source_selection (fun _ => 0%Z) (fun _ _ => true) 5
                         Main.lonely 0 1 22 Hsize) Hiso)).
  lia.
Defined.

(** C10, as it is stated, fails: with [-sources 0] the selection loop is
    never entered, and [main] returns 0 on a graph without any edge. *)
Lemma main_returns_without_sources :
  Main.main (fun _ => 0%Z) (fun _ _ => true) 5 Main.lonely 0 0 22
  = Main.Returned 0.
Proof. reflexivity. Qed.

(** * Further properties of the code *)

(** ** [syncAlgo]: every schedule gives the levels *)

Lemma block_range_spec b e tid numT :
  let p := BFS.block_range b e tid numT in
  b <= p.1 /\ p.1 <= p.2 /\ p.2 <= b + (e - b).
Proof.
  unfold BFS.block_range. cbn [fst snd].
  set (numper := Nat.max _ 1).
  assert (numper * tid <= numper * (tid + 1)) by nia.
  lia.
Qed.

Lemma block_range_cover b e numT i :
  0 < numT -> b <= i < e ->
  exists tid, tid < numT /\
    let p := BFS.block_range b e tid numT in p.1 <= i < p.2.
Proof.
  intros HT Hi. unfold BFS.block_range. cbn [fst snd].
  set (dist := e - b). set (numper := Nat.max ((dist + numT - 1) / numT) 1).
  assert (Hnp : 0 < numper) by (unfold numper; lia).
  assert (Hall : dist <= numper * numT).
  { pose proof (Nat.div_mod_eq (dist + numT - 1) numT) as Hdm.
    pose proof (Nat.mod_upper_bound (dist + numT - 1) numT ltac:(lia)) as Hm.
    assert ((dist + numT - 1) / numT <= numper) by (unfold numper; lia).
    nia. }
  exists ((i - b) / numper).
  pose proof (Nat.div_mod_eq (i - b) numper) as Hdm.
  pose proof (Nat.mod_upper_bound (i - b) numper ltac:(lia)) as Hm.
  assert (Hi' : i - b < dist) by (unfold dist; lia).
  split.
  - apply Nat.Div0.div_lt_upper_bound. lia.
  - nia.
Qed.

Lemma pushEdgeTilesParallel_new numT g v t :
  In t (BFS.pushEdgeTilesParallel numT [] g v) ->
  forall e, In e (BFS.tile_edges t) -> In e (edges g v).
Proof.
  unfold BFS.pushEdgeTilesParallel.
  set (b := edge_begin g v). set (e := edge_end g v).
  destruct (Nat.ltb_spec BFS.EDGE_TILE_SIZE (e - b)) as [Hlong|Hshort].
  - cbn [app]. intros (tid & _ & Ht)%in_flat_map i Hi.
    pose proof (block_range_spec b e tid numT) as Hp. cbn zeta in Hp.
    destruct (BFS.block_range b e tid numT) as [p1 p2]. cbn [fst snd] in *.
    destruct (edgeTiles_spec (S (p2 - p1)) p1 p2 ltac:(lia)) as [H1 _].
    apply H1 in Ht. apply in_edge_range in Hi. apply in_edge_range.
    fold b e. lia.
  - destruct (Nat.ltb_spec 0 (e - b)) as [Hpos|Hzero]; [|by intros []].
    by intros [<-|[]] i Hi.
Qed.

Lemma pushEdgeTilesParallel_covered numT g v e :
  0 < numT -> In e (edges g v) ->
  covered (BFS.pushEdgeTilesParallel numT [] g v) e.
Proof.
  intros HT He. apply in_edge_range in He.
  unfold BFS.pushEdgeTilesParallel.
  set (b := edge_begin g v) in *. set (e' := edge_end g v) in *.
  destruct (Nat.ltb_spec BFS.EDGE_TILE_SIZE (e' - b)) as [Hlong|Hshort].
  - cbn [app].
    destruct (block_range_cover b e' numT e HT He) as (tid & Htid & Hp).
    cbn zeta in Hp.
    destruct (BFS.block_range b e' tid numT) as [p1 p2] eqn:Hbr.
    cbn [fst snd] in *.
    destruct (edgeTiles_spec (S (p2 - p1)) p1 p2 ltac:(lia)) as [_ H2].
    destruct (H2 e Hp) as (t & Hin & Hcov).
    exists t. split; [|done]. apply in_flat_map. exists tid.
    split; [apply in_seq; lia|]. by rewrite Hbr.
  - destruct (Nat.ltb_spec 0 (e' - b)) as [Hpos|Hzero]; [|lia].
    exists (BFS.EdgeTileMaker b e'). split; [by left|].
    by apply in_edge_range.
Qed.

Section BFSSchedules.

Variable INF : Z.
Variable g : Graph.
Variable s : GNode.
Hypothesis Hwf : wf_graph g = true.
Hypothesis Hs : s < graph_size g.
Hypothesis HINF : (Z.of_nat (graph_size g) <= INF < 2 ^ 32)%Z.

(** The invariant of a round only looks at which edges are left, not at
    their order. *)
Lemma RInv_same_edges L d next es es' :
  (forall e, In e es <-> In e es') ->
  RInv INF g s L d next es -> RInv INF g s L d next es'.
Proof.
  intros Hiff [HB Hbound Htiles Hes Hcl]. split; try done.
  - intros e He. apply Hes. by apply Hiff.
  - intros x e Hx Hvx He.
    destruct (Hcl x e Hx Hvx He) as [H|[H|[Hd Hin]]]; auto.
    right. right. split; [done|]. by apply Hiff.
Qed.

Lemma tile_edges_perm (l l' : list BFS.EdgeTile) :
  Permutation l' l ->
  forall e, In e (flat_map BFS.tile_edges l) <-> In e (flat_map BFS.tile_edges l').
Proof.
  intros Hp e. rewrite !in_flat_map. split; intros (t & Ht & He); exists t.
  - split; [|done]. eapply Permutation_in; [symmetry; exact Hp | done].
  - split; [|done]. eapply Permutation_in; [exact Hp | done].
Qed.

Variable sched : list BFS.EdgeTile -> list BFS.EdgeTile.
Hypothesis Hsched : forall l, Permutation (sched l) l.

Lemma syncLoop_levels fuel :
  forall d curr next L r log,
  RInv INF g s L d next [] ->
  unvisited INF d + (match next with [] => 0 | _ => 1 end) <= fuel ->
  exists d' log',
    BFS.syncLoop INF sched fuel g d curr next L r log = BFS.Finished (d', log') /\
    Base INF g s d' /\ closed INF g d'.
Proof.
  assert (Hnil : forall L d, RInv INF g s L d [] [] ->
                   Base INF g s d /\ closed INF g d).
  { intros L d [HB _ _ _ Hcl]. split; [done|]. intros x e Hx Hvx He.
    destruct (Hcl x e Hx Hvx He) as [H|[[_ (t & [] & _)]|[_ []]]]; done. }
  induction fuel as [|fuel IH]; intros d curr next L r log HR Hm.
  - destruct next as [|t next]; [|lia].
    exists d, log. split; [done|]. by eapply Hnil.
  - destruct next as [|t next].
    + exists d, log. split; [done|]. by eapply Hnil.
    + cbn [BFS.syncLoop]. unfold BFS.do_all.
      destruct (r_tiles _ _ _ _ _ _ _ HR t (or_introl eq_refl))
        as (u & Hu & Hvu & Hdu & _).
      pose proof (base_lt INF g s Hs d u (r_base _ _ _ _ _ _ _ HR) Hu Hvu)
        as HL.
      assert (Hwrap : wrap (L + 1) = (L + 1)%Z).
      { unfold wrap. apply Z.mod_small. lia. }
      rewrite Hwrap.
      pose proof (processTileL_fold_erase INF g (L + 1) (S r)
                    (sched (t :: next)) (d, [], log)) as Her.
      rewrite processTile_flat in Her. cbn [fst] in Her.
      pose proof (RInv_round INF g s Hs L d (t :: next) HR) as HR1.
      apply (RInv_same_edges _ _ _ _
               (flat_map BFS.tile_edges (sched (t :: next)))) in HR1;
        [|by apply tile_edges_perm].
      destruct (syncRelax_fold INF g s Hwf Hs HINF (L + 1) _ d [] HR1)
        as [HR' Hm'].
      destruct (fold_left (BFS.processTileL INF g (L + 1) (S r)) _ _)
        as [[d1 next1] log1].
      cbn [fst] in Her. rewrite <- Her in HR', Hm'. cbn [fst snd] in *.
      apply IH; [done|].
      destruct Hm' as [[= -> ->]|Hm']; [lia|].
      destruct next1; lia.
Qed.

End BFSSchedules.

Lemma syncAlgo_correct INF sched numT g s fuel :
  wf_graph g = true -> s < graph_size g ->
  (Z.of_nat (graph_size g) <= INF < 2 ^ 32)%Z ->
  (forall l, Permutation (sched l) l) -> 0 < numT -> 0 < getDegree g s ->
  graph_size g <= fuel ->
  exists d log,
    BFS.syncAlgo INF sched numT fuel g s (initData INF g s)
    = BFS.Finished (d, log) /\
    Base INF g s d /\ closed INF g d.
Proof.
  intros Hwf Hs HINF Hsched HT Hdeg Hfuel. unfold BFS.syncAlgo.
  pose proof (pushEdgeTilesParallel_nonempty numT g s HT Hdeg) as Hne.
  pose proof (base_init INF g s Hs) as HB0.
  assert (HR0 : RInv INF g s 0 (setData (initData INF g s) s 0%Z)
                  (BFS.pushEdgeTilesParallel numT [] g s) []).
  { split.
    - done.
    - intros v Hv Hvv. rewrite (init_visited INF g s Hs v Hv Hvv).
      rewrite (base_src _ _ _ _ HB0). lia.
    - intros t Ht. exists s. split; [done|].
      split; [by apply (base_src_visited INF g s Hs HINF)|].
      split; [apply (base_src _ _ _ _ HB0)|].
      by apply (pushEdgeTilesParallel_new numT).
    - by intros e [].
    - intros x e Hx Hvx He. right. left.
      rewrite (init_visited INF g s Hs x Hx Hvx) in *.
      split; [apply (base_src _ _ _ _ HB0)|].
      by apply pushEdgeTilesParallel_covered. }
  destruct (BFS.pushEdgeTilesParallel numT [] g s) as [|t ts] eqn:Hseed;
    [done|].
  apply (syncLoop_levels INF g s Hwf Hs HINF sched Hsched fuel
           (setData (initData INF g s) s 0%Z) [] (t :: ts) 0%Z 0
           (map (BFS.EvPush 0) (t :: ts)) HR0).
  pose proof (unvisited_init INF g s Hs HINF). lia.
Qed.

(** [syncAlgo] on a source that has an out-edge, with at least one
    worker: whatever order the scheduler gives to the tiles of a round,
    as long as it hands out every tile of the bag once, the run ends
    within as many rounds as the graph has nodes, and with the array that
    [serialAlgo] computes: every node reachable from the source holds its
    BFS level, every other node [DIST_INFINITY]. *)
Theorem syncAlgo_levels INF sched numT g s :
  wf_graph g = true -> s < graph_size g ->
  (Z.of_nat (graph_size g) <= INF < 2 ^ 32)%Z ->
  (forall l, Permutation (sched l) l) -> 0 < numT -> 0 < getDegree g s ->
  exists d log,
    BFS.syncAlgo INF sched numT (graph_size g) g s (initData INF g s)
    = BFS.Finished (d, log) /\
    BFS.serialAlgo INF (graph_size g) g s (initData INF g s) = Some d /\
    forall v, v < graph_size g ->
      (forall k, bfs_level g s v k -> getData d v = Z.of_nat k) /\
      (~ reachable g s v -> getData d v = INF).
Proof.
  intros Hwf Hs HINF Hsched HT Hdeg.
  destruct (syncAlgo_correct INF sched numT g s (graph_size g) Hwf Hs HINF
              Hsched HT Hdeg (le_n _)) as (d & log & Hrun & HB & Hcl).
  exists d, log. split; [done|].
  destruct (serialAlgo_correct INF g s Hwf Hs HINF (graph_size g) (le_n _))
    as (d1 & Hrun1 & HB1 & Hcl1).
  pose proof (closed_result INF g s Hwf Hs HINF d HB Hcl) as Hres.
  rewrite (bfs_result_unique INF g s Hwf Hs HINF d1 d HB1 Hcl1 Hres) in Hrun1.
  split; [done|]. intros v Hv. destruct Hres as [_ Hres].
  destruct (Hres v Hv) as (Hl & _ & Hu). by split.
Qed.

Lemma syncAlgo_levels_witness :
  exists d log,
    BFS.syncAlgo 2147483646 BFS.in_order 4 (graph_size BFS.chain10)
      BFS.chain10 0 (initData 2147483646 BFS.chain10 0)
    = BFS.Finished (d, log) /\
    BFS.serialAlgo 2147483646 (graph_size BFS.chain10) BFS.chain10 0
      (initData 2147483646 BFS.chain10 0) = Some d /\
    forall v, v < graph_size BFS.chain10 ->
      (forall k, bfs_level BFS.chain10 0 v k -> getData d v = Z.of_nat k) /\
      (~ reachable BFS.chain10 0 v -> getData d v = 2147483646%Z).
Proof.
  apply syncAlgo_levels;
    [reflexivity | vm_compute; lia | split; by vm_compute
    | by intros l | lia | vm_compute; lia].
Defined.

(** ** [sync2phaseAlgo]: the levels, without a condition on the source *)

Section BFSTwoPhase.

Variable INF : Z.
Variable g : Graph.
Variable s : GNode.
Hypothesis Hwf : wf_graph g = true.
Hypothesis Hs : s < graph_size g.
Hypothesis HINF : (Z.of_nat (graph_size g) <= INF < 2 ^ 32)%Z.

(** The invariant of a turn at level [L]: [act] holds the nodes found in
    this turn, and [es] are the edges of the previous level that are
    still to be looked at. *)
Record AInv (L : Z) (d : NodeData) (act : list GNode)
    (es : list edge_iterator) : Prop := {
  a_base : Base INF g s d;
  a_bound : forall v, v < graph_size g -> visited INF d v ->
      (getData d v <= L)%Z;
  a_act : forall u, In u act ->
      u < graph_size g /\ visited INF d u /\ getData d u = L;
  a_es : forall e, In e es ->
      exists u, u < graph_size g /\ visited INF d u /\
                getData d u = (L - 1)%Z /\ In e (edges g u);
  a_closure : forall x e, x < graph_size g -> visited INF d x ->
      In e (edges g x) ->
      edge_ok INF g d x e \/ (getData d x = L /\ In x act) \/
      (getData d x = (L - 1)%Z /\ In e es)
}.

Lemma sync2Relax_inv L d act e es :
  AInv L d act (e :: es) ->
  let st := BFS.sync2Relax INF g L (d, act) e in
  AInv L st.1 st.2 es /\
  (st = (d, act) \/ unvisited INF st.1 < unvisited INF d).
Proof.
  intros [HB Hbound Hact Hes Hcl].
  destruct (Hes e (or_introl eq_refl)) as (u & Hu & Hvisu & Hdu & He).
  pose proof (wf_edge_dst g u e Hwf Hu He) as Hv.
  unfold BFS.sync2Relax. cbn [fst snd].
  set (v := getEdgeDst g e) in *.
  destruct (Z.eqb_spec (getData d v) INF) as [Hdv|Hdv]; cbn [fst snd].
  - assert (Hedge : has_edge g u v) by (split; [done|by exists e]).
    destruct (base_visit INF g s Hs HINF d u v HB Hu Hvisu Hedge Hv Hdv)
      as [HB' Hw].
    replace (getData d u + 1)%Z with L in * by lia.
    assert (Hf : frame INF g d (setData d v L)) by by apply frame_setData.
    assert (Hvw : getData (setData d v L) v = L).
    { apply getData_setData_eq. by rewrite (base_len _ _ _ _ HB). }
    assert (Hvis' : visited INF (setData d v L) v).
    { unfold visited. rewrite Hvw. lia. }
    split.
    + split.
      * done.
      * intros x Hx Hvx. destruct (Nat.eq_dec x v) as [->|Hne].
        -- rewrite Hvw. lia.
        -- unfold visited in Hvx.
           rewrite getData_setData_ne in * by done. by apply Hbound.
      * intros x [Hx|[<-|[]]]%in_app_iff; [|done].
        destruct (Hact x Hx) as (Hxn & Hvx & Hdx).
        split; [done|]. split; [by eapply frame_visited|]. by rewrite Hf.
      * intros e' He'.
        destruct (Hes e' (or_intror He')) as (x & Hx & Hvx & Hdx & Hin).
        exists x. split; [done|]. split; [by eapply frame_visited|].
        split; [by rewrite Hf | done].
      * intros x e' Hx Hvx He'. destruct (Nat.eq_dec x v) as [->|Hne].
        -- right. left. split; [done|]. rewrite in_app_iff. right. by left.
        -- assert (Hvx0 : visited INF d x).
           { unfold visited in *. by rewrite getData_setData_ne in Hvx. }
           rewrite (Hf x Hx Hvx0).
           destruct (Hcl x e' Hx Hvx0 He') as [Hok|[[Hd Hc]|[Hd [<-|Hin]]]].
           ++ left. by apply (edge_ok_frame INF g Hwf d).
           ++ right. left. split; [done|]. rewrite in_app_iff. by left.
           ++ left. unfold edge_ok. fold v. split; [done|].
              rewrite Hvw, Hf by done. lia.
           ++ by right; right.
    + right.
      rewrite <- (unvisited_setData INF g s Hs d v L); [lia | | done | lia].
      by rewrite (base_len _ _ _ _ HB).
  - split; [|by left]. split; try done.
    + intros e' He'. by apply Hes; right.
    + intros x e' Hx Hvx He'.
      destruct (Hcl x e' Hx Hvx He') as [Hok|[H|[Hd [<-|Hin]]]]; auto.
      left. unfold edge_ok. fold v. split; [done|].
      specialize (Hbound v Hv Hdv). lia.
Qed.

Lemma sync2Relax_fold L es :
  forall d act,
  AInv L d act es ->
  let st := fold_left (BFS.sync2Relax INF g L) es (d, act) in
  AInv L st.1 st.2 [] /\
  (st = (d, act) \/ unvisited INF st.1 < unvisited INF d).
Proof.
  induction es as [|e es IH]; intros d act HA; cbn [fold_left].
  - split; [done | by left].
  - destruct (sync2Relax_inv L d act e es HA) as [HA1 Hm1].
    destruct (BFS.sync2Relax INF g L (d, act) e) as [d1 act1].
    cbn [fst snd] in *.
    destruct (IH d1 act1 HA1) as [HA2 Hm2].
    split; [done|].
    destruct Hm1 as [[= -> ->]|Hm1]; [done|].
    right. destruct Hm2 as [->|Hm2]; simpl; lia.
Qed.

Lemma sync2Tile_flat L tiles st :
  fold_left (BFS.sync2Tile INF g L) tiles st
  = fold_left (BFS.sync2Relax INF g L) (flat_map BFS.tile_edges tiles) st.
Proof.
  revert st. induction tiles as [|t tiles IH]; intros st; [done|].
  cbn [fold_left flat_map]. rewrite fold_left_app. apply IH.
Qed.

(** The first [do_all]: the tiles pushed for a list of nodes. *)
Lemma pushEdgeTiles_fold nodes :
  forall tiles t,
  In t (fold_left (fun tiles src => BFS.pushEdgeTiles tiles g src) nodes tiles)
  <-> In t tiles \/
      exists u, In u nodes /\ In t (BFS.pushEdgeTiles [] g u).
Proof.
  induction nodes as [|u nodes IH]; intros tiles t; cbn [fold_left].
  - split; [by left | by intros [H|(u & [] & _)]].
  - rewrite IH. unfold BFS.pushEdgeTiles at 1. rewrite in_app_iff.
    split.
    + intros [[H|H]|(u' & Hu' & H)]; [by left | |].
      * right. exists u. split; [by left | done].
      * right. exists u'. split; [by right | done].
    + intros [H|(u' & [<-|Hu'] & H)]; [by left; left | |].
      * left. by right.
      * right. by exists u'.
Qed.

Variable schedNodes : list GNode -> list GNode.
Variable schedTiles : list BFS.EdgeTile -> list BFS.EdgeTile.
Hypothesis HschedNodes : forall l, Permutation (schedNodes l) l.
Hypothesis HschedTiles : forall l, Permutation (schedTiles l) l.

(** From the head of a turn to the start of its second [do_all]. *)
Lemma AInv_tiles L d act :
  AInv L d act [] ->
  let tiles := fold_left (fun tiles src => BFS.pushEdgeTiles tiles g src)
                         (schedNodes act) [] in
  AInv (L + 1) d [] (flat_map BFS.tile_edges (schedTiles tiles)).
Proof.
  intros [HB Hbound Hact Hes Hcl] tiles.
  assert (Htiles : forall t, In t (schedTiles tiles) <->
            exists u, In u act /\ In t (BFS.pushEdgeTiles [] g u)).
  { intros t. split.
    - intros Ht. apply (Permutation_in _ (HschedTiles tiles)) in Ht.
      apply pushEdgeTiles_fold in Ht as [[]|(u & Hu & Ht)].
      exists u. split; [|done].
      by apply (Permutation_in _ (HschedNodes act)).
    - intros (u & Hu & Ht).
      apply (Permutation_in _ (Permutation_sym (HschedTiles tiles))).
      apply pushEdgeTiles_fold. right. exists u. split; [|done].
      by apply (Permutation_in _ (Permutation_sym (HschedNodes act))). }
  split.
  - done.
  - intros v Hv Hvv. specialize (Hbound v Hv Hvv). lia.
  - by intros u [].
  - intros e (t & Ht & He)%in_flat_map.
    apply Htiles in Ht as (u & Hu & Ht).
    destruct (Hact u Hu) as (Hun & Hvu & Hdu).
    exists u. split; [done|]. split; [done|]. split; [lia|].
    apply pushEdgeTiles_new in Ht as [[]|[_ Ht]]. by apply Ht.
  - intros x e Hx Hvx He.
    destruct (Hcl x e Hx Hvx He) as [Hok|[[Hd Hin]|[_ []]]]; [by left|].
    right. right. split; [lia|]. apply in_flat_map.
    destruct (pushEdgeTiles_covered [] g x e He) as (t & Ht & Hcov).
    exists t. split; [|done]. apply Htiles. by exists x.
Qed.

Lemma sync2phaseLoop_levels fuel :
  forall d act L,
  AInv L d act [] ->
  unvisited INF d + (match act with [] => 0 | _ => 1 end) <= fuel ->
  exists d',
    BFS.sync2phaseLoop INF schedNodes schedTiles fuel g d act [] L = Some d' /\
    Base INF g s d' /\ closed INF g d'.
Proof.
  assert (Hnil : forall L d, AInv L d [] [] ->
                   Base INF g s d /\ closed INF g d).
  { intros L d [HB _ _ _ Hcl]. split; [done|]. intros x e Hx Hvx He.
    destruct (Hcl x e Hx Hvx He) as [H|[[_ []]|[_ []]]]; done. }
  induction fuel as [|fuel IH]; intros d act L HA Hm.
  - destruct act as [|u act]; [|lia].
    exists d. split; [done|]. by eapply Hnil.
  - destruct act as [|u act].
    + exists d. split; [done|]. by eapply Hnil.
    + cbn [BFS.sync2phaseLoop].
      destruct (a_act _ _ _ _ HA u (or_introl eq_refl)) as (Hu & Hvu & Hdu).
      pose proof (base_lt INF g s Hs d u (a_base _ _ _ _ HA) Hu Hvu) as HL.
      assert (Hwrap : wrap (L + 1) = (L + 1)%Z).
      { unfold wrap. apply Z.mod_small. lia. }
      rewrite Hwrap, sync2Tile_flat.
      destruct (sync2Relax_fold (L + 1) _ d [] (AInv_tiles L d (u :: act) HA))
        as [HA' Hm'].
      destruct (fold_left (BFS.sync2Relax INF g (L + 1)) _ (d, []))
        as [d1 act1].
      cbn [fst snd] in *.
      apply IH; [done|].
      destruct Hm' as [[= -> ->]|Hm']; [lia|].
      destruct act1; lia.
Qed.

Lemma sync2phaseAlgo_correct fuel :
  graph_size g <= fuel ->
  exists d,
    BFS.sync2phaseAlgo INF schedNodes schedTiles fuel g s (initData INF g s)
    = Some d /\
    Base INF g s d /\ closed INF g d.
Proof.
  intros Hfuel. unfold BFS.sync2phaseAlgo. apply sync2phaseLoop_levels.
  - pose proof (base_init INF g s Hs) as HB. split.
    + done.
    + intros v Hv Hvv. rewrite (init_visited INF g s Hs v Hv Hvv).
      rewrite (base_src _ _ _ _ HB). lia.
    + intros u [<-|[]]. split; [done|].
      split; [by apply (base_src_visited INF g s Hs HINF)|].
      apply (base_src _ _ _ _ HB).
    + by intros e [].
    + intros x e Hx Hvx He. right. left.
      rewrite (init_visited INF g s Hs x Hx Hvx) in *.
      split; [apply (base_src _ _ _ _ HB) | by left].
  - pose proof (unvisited_init INF g s Hs HINF). lia.
Qed.

End BFSTwoPhase.

(** [sync2phaseAlgo], whatever order the two [do_all] loops give to the
    active nodes and to the tiles (every element of the bag once): the run
    ends within as many turns as the graph has nodes, and with the array
    that [serialAlgo] computes, the BFS levels. Unlike [syncAlgo] it asks
    nothing of the source: a source without out-edges ends the loop after
    one turn. *)
Theorem sync2phaseAlgo_levels INF schedNodes schedTiles g s :
  wf_graph g = true -> s < graph_size g ->
  (Z.of_nat (graph_size g) <= INF < 2 ^ 32)%Z ->
  (forall l, Permutation (schedNodes l) l) ->
  (forall l, Permutation (schedTiles l) l) ->
  exists d,
    BFS.sync2phaseAlgo INF schedNodes schedTiles (graph_size g) g s
      (initData INF g s) = Some d /\
    BFS.serialAlgo INF (graph_size g) g s (initData INF g s) = Some d /\
    forall v, v < graph_size g ->
      (forall k, bfs_level g s v k -> getData d v = Z.of_nat k) /\
      (~ reachable g s v -> getData d v = INF).
Proof.
  intros Hwf Hs HINF HsN HsT.
  destruct (sync2phaseAlgo_correct INF g s Hwf Hs HINF schedNodes schedTiles
              HsN HsT (graph_size g) (le_n _)) as (d & Hrun & HB & Hcl).
  exists d. split; [done|].
  destruct (serialAlgo_correct INF g s Hwf Hs HINF (graph_size g) (le_n _))
    as (d1 & Hrun1 & HB1 & Hcl1).
  pose proof (closed_result INF g s Hwf Hs HINF d HB Hcl) as Hres.
  rewrite (bfs_result_unique INF g s Hwf Hs HINF d1 d HB1 Hcl1 Hres) in Hrun1.
  split; [done|]. intros v Hv. destruct Hres as [_ Hres].
  destruct (Hres v Hv) as (Hl & _ & Hu). by split.
Qed.

Lemma sync2phaseAlgo_levels_witness :
  exists d,
    BFS.sync2phaseAlgo 2147483646 (fun l => l) (fun l => l)
      (graph_size BFS.chain10) BFS.chain10 9
      (initData 2147483646 BFS.chain10 9) = Some d /\
    BFS.serialAlgo 2147483646 (graph_size BFS.chain10) BFS.chain10 9
      (initData 2147483646 BFS.chain10 9) = Some d /\
    forall v, v < graph_size BFS.chain10 ->
      (forall k, bfs_level BFS.chain10 9 v k -> getData d v = Z.of_nat k) /\
      (~ reachable BFS.chain10 9 v -> getData d v = 2147483646%Z).
Proof.
  apply sync2phaseAlgo_levels;
    [reflexivity | vm_compute; lia | split; by vm_compute
    | by intros l | by intros l].
Defined.

(** ** Shortest paths: what the algorithms compute *)

(** [wpath g s v W]: there is a path from [s] to [v] whose edge weights
    add up to [W]. *)
Inductive wpath (g : Graph) (s : GNode) : GNode -> Z -> Prop :=
| wpath_here : wpath g s s 0
| wpath_step u e W :
    wpath g s u W -> u < graph_size g -> In e (edges g u) ->
    wpath g s (getEdgeDst g e) (W + getEdgeData g e).

(** The array of shortest distances, capped at [INF]: no entry is above
    [INF] or above the weight of a path to its node, and an entry below
    [INF] is the weight of a path. *)
Definition sssp_result (INF : Z) (g : Graph) (s : GNode) (d : NodeData)
    : Prop :=
  length d = graph_size g /\
  forall v, v < graph_size g ->
    (getData d v <= INF)%Z /\
    (forall W, wpath g s v W -> (getData d v <= W)%Z) /\
    (getData d v = INF \/ wpath g s v (getData d v)).

(** The sum of all distances: every write lowers it. *)
Definition sumData (d : NodeData) : Z := fold_right Z.add 0%Z d.

Definition data_ok (d : NodeData) : Prop := Forall (fun x => (0 <= x)%Z) d.

Definition measure (d : NodeData) : nat := Z.to_nat (sumData d).

Lemma sssp_result_unique INF g s d1 d2 :
  sssp_result INF g s d1 -> sssp_result INF g s d2 -> d1 = d2.
Proof.
  intros [Hlen1 H1] [Hlen2 H2]. apply list_eq. intros v.
  destruct (Nat.lt_ge_cases v (graph_size g)) as [Hv|Hv].
  - destruct (lookup_lt_is_Some_2 d1 v) as [x1 Hx1]; [by rewrite Hlen1|].
    destruct (lookup_lt_is_Some_2 d2 v) as [x2 Hx2]; [by rewrite Hlen2|].
    rewrite Hx1, Hx2. f_equal.
    assert (Hg1 : getData d1 v = x1) by (unfold getData; by rewrite Hx1).
    assert (Hg2 : getData d2 v = x2) by (unfold getData; by rewrite Hx2).
    rewrite <- Hg1, <- Hg2.
    destruct (H1 v Hv) as (Hle1 & Hmin1 & Hs1).
    destruct (H2 v Hv) as (Hle2 & Hmin2 & Hs2).
    destruct Hs1 as [Hs1|Hs1], Hs2 as [Hs2|Hs2].
    + congruence.
    + specialize (Hmin1 _ Hs2). lia.
    + specialize (Hmin2 _ Hs1). lia.
    + specialize (Hmin1 _ Hs2). specialize (Hmin2 _ Hs1). lia.
  - rewrite !lookup_ge_None_2; [done | by rewrite Hlen2 | by rewrite Hlen1].
Qed.

Lemma getData_out d v : length d <= v -> getData d v = 0%Z.
Proof. intros H. unfold getData. by rewrite lookup_ge_None_2. Qed.

Lemma getData_nonneg d v : data_ok d -> (0 <= getData d v)%Z.
Proof.
  intros Hok. unfold getData. destruct (d !! v) as [x|] eqn:Hx; [|done].
  cbn. unfold data_ok in Hok. rewrite List.Forall_forall in Hok.
  apply Hok. apply list_elem_of_In. by eapply list_elem_of_lookup_2.
Qed.

Lemma sumData_nonneg d : data_ok d -> (0 <= sumData d)%Z.
Proof.
  induction 1 as [|x d Hx _ IH]; cbn; [done|]. unfold sumData in IH. lia.
Qed.

Lemma sumData_setData d v x :
  v < length d ->
  sumData (setData d v x) = (sumData d - getData d v + x)%Z.
Proof.
  revert v. induction d as [|y d IH]; intros v Hv; [simpl in Hv; lia|].
  destruct v as [|v].
  - change (setData (y :: d) 0 x) with (x :: d).
    change (getData (y :: d) 0) with y. cbn [sumData fold_right]. lia.
  - change (setData (y :: d) (S v) x) with (y :: setData d v x).
    change (getData (y :: d) (S v)) with (getData d v).
    cbn [sumData fold_right]. simpl in Hv.
    specialize (IH v ltac:(lia)). unfold sumData in IH. lia.
Qed.

Lemma data_ok_setData d v x :
  data_ok d -> (0 <= x)%Z -> data_ok (setData d v x).
Proof.
  intros Hok Hx. unfold data_ok, setData in *.
  rewrite List.Forall_forall in *. intros y Hy.
  apply list_elem_of_In, list_elem_of_lookup in Hy as [i Hi].
  rewrite list_lookup_insert in Hi.
  destruct (decide (v = i /\ v < length d)) as [_|_].
  - by injection Hi as <-.
  - apply Hok, list_elem_of_In. by eapply list_elem_of_lookup_2.
Qed.

(** A write of a smaller number lowers the measure. *)
Lemma measure_write d v x :
  data_ok d -> (0 <= x < getData d v)%Z ->
  data_ok (setData d v x) /\ S (measure (setData d v x)) <= measure d.
Proof.
  intros Hok Hx. split; [apply data_ok_setData; [done | lia]|].
  assert (Hv : v < length d).
  { destruct (Nat.lt_ge_cases v (length d)) as [|Hge]; [done|].
    rewrite getData_out in Hx by done. lia. }
  unfold measure. rewrite sumData_setData by done.
  pose proof (sumData_nonneg _ (data_ok_setData d v x Hok ltac:(lia))) as H0.
  rewrite sumData_setData in H0 by done. lia.
Qed.

Lemma wrap_nonneg x : (0 <= wrap x)%Z.
Proof. unfold wrap. apply Z.mod_pos_bound. lia. Qed.

Lemma data_ok_init INF g s : (0 <= INF)%Z -> data_ok (initData INF g s).
Proof.
  intros HINF. unfold initData. apply data_ok_setData; [|done].
  unfold data_ok. apply List.Forall_forall. intros x Hx.
  apply list_elem_of_In, elem_of_replicate in Hx as [-> _]. done.
Qed.

Section ShortestPaths.

Variable INF : Z.
Variable g : Graph.
Variable s : GNode.
Hypothesis Hwf : wf_graph g = true.
Hypothesis Hs : s < graph_size g.
Hypothesis HINF : (0 <= INF < 2 ^ 32)%Z.
Hypothesis Hweights : weights_bounded INF g = true.

(** No edge out of [u] can lower a distance any more. *)
Definition relaxed (d : NodeData) (u : GNode) : Prop :=
  forall e, In e (edges g u) ->
    (getData d (getEdgeDst g e) <= getData d u + getEdgeData g e)%Z.

Record SBase (d : NodeData) : Prop := {
  sb_len : length d = graph_size g;
  sb_range : forall v, v < graph_size g -> (0 <= getData d v <= INF)%Z;
  sb_src : getData d s = 0%Z;
  sb_sound : forall v, v < graph_size g ->
      getData d v = INF \/ wpath g s v (getData d v)
}.

Definition item_valid (d : NodeData) (it : SSSP.UpdateRequest) : Prop :=
  SSSP.req_src it < graph_size g /\
  wpath g s (SSSP.req_src it) (SSSP.req_dist it) /\
  (getData d (SSSP.req_src it) <= SSSP.req_dist it)%Z.

(** The invariant between two items: [pend] says which requests wait in
    the worklist. A node below [INF] has a request with its current
    distance waiting, or its edges are relaxed. *)
Record SInv (d : NodeData) (pend : SSSP.UpdateRequest -> Prop) : Prop := {
  s_base : SBase d;
  s_items : forall it, pend it -> item_valid d it;
  s_closure : forall u, u < graph_size g -> (getData d u < INF)%Z ->
      pend (SSSP.Req u (getData d u)) \/ relaxed d u
}.

(** The invariant while the edges of [u] are relaxed with distance [x]. *)
Record PSInv (u : GNode) (x : Z) (d : NodeData)
    (pend : SSSP.UpdateRequest -> Prop) : Prop := {
  ps_base : SBase d;
  ps_items : forall it, pend it -> item_valid d it;
  ps_cur : u < graph_size g /\ getData d u = x /\ wpath g s u x;
  ps_closure : forall y, y < graph_size g -> (getData d y < INF)%Z ->
      pend (SSSP.Req y (getData d y)) \/ relaxed d y \/ y = u
}.

Lemma SInv_ext d (pend pend' : SSSP.UpdateRequest -> Prop) :
  (forall it, pend it <-> pend' it) -> SInv d pend -> SInv d pend'.
Proof.
  intros Hiff [HB Hit Hcl]. split; [done | |].
  - intros it Hp. by apply Hit, Hiff.
  - intros u Hu Hd. destruct (Hcl u Hu Hd) as [H|H]; [|by right].
    left. by apply Hiff.
Qed.

Lemma PSInv_ext u x d (pend pend' : SSSP.UpdateRequest -> Prop) :
  (forall it, pend it <-> pend' it) -> PSInv u x d pend -> PSInv u x d pend'.
Proof.
  intros Hiff [HB Hit Hcur Hcl]. split; [done | | done |].
  - intros it Hp. by apply Hit, Hiff.
  - intros y Hy Hd. destruct (Hcl y Hy Hd) as [H|H]; [|by right].
    left. by apply Hiff.
Qed.

Lemma weight_ok e :
  (0 <= getEdgeData g e)%Z /\ (INF + getEdgeData g e < 2 ^ 32)%Z.
Proof. by apply weights_bounded_edge. Qed.

(** Under the invariant the sum of a relaxation does not wrap around. *)
Lemma relax_no_wrap u x d pend e :
  PSInv u x d pend ->
  wrap (x + getEdgeData g e) = (x + getEdgeData g e)%Z.
Proof.
  intros [HB _ (Hu & Hdu & _) _]. destruct (weight_ok e) as [Hw0 HwB].
  pose proof (sb_range d HB u Hu). unfold wrap. apply Z.mod_small. lia.
Qed.

(** The write of a relaxation and the request pushed for it. *)
Lemma relax_write_inv u x d pend e :
  PSInv u x d pend -> In e (edges g u) ->
  (x + getEdgeData g e < getData d (getEdgeDst g e))%Z ->
  PSInv u x (setData d (getEdgeDst g e) (x + getEdgeData g e))
        (fun it => it = SSSP.Req (getEdgeDst g e) (x + getEdgeData g e)
                   \/ pend it).
Proof.
  intros [HB Hit (Hu & Hdu & Hpath) Hcl] He Hlt.
  destruct (weight_ok e) as [Hw0 HwB].
  pose proof (wf_edge_dst g u e Hwf Hu He) as Hv.
  set (v := getEdgeDst g e) in *. set (nd := (x + getEdgeData g e)%Z) in *.
  pose proof (sb_range d HB u Hu) as Hru.
  pose proof (sb_range d HB v Hv) as Hrv.
  assert (Hvu : v <> u) by (intros Heq; rewrite Heq in Hlt; lia).
  assert (Hvs : v <> s).
  { intros Heq. rewrite Heq, (sb_src d HB) in Hlt. lia. }
  assert (Hnew : getData (setData d v nd) v = nd).
  { apply getData_setData_eq. by rewrite (sb_len d HB). }
  assert (Hold : forall y, y <> v -> getData (setData d v nd) y = getData d y).
  { intros y Hy. by apply getData_setData_ne. }
  assert (Hle : forall y, (getData (setData d v nd) y <= getData d y)%Z).
  { intros y. destruct (Nat.eq_dec y v) as [->|Hne].
    - rewrite Hnew. lia.
    - rewrite Hold by done. lia. }
  assert (Hpv : wpath g s v nd) by exact (wpath_step g s u e x Hpath Hu He).
  split.
  - split.
    + rewrite length_setData. apply (sb_len d HB).
    + intros y Hy. destruct (Nat.eq_dec y v) as [->|Hne].
      * rewrite Hnew. lia.
      * rewrite Hold by done. by apply (sb_range d HB).
    + rewrite Hold by done. apply (sb_src d HB).
    + intros y Hy. destruct (Nat.eq_dec y v) as [->|Hne].
      * right. by rewrite Hnew.
      * rewrite Hold by done. by apply (sb_sound d HB).
  - intros it [->|Hp].
    + split; [done|]. split; [done|]. cbn. rewrite Hnew. lia.
    + destruct (Hit it Hp) as (H1 & H2 & H3). split; [done|].
      split; [done|]. specialize (Hle (SSSP.req_src it)). lia.
  - split; [done|]. split; [|done]. by rewrite Hold.
  - intros y Hy Hdy. destruct (Nat.eq_dec y v) as [->|Hne].
    + left. left. by rewrite Hnew.
    + rewrite (Hold y) in * by done.
      destruct (Hcl y Hy Hdy) as [H|[H|H]]; [by left; right | | by right; right].
      right. left. intros e' He'. rewrite (Hold y) by done.
      specialize (H e' He'). specialize (Hle (getEdgeDst g e')). lia.
Qed.

(** When all edges of [u] have been looked at. *)
Lemma PSInv_done u x d pend :
  PSInv u x d pend ->
  (forall e, In e (edges g u) ->
     (getData d (getEdgeDst g e) <= x + getEdgeData g e)%Z) ->
  SInv d pend.
Proof.
  intros [HB Hit (Hu & Hdu & Hpath) Hcl] Hrel. split; [done | done |].
  intros y Hy Hdy. destruct (Hcl y Hy Hdy) as [H|[H| ->]]; auto.
  right. intros e He. rewrite Hdu. by apply Hrel.
Qed.

(** Taking [item] out of the worklist: a stale item is dropped, any
    other item has its edges relaxed. *)
Lemma SInv_stale d (pend pend' : SSSP.UpdateRequest -> Prop) item :
  SInv d pend ->
  (forall it, pend it -> it = item \/ pend' it) ->
  (forall it, pend' it -> pend it) ->
  (getData d (SSSP.req_src item) < SSSP.req_dist item)%Z ->
  SInv d pend'.
Proof.
  intros [HB Hit Hcl] Hout Hin Hlt. split; [done | by auto |].
  intros u Hu Hdu. destruct (Hcl u Hu Hdu) as [H|H]; [|by right].
  destruct (Hout _ H) as [<-|H']; [|by left]. cbn in Hlt. lia.
Qed.

Lemma SInv_take d (pend pend' : SSSP.UpdateRequest -> Prop) item :
  SInv d pend -> pend item ->
  (forall it, pend it -> it = item \/ pend' it) ->
  (forall it, pend' it -> pend it) ->
  ~ (getData d (SSSP.req_src item) < SSSP.req_dist item)%Z ->
  PSInv (SSSP.req_src item) (SSSP.req_dist item) d pend'.
Proof.
  intros [HB Hit Hcl] Hitem Hout Hin Hge.
  destruct (Hit item Hitem) as (Hu & Hpath & Hle).
  split; [done | by auto | |].
  - split; [done|]. split; [lia | done].
  - intros y Hy Hdy. destruct (Hcl y Hy Hdy) as [H|H]; [|by right; left].
    destruct (Hout _ H) as [<-|H']; [by right; right | by left].
Qed.

(** With nothing left in the worklist the array is the result. *)
Lemma SInv_result d (pend : SSSP.UpdateRequest -> Prop) :
  SInv d pend -> (forall it, ~ pend it) -> sssp_result INF g s d.
Proof.
  intros [HB Hit Hcl] Hno. split; [apply (sb_len d HB)|].
  assert (Hmin : forall v W, wpath g s v W ->
            v < graph_size g /\ (getData d v <= W)%Z).
  { intros v W. induction 1 as [|u e W Hp [IHu IHd] Hu He].
    - split; [done|]. rewrite (sb_src d HB). lia.
    - pose proof (wf_edge_dst g u e Hwf Hu He) as Hv. split; [done|].
      destruct (weight_ok e) as [Hw0 _].
      pose proof (sb_range d HB u Hu) as Hru.
      pose proof (sb_range d HB _ Hv) as Hrv.
      destruct (Z.lt_ge_cases (getData d u) INF) as [Hfin|Hinf]; [|lia].
      destruct (Hcl u Hu Hfin) as [H|H]; [by destruct (Hno _ H)|].
      specialize (H e He). lia. }
  intros v Hv. split; [apply (sb_range d HB v Hv)|].
  split; [|by apply (sb_sound d HB)].
  intros W HW. by apply Hmin.
Qed.

(** The state in which the algorithms enter their loops. *)
Lemma SInv_init :
  SInv (setData (initData INF g s) s 0%Z) (fun it => it = SSSP.Req s 0).
Proof.
  assert (Hget : forall x, x < graph_size g ->
            getData (setData (initData INF g s) s 0%Z) x
            = if Nat.eq_dec x s then 0%Z else INF).
  { intros x Hx. unfold initData.
    destruct (Nat.eq_dec x s) as [->|Hne].
    - apply getData_setData_eq. rewrite length_setData, length_replicate. lia.
    - rewrite !getData_setData_ne by done. by apply getData_replicate. }
  assert (Hs0 : getData (setData (initData INF g s) s 0%Z) s = 0%Z).
  { rewrite Hget by done. by destruct (Nat.eq_dec s s). }
  split.
  - split.
    + unfold initData. by rewrite !length_setData, length_replicate.
    + intros v Hv. rewrite Hget by done. destruct (Nat.eq_dec v s); lia.
    + done.
    + intros v Hv. rewrite Hget by done.
      destruct (Nat.eq_dec v s) as [->|]; [right; constructor | by left].
  - intros it ->. split; [done|]. split; [constructor|]. cbn. lia.
  - intros u Hu Hdu. left. rewrite Hget in * by done.
    destruct (Nat.eq_dec u s) as [->|]; [done | lia].
Qed.

(** *** The edge loop of the serial variants, for any worklist *)

Section Worklist.

Context {WL : Type}.
Variable push : WL -> SSSP.UpdateRequest -> WL.
Variable mem : WL -> SSSP.UpdateRequest -> Prop.
Hypothesis Hpush : forall wl x it,
  (0 <= SSSP.req_dist x)%Z -> (mem (push wl x) it <-> it = x \/ mem wl it).

Lemma relax_sinv u x d wl e :
  PSInv u x d (mem wl) -> In e (edges g u) ->
  let st := SSSP.relax SSSP.ReqPushWrap push g (SSSP.Req u x) (d, wl) e in
  PSInv u x st.1 (mem st.2) /\
  (getData st.1 (getEdgeDst g e) <= x + getEdgeData g e)%Z.
Proof.
  intros HP He. unfold SSSP.relax.
  cbn [fst snd SSSP.dist SSSP.UpdateRequest_item SSSP.req_dist].
  rewrite (relax_no_wrap u x d _ e HP).
  destruct (Z.ltb_spec (x + getEdgeData g e) (getData d (getEdgeDst g e)))
    as [Hlt|Hge]; cbn [fst snd SSSP.ReqPushWrap fold_left].
  - destruct (weight_ok e) as [Hw0 _].
    destruct (ps_cur u x d _ HP) as (Hu & Hdu & Hpath).
    pose proof (ps_base u x d _ HP) as HB.
    pose proof (sb_range d HB u Hu) as Hru.
    split.
    + eapply PSInv_ext; [|by apply relax_write_inv].
      intros it. symmetry. apply Hpush. cbn. lia.
    + rewrite getData_setData_eq; [lia|].
      pose proof (wf_edge_dst g u e Hwf Hu He). by rewrite (sb_len d HB).
  - split; [done | lia].
Qed.

Lemma relax_fold_sinv u x es :
  forall d wl,
  PSInv u x d (mem wl) -> (forall e, In e es -> In e (edges g u)) ->
  let st := fold_left (SSSP.relax SSSP.ReqPushWrap push g (SSSP.Req u x))
                      es (d, wl) in
  PSInv u x st.1 (mem st.2) /\
  forall e, In e es ->
    (getData st.1 (getEdgeDst g e) <= x + getEdgeData g e)%Z.
Proof.
  induction es as [|e es IH]; intros d wl HP Hes; cbn [fold_left].
  - split; [done | by intros e []].
  - destruct (relax_sinv u x d wl e HP (Hes e (or_introl eq_refl)))
      as [HP1 Hle1].
    pose proof (relax_fold_le SSSP.ReqPushWrap push g (SSSP.Req u x) es
                  (SSSP.relax SSSP.ReqPushWrap push g (SSSP.Req u x) (d, wl) e))
      as Hmono.
    destruct (SSSP.relax SSSP.ReqPushWrap push g (SSSP.Req u x) (d, wl) e)
      as [d1 wl1].
    cbn [fst snd] in *.
    destruct (IH d1 wl1 HP1 (fun e' H => Hes e' (or_intror H))) as [HP2 Hle2].
    split; [done|]. intros e' [<-|Hin]; [|by apply Hle2].
    specialize (Hmono (getEdgeDst g e)). lia.
Qed.

(** One item: popped from [wl0], leaving [wl], and processed. *)
Lemma item_sinv item d wl0 wl :
  SInv d (mem wl0) -> mem wl0 item ->
  (forall it, mem wl0 it -> it = item \/ mem wl it) ->
  (forall it, mem wl it -> mem wl0 it) ->
  let st :=
    if (getData d (SSSP.src item) <? SSSP.dist item)%Z then (d, wl)
    else fold_left (SSSP.relax SSSP.ReqPushWrap push g item)
                   (SSSP.OutEdgeRangeFn g item) (d, wl) in
  SInv st.1 (mem st.2).
Proof.
  intros HS Hitem Hout Hin.
  cbn [SSSP.src SSSP.dist SSSP.UpdateRequest_item].
  destruct (Z.ltb_spec (getData d (SSSP.req_src item)) (SSSP.req_dist item))
    as [Hlt|Hge]; cbn zeta.
  - by apply (SInv_stale d (mem wl0) (mem wl) item).
  - pose proof (SInv_take d (mem wl0) (mem wl) item HS Hitem Hout Hin
                  ltac:(lia)) as HP.
    destruct item as [u x]. cbn [SSSP.req_src SSSP.req_dist] in *.
    destruct (relax_fold_sinv u x (SSSP.OutEdgeRangeFn g (SSSP.Req u x)) d wl
                HP (fun e H => H)) as [HP' Hrel].
    by apply (PSInv_done u x).
Qed.

End Worklist.

(** *** [dijkstraAlgo] *)

Lemma In_heap_insert {T} (ltb : T -> T -> bool) x h y :
  In y (SSSP.heap_insert ltb x h) <-> y = x \/ In y h.
Proof.
  induction h as [|z h IH]; cbn [SSSP.heap_insert].
  - cbn. intuition.
  - destruct (ltb x z); cbn [In]; [intuition | rewrite IH; intuition].
Qed.

Lemma length_heap_insert {T} (ltb : T -> T -> bool) x h :
  length (SSSP.heap_insert ltb x h) = S (length h).
Proof.
  induction h as [|z h IH]; cbn [SSSP.heap_insert]; [done|].
  destruct (ltb x z); cbn [length]; [done | by rewrite IH].
Qed.

Lemma dijkstraLoop_sinv fuel :
  forall st,
  SInv st.1 (fun it => In it st.2) ->
  match SSSP.dijkstraLoop (H0 := SSSP.MinHeap SSSP.req_ltb)
          SSSP.ReqPushWrap (SSSP.OutEdgeRangeFn g) fuel g st with
  | Some r => sssp_result INF g s r
  | None => True
  end.
Proof.
  assert (Hnil : forall d, SInv d (fun it => In it []) -> sssp_result INF g s d).
  { intros d HS. apply (SInv_result d _ HS). by intros it []. }
  induction fuel as [|fuel IH]; intros [d h] HS;
    cbn [SSSP.dijkstraLoop fst snd SSSP.heap_empty SSSP.heap_pop SSSP.MinHeap].
  - destruct h; [by apply Hnil | done].
  - destruct h as [|item h]; cbn [SSSP.is_nil]; [by apply Hnil|].
    apply IH. unfold SSSP.dijkstraStep. cbn [fst snd SSSP.heap_push SSSP.MinHeap].
    apply (item_sinv (fun wl x => SSSP.heap_insert SSSP.req_ltb x wl)
             (fun wl it => In it wl)) with (wl0 := item :: h).
    + intros wl x it _. apply In_heap_insert.
    + done.
    + by left.
    + by intros it [<-|H]; [left | right].
    + by intros it H; right.
Qed.

End ShortestPaths.

(** *** Termination: every write pays for the request it pushes *)

Section Measure.

Variable g : Graph.
Context {WL : Type}.
Variable push : WL -> SSSP.UpdateRequest -> WL.
Variable size : WL -> nat.
Hypothesis Hsize : forall wl x,
  (0 <= SSSP.req_dist x)%Z -> size (push wl x) <= S (size wl).

Lemma relax_measure item d wl e :
  data_ok d ->
  let st := SSSP.relax SSSP.ReqPushWrap push g item (d, wl) e in
  data_ok st.1 /\ measure st.1 + size st.2 <= measure d + size wl.
Proof.
  intros Hok. unfold SSSP.relax. cbn [fst snd].
  pose proof (wrap_nonneg (SSSP.dist item + getEdgeData g e)) as Hnd.
  set (nd := wrap _) in *.
  destruct (Z.ltb_spec nd (getData d (getEdgeDst g e))) as [Hlt|Hge];
    cbn [fst snd SSSP.ReqPushWrap fold_left]; [|done].
  destruct (measure_write d (getEdgeDst g e) nd Hok ltac:(lia)) as [Hok' Hm].
  split; [done|].
  pose proof (Hsize wl (SSSP.Req (getEdgeDst g e) nd) Hnd). lia.
Qed.

Lemma relax_fold_measure item es :
  forall d wl,
  data_ok d ->
  let st := fold_left (SSSP.relax SSSP.ReqPushWrap push g item) es (d, wl) in
  data_ok st.1 /\ measure st.1 + size st.2 <= measure d + size wl.
Proof.
  induction es as [|e es IH]; intros d wl Hok; cbn [fold_left]; [done|].
  destruct (relax_measure item d wl e Hok) as [Hok1 Hm1].
  destruct (SSSP.relax SSSP.ReqPushWrap push g item (d, wl) e) as [d1 wl1].
  cbn [fst snd] in *.
  destruct (IH d1 wl1 Hok1) as [Hok2 Hm2]. split; [done | lia].
Qed.

End Measure.

Lemma dijkstraLoop_terminates g fuel :
  forall st,
  data_ok st.1 -> measure st.1 + length st.2 <= fuel ->
  exists r,
    SSSP.dijkstraLoop (H0 := SSSP.MinHeap SSSP.req_ltb)
      SSSP.ReqPushWrap (SSSP.OutEdgeRangeFn g) fuel g st = Some r.
Proof.
  induction fuel as [|fuel IH]; intros [d h] Hok Hm;
    cbn [SSSP.dijkstraLoop fst snd SSSP.heap_empty SSSP.heap_pop SSSP.MinHeap]
    in *.
  - destruct h; [by eexists | simpl in Hm; lia].
  - destruct h as [|item h]; cbn [SSSP.is_nil]; [by eexists|].
    apply IH; unfold SSSP.dijkstraStep;
      cbn [fst snd SSSP.heap_push SSSP.MinHeap];
      destruct (getData d (SSSP.src item) <? SSSP.dist item)%Z;
      cbn [fst snd]; try done; try (simpl in Hm; lia).
    + apply (relax_fold_measure g
               (fun wl x => SSSP.heap_insert SSSP.req_ltb x wl) (@length _)).
      * intros wl x _. cbn beta. by rewrite length_heap_insert.
      * done.
    + destruct (relax_fold_measure g
                  (fun wl x => SSSP.heap_insert SSSP.req_ltb x wl) (@length _)
                  ltac:(intros wl x _; cbn beta; by rewrite length_heap_insert)
                  item (SSSP.OutEdgeRangeFn g item) d h Hok) as [_ Hm'].
      simpl in Hm. lia.
Qed.

Lemma measure_source d source :
  data_ok d ->
  data_ok (setData d source 0%Z) /\ measure (setData d source 0%Z) <= measure d.
Proof.
  intros Hok. split; [by apply data_ok_setData|].
  destruct (Nat.lt_ge_cases source (length d)) as [Hlt|Hge].
  - unfold measure. rewrite sumData_setData by done.
    pose proof (getData_nonneg d source Hok). lia.
  - unfold setData. by rewrite list_insert_ge.
Qed.

Lemma dijkstraAlgo_returns g source d :
  data_ok d ->
  exists r,
    SSSP.dijkstraAlgo (H0 := SSSP.MinHeap SSSP.req_ltb)
      SSSP.ReqPushWrap (SSSP.OutEdgeRangeFn g)
      [] (S (measure d)) g source d = Some r.
Proof.
  intros Hok. unfold SSSP.dijkstraAlgo.
  destruct (measure_source d source Hok) as [Hok' Hm].
  apply dijkstraLoop_terminates; [done|].
  cbn [fst snd SSSP.ReqPushWrap fold_left SSSP.heap_push SSSP.MinHeap
       SSSP.heap_insert length]. lia.
Qed.

(** [dijkstraAlgo] on requests, as [trial] calls it, returns on every
    graph, well formed or not and whatever the weights, from any array of
    distances that holds no negative number: it makes at most one more
    turn than the distances add up to, since every request pushed is paid
    for by a distance that went down. *)
Theorem dijkstraAlgo_terminates g source d :
  data_ok d ->
  exists r,
    SSSP.dijkstraAlgo (H0 := SSSP.MinHeap SSSP.req_ltb)
      SSSP.ReqPushWrap (SSSP.OutEdgeRangeFn g)
      [] (S (measure d)) g source d = Some r.
Proof.
  intros Hok. by apply dijkstraAlgo_returns.
Qed.

Lemma dijkstraAlgo_terminates_witness :
  exists r,
    SSSP.dijkstraAlgo (H0 := SSSP.MinHeap SSSP.req_ltb)
      SSSP.ReqPushWrap (SSSP.OutEdgeRangeFn SSSP.graphWrap)
      [] (S (measure [7; 7; 7]%Z)) SSSP.graphWrap 0 [7; 7; 7]%Z = Some r.
Proof.
  apply dijkstraAlgo_terminates. unfold data_ok. repeat constructor; lia.
Defined.

Lemma dijkstraAlgo_result INF g s :
  wf_graph g = true -> s < graph_size g ->
  (0 <= INF < 2 ^ 32)%Z -> weights_bounded INF g = true ->
  exists d,
    SSSP.dijkstraAlgo (H0 := SSSP.MinHeap SSSP.req_ltb)
      SSSP.ReqPushWrap (SSSP.OutEdgeRangeFn g)
      [] (S (measure (initData INF g s))) g s (initData INF g s) = Some d /\
    length d = graph_size g /\
    forall v, v < graph_size g ->
      (getData d v <= INF)%Z /\
      (forall W, wpath g s v W -> (getData d v <= W)%Z) /\
      (getData d v = INF \/ wpath g s v (getData d v)).
Proof.
  intros Hwf Hs HINF Hw.
  destruct (dijkstraAlgo_returns g s (initData INF g s)) as [d Hrun].
  { apply data_ok_init. lia. }
  exists d. split; [done|].
  unfold SSSP.dijkstraAlgo in Hrun.
  pose proof (dijkstraLoop_sinv INF g s Hwf Hs HINF Hw
                (S (measure (initData INF g s)))
                (setData (initData INF g s) s 0%Z, [SSSP.Req s 0])) as Hinv.
  cbn [fst snd SSSP.ReqPushWrap fold_left SSSP.heap_push SSSP.MinHeap
       SSSP.heap_insert] in Hrun, Hinv.
  rewrite Hrun in Hinv. apply Hinv.
  eapply SInv_ext; [|by apply SInv_init].
  intros it. cbn. intuition.
Qed.

(** [dijkstraAlgo] on a well-formed graph whose weights cannot make a
    sum wrap around: it returns the shortest distances from the source,
    capped at [DIST_INFINITY]. No entry is above the weight of any path
    from the source to its node, and an entry below [DIST_INFINITY] is
    the weight of such a path. *)
Theorem dijkstraAlgo_shortest_paths INF g s :
  wf_graph g = true -> s < graph_size g ->
  (0 <= INF < 2 ^ 32)%Z -> weights_bounded INF g = true ->
  exists d,
    SSSP.dijkstraAlgo (H0 := SSSP.MinHeap SSSP.req_ltb)
      SSSP.ReqPushWrap (SSSP.OutEdgeRangeFn g)
      [] (S (measure (initData INF g s))) g s (initData INF g s) = Some d /\
    length d = graph_size g /\
    forall v, v < graph_size g ->
      (getData d v <= INF)%Z /\
      (forall W, wpath g s v W -> (getData d v <= W)%Z) /\
      (getData d v = INF \/ wpath g s v (getData d v)).
Proof.
  intros Hwf Hs HINF Hw. by apply dijkstraAlgo_result.
Qed.

Lemma dijkstraAlgo_shortest_paths_witness :
  exists d,
    SSSP.dijkstraAlgo (H0 := SSSP.MinHeap SSSP.req_ltb)
      SSSP.ReqPushWrap (SSSP.OutEdgeRangeFn SSSP.graphE2)
      [] (S (measure (initData 100 SSSP.graphE2 0))) SSSP.graphE2 0
      (initData 100 SSSP.graphE2 0) = Some d /\
    length d = graph_size SSSP.graphE2 /\
    forall v, v < graph_size SSSP.graphE2 ->
      (getData d v <= 100)%Z /\
      (forall W, wpath SSSP.graphE2 0 v W -> (getData d v <= W)%Z) /\
      (getData d v = 100%Z \/ wpath SSSP.graphE2 0 v (getData d v)).
Proof.
  apply dijkstraAlgo_shortest_paths;
    [reflexivity | vm_compute; lia | split; by vm_compute | reflexivity].
Defined.

(** *** [serDeltaAlgo]: the requests in the buckets *)

(** All requests of the worklist, bucket by bucket. *)
Definition wl_items {T} (wl : SSSP.SerialBucketWL T) : list T :=
  concat (SSSP.m_buckets wl) ++ SSSP.m_lastBucket wl.

Lemma concat_alter_snoc {T} (l : list (list T)) i x :
  i < length l ->
  Permutation (concat (alter (fun q => q ++ [x]) i l)) (x :: concat l).
Proof.
  revert i. induction l as [|q l IH]; intros [|i] Hi; simpl in Hi; try lia.
  - cbn. rewrite <- app_assoc. symmetry. apply Permutation_middle.
  - cbn. rewrite IH by lia. symmetry. apply Permutation_middle.
Qed.

Lemma concat_alter_drop {T} (l : list (list T)) i y q :
  l !! i = Some (y :: q) ->
  Permutation (y :: concat (alter (drop 1) i l)) (concat l).
Proof.
  revert i. induction l as [|q0 l IH]; intros [|i] Hi; try done.
  - cbn in Hi. injection Hi as ->. done.
  - cbn in Hi. cbn. rewrite <- (IH i Hi). apply Permutation_middle.
Qed.

Lemma concat_replicate_nil {T} k : concat (replicate k (@nil T)) = [].
Proof. induction k; [done|]. cbn. done. Qed.

Lemma concat_resize {T} (l : list (list T)) k :
  length l <= k -> concat (resize k [] l) = concat l.
Proof.
  intros Hk. rewrite resize_ge by done.
  by rewrite concat_app, concat_replicate_nil, app_nil_r.
Qed.

Lemma wl_push_items {T} (m_func : T -> Z) wl x :
  (0 <= m_func x)%Z ->
  Permutation (wl_items (SSSP.wl_push m_func wl x)) (x :: wl_items wl).
Proof.
  intros Hb. unfold SSSP.wl_push, wl_items.
  destruct (Z.ltb_spec (m_func x) (Z.of_nat (length (SSSP.m_buckets wl))))
    as [Hin|Hout]; cbn [SSSP.m_buckets SSSP.m_lastBucket].
  - rewrite concat_alter_snoc by lia. done.
  - destruct (Z.leb_spec SSSP.MAX_BUCKETS (m_func x)) as [Hbig|Hsmall];
      cbn [SSSP.m_buckets SSSP.m_lastBucket].
    + rewrite app_assoc. symmetry. apply Permutation_cons_append.
    + rewrite concat_alter_snoc by (rewrite length_resize; lia).
      rewrite concat_resize by lia. done.
Qed.

Lemma bucket_pop_items {T} (wl : SSSP.SerialBucketWL T) curr y rest :
  SSSP.bucket wl curr = y :: rest ->
  Permutation (y :: wl_items (SSSP.bucket_pop_front wl curr)) (wl_items wl).
Proof.
  unfold wl_items. destruct curr as [i|]; cbn [SSSP.bucket SSSP.bucket_pop_front
    SSSP.m_buckets SSSP.m_lastBucket]; intros Hb.
  - destruct (SSSP.m_buckets wl !! i) as [q|] eqn:Hq; [|done]. cbn in Hb.
    subst q. by rewrite <- (concat_alter_drop _ i y rest Hq).
  - rewrite Hb. cbn [drop]. apply Permutation_middle.
Qed.

Lemma allEmpty_items {T} (wl : SSSP.SerialBucketWL T) :
  SSSP.wl_allEmpty wl = true -> wl_items wl = [].
Proof.
  unfold SSSP.wl_allEmpty, SSSP.emptyImpl, wl_items. rewrite drop_0.
  intros [Hb Hl]%andb_prop.
  destruct (SSSP.m_lastBucket wl); [|done]. rewrite app_nil_r.
  induction (SSSP.m_buckets wl) as [|q l IH]; [done|].
  cbn in Hb. apply andb_prop in Hb as [Hq Hb].
  destruct q; [|done]. cbn. by apply IH.
Qed.

(** At the head of the outer loop the worklist is empty, or the bucket
    that [minBucket] returns is not. *)
Definition HeadInv {T} (wl : SSSP.SerialBucketWL T) : Prop :=
  SSSP.wl_empty wl = true \/ SSSP.bucket wl (SSSP.wl_minBucket wl) <> [].

Lemma skipEmpty_stop {T} (l : list (list T)) :
  SSSP.skipEmpty l < length l ->
  exists q, l !! SSSP.skipEmpty l = Some q /\ q <> [].
Proof.
  induction l as [|b l IH]; cbn [SSSP.skipEmpty]; [simpl; lia|].
  destruct b as [|x b]; cbn [SSSP.is_nil].
  - intros Hlt. simpl in Hlt. apply IH. lia.
  - intros _. by exists (x :: b).
Qed.

Lemma HeadInv_next {T} (wl : SSSP.SerialBucketWL T) :
  HeadInv (SSSP.wl_goToNextBucket wl).
Proof.
  unfold HeadInv, SSSP.wl_goToNextBucket, SSSP.wl_minBucket, SSSP.wl_empty,
    SSSP.emptyImpl. cbn [SSSP.m_minBucket SSSP.m_buckets SSSP.m_lastBucket].
  set (c := SSSP.m_minBucket wl). set (bs := SSSP.m_buckets wl).
  set (k := SSSP.skipEmpty (drop c bs)).
  destruct (Nat.ltb_spec (c + k) (length bs)) as [Hlt|Hge].
  - right. cbn [SSSP.bucket SSSP.m_buckets].
    destruct (skipEmpty_stop (drop c bs)) as (q & Hq & Hne).
    { rewrite length_drop. fold k. lia. }
    fold k in Hq. rewrite lookup_drop in Hq. by rewrite Hq.
  - cbn [SSSP.bucket SSSP.m_lastBucket].
    destruct (SSSP.m_lastBucket wl) as [|y l]; [|by right].
    left. by rewrite drop_ge by lia.
Qed.

Lemma idx_req_nonneg shift (x : SSSP.UpdateRequest) :
  (0 <= SSSP.req_dist x)%Z -> (0 <= SSSP.UpdateRequestIndexer shift x)%Z.
Proof.
  intros Hx. unfold SSSP.UpdateRequestIndexer. by apply Z.shiftr_nonneg.
Qed.

Lemma push_items shift wl (x : SSSP.UpdateRequest) :
  (0 <= SSSP.req_dist x)%Z ->
  Permutation (wl_items (SSSP.push shift wl x)) (x :: wl_items wl).
Proof. intros Hx. by apply wl_push_items, idx_req_nonneg. Qed.

Section SerDeltaTermination.

Variable g : Graph.
Variable shift : Z.

#[local] Abbreviation M st := (measure st.1 + length (wl_items st.2)).

Lemma drainBucket_terminates curr fuel :
  forall st : SSSP.State,
  data_ok st.1 -> M st <= fuel ->
  exists st',
    SSSP.drainBucket SSSP.ReqPushWrap (SSSP.OutEdgeRangeFn g) shift fuel g
      curr st = Some st' /\
    data_ok st'.1 /\ M st' <= M st /\
    (SSSP.bucket st.2 curr <> [] -> M st' < M st).
Proof.
  induction fuel as [|fuel IH]; intros [d wl] Hok Hm;
    cbn [SSSP.drainBucket fst snd] in *;
    destruct (SSSP.bucket wl curr) as [|item rest] eqn:Hb;
    try (exists (d, wl); by repeat split).
  - pose proof (Permutation_length (bucket_pop_items wl curr item rest Hb))
      as Hlen. simpl in Hlen. lia.
  - pose proof (Permutation_length (bucket_pop_items wl curr item rest Hb))
      as Hlen. simpl in Hlen.
    set (wl' := SSSP.bucket_pop_front wl curr) in *.
    destruct (getData d (SSSP.src item) <? SSSP.dist item)%Z.
    + destruct (IH (d, wl') Hok) as (st' & Hrun & Hok' & Hle & _);
        [cbn [fst snd]; lia|].
      exists st'. cbn [fst snd] in *. repeat split; try done; lia.
    + destruct (relax_fold_measure g (SSSP.push shift)
                  (fun wl => length (wl_items wl))
                  ltac:(intros w x Hx; cbn beta;
                        by rewrite (Permutation_length (push_items shift w x Hx)))
                  item (SSSP.OutEdgeRangeFn g item) d wl' Hok) as [Hok1 Hm1].
      destruct (fold_left _ _ _) as [d1 wl1]. cbn [fst snd] in *.
      destruct (IH (d1, wl1) Hok1) as (st' & Hrun & Hok' & Hle & _);
        [cbn [fst snd]; lia|].
      exists st'. cbn [fst snd] in *. repeat split; try done; lia.
Qed.

Lemma serDeltaLoop_terminates fuel :
  forall st : SSSP.State,
  data_ok st.1 -> HeadInv st.2 -> M st < fuel ->
  exists st',
    SSSP.serDeltaLoop SSSP.ReqPushWrap (SSSP.OutEdgeRangeFn g) shift fuel g st
    = Some st'.
Proof.
  induction fuel as [|fuel IH]; intros st Hok Hhead Hm; [lia|].
  cbn [SSSP.serDeltaLoop].
  destruct (SSSP.wl_empty st.2) eqn:He; [by eexists|].
  destruct Hhead as [Hhead|Hhead]; [congruence|].
  destruct (drainBucket_terminates (SSSP.wl_minBucket st.2) fuel st Hok
              ltac:(lia)) as (st1 & Hrun & Hok1 & _ & Hlt).
  rewrite Hrun. specialize (Hlt Hhead).
  apply IH; [done | apply HeadInv_next |].
  cbn [fst snd]. unfold wl_items in *.
  cbn [SSSP.wl_goToNextBucket SSSP.m_buckets SSSP.m_lastBucket]. lia.
Qed.

End SerDeltaTermination.

Lemma serDeltaAlgo_returns g source d stepShift :
  data_ok d ->
  SSSP.serDeltaAlgo SSSP.ReqPushWrap (SSSP.OutEdgeRangeFn g) stepShift
    (measure d + 2) g source d <> SSSP.OutOfFuel.
Proof.
  intros Hok. unfold SSSP.serDeltaAlgo.
  destruct (measure_source d source Hok) as [Hok' Hm].
  destruct (serDeltaLoop_terminates g stepShift (measure d + 2)
              (setData d source 0%Z,
               fold_left (SSSP.push stepShift) (SSSP.ReqPushWrap source 0%Z)
                         SSSP.wl_new)) as [st Hrun].
  - done.
  - right. cbn [fst snd SSSP.ReqPushWrap fold_left].
    unfold SSSP.push, SSSP.wl_push, SSSP.UpdateRequestIndexer.
    cbn [SSSP.dist SSSP.UpdateRequest_item SSSP.req_dist].
    rewrite Z.shiftr_0_l. by vm_compute.
  - cbn [fst snd SSSP.ReqPushWrap fold_left].
    rewrite (Permutation_length (push_items stepShift SSSP.wl_new
                                   (SSSP.Req source 0) ltac:(done))).
    cbn. lia.
  - rewrite Hrun. by destruct (negb _).
Qed.

(** [serDeltaAlgo] on requests, as [trial] calls it, never runs on for
    ever: on every graph, for every shift and from any array of distances
    without a negative number, the two loops together pop at most one
    request more than the distances add up to, and the call ends by
    returning or by its [std::abort()]. *)
Theorem serDeltaAlgo_terminates g source d stepShift :
  data_ok d ->
  SSSP.serDeltaAlgo SSSP.ReqPushWrap (SSSP.OutEdgeRangeFn g) stepShift
    (measure d + 2) g source d <> SSSP.OutOfFuel.
Proof.
  intros Hok. by apply serDeltaAlgo_returns.
Qed.

Lemma serDeltaAlgo_terminates_witness :
  SSSP.serDeltaAlgo SSSP.ReqPushWrap (SSSP.OutEdgeRangeFn SSSP.graphWrap) 13
    (measure [7; 7; 7]%Z + 2) SSSP.graphWrap 0 [7; 7; 7]%Z <> SSSP.OutOfFuel.
Proof.
  apply serDeltaAlgo_terminates. unfold data_ok. repeat constructor; lia.
Defined.

Section SerDeltaCorrect.

Variable INF : Z.
Variable g : Graph.
Variable s : GNode.
Variable shift : Z.
Hypothesis Hwf : wf_graph g = true.
Hypothesis Hs : s < graph_size g.
Hypothesis HINF : (0 <= INF < 2 ^ 32)%Z.
Hypothesis Hweights : weights_bounded INF g = true.

#[local] Abbreviation pending wl := (fun it => In it (wl_items wl)).

Lemma SInv_DInv d pend : SInv INF g s d pend -> DInv INF d.
Proof.
  intros [HB _ _] v.
  destruct (Nat.lt_ge_cases v (graph_size g)) as [Hv|Hv].
  - by apply (sb_range _ _ _ d HB).
  - rewrite getData_out; [lia|]. by rewrite (sb_len _ _ _ d HB).
Qed.

Lemma push_mem wl (x it : SSSP.UpdateRequest) :
  (0 <= SSSP.req_dist x)%Z ->
  In it (wl_items (SSSP.push shift wl x)) <-> it = x \/ In it (wl_items wl).
Proof.
  intros Hx. pose proof (push_items shift wl x Hx) as Hp. split.
  - intros Hin. apply (Permutation_in _ Hp) in Hin as [<-|Hin]; auto.
  - intros Hin. apply (Permutation_in _ (Permutation_sym Hp)).
    destruct Hin as [->|Hin]; [by left | by right].
Qed.

Lemma drainBucket_sinv curr fuel :
  forall st : SSSP.State,
  SInv INF g s st.1 (pending st.2) -> WLInv shift INF st.2 ->
  curr_ok st.2 curr ->
  match SSSP.drainBucket SSSP.ReqPushWrap (SSSP.OutEdgeRangeFn g) shift fuel g
          curr st with
  | Some st' => SInv INF g s st'.1 (pending st'.2) /\ WLInv shift INF st'.2
  | None => True
  end.
Proof.
  induction fuel as [|fuel IH]; intros [d wl] HS Hinv Hcurr;
    cbn [SSSP.drainBucket fst snd] in *.
  - by destruct (SSSP.bucket wl curr).
  - destruct (SSSP.bucket wl curr) as [|item rest] eqn:Hb; [done|].
    destruct (curr_item shift INF wl curr item rest Hinv Hcurr Hb)
      as [Hok Hge].
    destruct (bucket_pop_front_inv shift INF wl curr Hinv) as [Hinv1 Hmin1].
    pose proof (bucket_pop_items wl curr item rest Hb) as Hpop.
    set (wl' := SSSP.bucket_pop_front wl curr) in *.
    pose proof (item_sinv INF g s Hwf Hs HINF Hweights (SSSP.push shift)
                  (fun wl it => In it (wl_items wl)) push_mem item d wl wl' HS)
      as Hstep.
    cbn zeta in Hstep.
    destruct (getData d (SSSP.src item) <? SSSP.dist item)%Z.
    + apply (IH (d, wl')); [|done|].
      * apply Hstep.
        -- apply (Permutation_in _ Hpop). by left.
        -- intros it Hin.
           apply (Permutation_in _ (Permutation_sym Hpop)) in Hin
             as [<-|Hin]; auto.
        -- intros it Hin. apply (Permutation_in _ Hpop). by right.
      * unfold curr_ok. cbn [snd]. by rewrite Hmin1.
    + destruct (relax_fold_inv SSSP.ReqPushWrap shift INF g
                  (weight_ok INF g HINF Hweights) ReqPushWrap_dist
                  item (SSSP.OutEdgeRangeFn g item) d wl' Hinv1
                  (SInv_DInv d _ HS) Hok)
        as (Hinv2 & _ & Hmin2); [by rewrite Hmin1|].
      apply IH; [|done|].
      * apply Hstep.
        -- apply (Permutation_in _ Hpop). by left.
        -- intros it Hin.
           apply (Permutation_in _ (Permutation_sym Hpop)) in Hin
             as [<-|Hin]; auto.
        -- intros it Hin. apply (Permutation_in _ Hpop). by right.
      * unfold curr_ok. rewrite Hmin2, Hmin1. exact Hcurr.
Qed.

Lemma serDeltaLoop_sinv fuel :
  forall st : SSSP.State,
  SInv INF g s st.1 (pending st.2) -> WLInv shift INF st.2 ->
  match SSSP.serDeltaLoop SSSP.ReqPushWrap (SSSP.OutEdgeRangeFn g) shift fuel g
          st with
  | Some st' => sssp_result INF g s st'.1 /\ SSSP.wl_allEmpty st'.2 = true
  | None => True
  end.
Proof.
  assert (Hexit : forall st : SSSP.State,
            SInv INF g s st.1 (pending st.2) -> WLInv shift INF st.2 ->
            SSSP.wl_empty st.2 = true ->
            sssp_result INF g s st.1 /\ SSSP.wl_allEmpty st.2 = true).
  { intros st HS Hinv He.
    pose proof (wl_empty_allEmpty shift INF st.2 Hinv He) as Hall.
    split; [|done]. apply (SInv_result INF g s Hwf Hs HINF Hweights _ _ HS).
    intros it. cbn beta. rewrite (allEmpty_items _ Hall). by intros []. }
  induction fuel as [|fuel IH]; intros st HS Hinv; cbn [SSSP.serDeltaLoop].
  - destruct (SSSP.wl_empty st.2) eqn:He; [by apply Hexit | done].
  - destruct (SSSP.wl_empty st.2) eqn:He; [by apply Hexit|].
    pose proof (drainBucket_sinv (SSSP.wl_minBucket st.2) fuel st HS Hinv
                  (wl_minBucket_ok st.2)) as Hdrain.
    destruct (SSSP.drainBucket _ _ _ _ _ _ _) as [st1|]; [|done].
    destruct Hdrain as [HS1 Hinv1].
    apply (IH (st1.1, _)); [done | by apply wl_goToNextBucket_inv].
Qed.

End SerDeltaCorrect.

Lemma serDeltaAlgo_result INF g s stepShift :
  wf_graph g = true -> s < graph_size g ->
  (0 <= INF < 2 ^ 32)%Z -> weights_bounded INF g = true ->
  (0 <= stepShift)%Z ->
  exists d,
    SSSP.serDeltaAlgo SSSP.ReqPushWrap (SSSP.OutEdgeRangeFn g) stepShift
      (measure (initData INF g s) + 2) g s (initData INF g s)
    = SSSP.Finished d /\
    length d = graph_size g /\
    forall v, v < graph_size g ->
      (getData d v <= INF)%Z /\
      (forall W, wpath g s v W -> (getData d v <= W)%Z) /\
      (getData d v = INF \/ wpath g s v (getData d v)).
Proof.
  intros Hwf Hs HINF Hw Hshift.
  pose proof (serDeltaAlgo_returns g s (initData INF g s) stepShift
                (data_ok_init INF g s ltac:(lia))) as Hterm.
  unfold SSSP.serDeltaAlgo in *.
  pose proof (serDeltaLoop_sinv INF g s stepShift Hwf Hs HINF Hw
                (measure (initData INF g s) + 2)
                (setData (initData INF g s) s 0%Z,
                 fold_left (SSSP.push stepShift) (SSSP.ReqPushWrap s 0%Z)
                           SSSP.wl_new)) as Hinv.
  destruct (SSSP.serDeltaLoop _ _ _ _ _ _) as [st|]; [|done].
  destruct Hinv as [Hres Hall].
  - cbn [fst snd SSSP.ReqPushWrap fold_left].
    eapply SInv_ext; [|by apply SInv_init].
    intros it. cbn beta. rewrite (push_mem stepShift) by done. cbn. intuition.
  - cbn [fst snd SSSP.ReqPushWrap fold_left].
    apply (wl_push_fold_inv stepShift INF [SSSP.Req s 0] SSSP.wl_new
             (wl_new_inv stepShift INF)).
    + repeat constructor; cbn; lia.
    + repeat constructor. cbn. unfold idx, SSSP.UpdateRequestIndexer. cbn.
      by rewrite Z.shiftr_0_l.
  - rewrite Hall. cbn [negb]. exists st.1. split; [done|]. exact Hres.
Qed.

(** [serDeltaAlgo] on a well-formed graph whose weights cannot make a
    sum wrap around, with a shift that is not negative: it returns (it
    does not abort) the shortest distances from the source, capped at
    [DIST_INFINITY], the same array for every shift. *)
Theorem serDeltaAlgo_shortest_paths INF g s stepShift :
  wf_graph g = true -> s < graph_size g ->
  (0 <= INF < 2 ^ 32)%Z -> weights_bounded INF g = true ->
  (0 <= stepShift)%Z ->
  exists d,
    SSSP.serDeltaAlgo SSSP.ReqPushWrap (SSSP.OutEdgeRangeFn g) stepShift
      (measure (initData INF g s) + 2) g s (initData INF g s)
    = SSSP.Finished d /\
    length d = graph_size g /\
    forall v, v < graph_size g ->
      (getData d v <= INF)%Z /\
      (forall W, wpath g s v W -> (getData d v <= W)%Z) /\
      (getData d v = INF \/ wpath g s v (getData d v)).
Proof.
  intros Hwf Hs HINF Hw Hshift. by apply serDeltaAlgo_result.
Qed.

Lemma serDeltaAlgo_shortest_paths_witness :
  exists d,
    SSSP.serDeltaAlgo SSSP.ReqPushWrap (SSSP.OutEdgeRangeFn SSSP.graphE2) 13
      (measure (initData 100 SSSP.graphE2 0) + 2) SSSP.graphE2 0
      (initData 100 SSSP.graphE2 0)
    = SSSP.Finished d /\
    length d = graph_size SSSP.graphE2 /\
    forall v, v < graph_size SSSP.graphE2 ->
      (getData d v <= 100)%Z /\
      (forall W, wpath SSSP.graphE2 0 v W -> (getData d v <= W)%Z) /\
      (getData d v = 100%Z \/ wpath SSSP.graphE2 0 v (getData d v)).
Proof.
  apply serDeltaAlgo_shortest_paths;
    [reflexivity | vm_compute; lia | split; by vm_compute | reflexivity | lia].
Defined.

(** *** [deltaStepAlgo]: every order of the operator calls *)

Section DeltaStepCorrect.

Variable INF : Z.
Variable g : Graph.
Variable s : GNode.
Hypothesis Hwf : wf_graph g = true.
Hypothesis Hs : s < graph_size g.
Hypothesis HINF : (0 <= INF < 2 ^ 32)%Z.
Hypothesis Hweights : weights_bounded INF g = true.

#[local] Abbreviation op :=
  (SSSP.deltaStepOp SSSP.ReqPushWrap (SSSP.OutEdgeRangeFn g) g).

Lemma deltaRelax_sinv rest u x d ctx e :
  PSInv INF g s u x d (fun it => In it (rest ++ ctx)) -> In e (edges g u) ->
  let st := SSSP.deltaRelax SSSP.ReqPushWrap g (SSSP.Req u x) (d, ctx) e in
  PSInv INF g s u x st.1 (fun it => In it (rest ++ st.2)) /\
  (getData st.1 (getEdgeDst g e) <= x + getEdgeData g e)%Z.
Proof.
  intros HP He. unfold SSSP.deltaRelax, SSSP.atomicMin.
  cbn [fst snd SSSP.src SSSP.UpdateRequest_item SSSP.req_src].
  destruct (ps_cur _ _ _ _ _ _ _ HP) as (Hu & Hdu & Hpath).
  pose proof (ps_base _ _ _ _ _ _ _ HP) as HB.
  rewrite Hdu, (relax_no_wrap INF g s Hs HINF Hweights u x d _ e HP).
  destruct (Z.ltb_spec (x + getEdgeData g e) (getData d (getEdgeDst g e)))
    as [Hlt|Hge]; cbn [fst snd SSSP.ReqPushWrap].
  - split.
    + eapply PSInv_ext;
        [|by apply (relax_write_inv INF g s Hwf Hs HINF Hweights u x d _ e HP)].
      intros it. cbn beta. rewrite !in_app_iff. cbn. intuition.
    + rewrite getData_setData_eq; [lia|].
      pose proof (wf_edge_dst g u e Hwf Hu He).
      by rewrite (sb_len _ _ _ d HB).
  - split; [done | lia].
Qed.

Lemma deltaRelax_fold_sinv rest u x es :
  forall d ctx,
  PSInv INF g s u x d (fun it => In it (rest ++ ctx)) ->
  (forall e, In e es -> In e (edges g u)) ->
  let st := fold_left (SSSP.deltaRelax SSSP.ReqPushWrap g (SSSP.Req u x))
                      es (d, ctx) in
  PSInv INF g s u x st.1 (fun it => In it (rest ++ st.2)) /\
  forall e, In e es ->
    (getData st.1 (getEdgeDst g e) <= x + getEdgeData g e)%Z.
Proof.
  induction es as [|e es IH]; intros d ctx HP Hes; cbn [fold_left].
  - split; [done | by intros e []].
  - destruct (deltaRelax_sinv rest u x d ctx e HP (Hes e (or_introl eq_refl)))
      as [HP1 Hle1].
    assert (Hmono : forall st,
              le_data (fold_left (SSSP.deltaRelax SSSP.ReqPushWrap g
                                    (SSSP.Req u x)) es st).1 st.1).
    { clear. induction es as [|e' es IH']; intros st; cbn [fold_left].
      - apply le_data_refl.
      - eapply le_data_trans; [apply IH' | apply deltaRelax_le]. }
    specialize (Hmono (SSSP.deltaRelax SSSP.ReqPushWrap g (SSSP.Req u x)
                         (d, ctx) e)).
    destruct (SSSP.deltaRelax SSSP.ReqPushWrap g (SSSP.Req u x) (d, ctx) e)
      as [d1 ctx1].
    cbn [fst snd] in *.
    destruct (IH d1 ctx1 HP1 (fun e' H => Hes e' (or_intror H))) as [HP2 Hle2].
    split; [done|]. intros e' [<-|Hin]; [|by apply Hle2].
    specialize (Hmono (getEdgeDst g e)). lia.
Qed.

(** One call of the operator, on any item of the worklist. *)
Lemma deltaStepOp_sinv d wl1 item wl2 :
  SInv INF g s d (fun it => In it (wl1 ++ item :: wl2)) ->
  let st := op item (d, []) in
  SInv INF g s st.1 (fun it => In it (wl1 ++ wl2 ++ st.2)).
Proof.
  intros HS. unfold SSSP.deltaStepOp.
  cbn [fst snd SSSP.src SSSP.dist SSSP.UpdateRequest_item].
  assert (Hout : forall it, In it (wl1 ++ item :: wl2) ->
                   it = item \/ In it ((wl1 ++ wl2) ++ [])).
  { intros it. rewrite app_nil_r, !in_app_iff. cbn. intuition. }
  assert (Hin : forall it, In it ((wl1 ++ wl2) ++ []) ->
                  In it (wl1 ++ item :: wl2)).
  { intros it. rewrite app_nil_r, !in_app_iff. cbn. intuition. }
  assert (Hitem : In item (wl1 ++ item :: wl2)).
  { rewrite in_app_iff. right. by left. }
  destruct (Z.ltb_spec (getData d (SSSP.req_src item)) (SSSP.req_dist item))
    as [Hlt|Hge]; cbn zeta; cbn [fst snd].
  - rewrite app_nil_r.
    eapply SInv_ext;
      [|exact (SInv_stale INF g s Hs d _ _ item HS Hout Hin Hlt)].
    intros it. cbn beta. by rewrite app_nil_r.
  - pose proof (SInv_take INF g s Hs d _ _ item HS Hitem Hout Hin ltac:(lia))
      as HP.
    destruct item as [u x]. cbn [SSSP.req_src SSSP.req_dist] in *.
    destruct (deltaRelax_fold_sinv (wl1 ++ wl2) u x
                (SSSP.OutEdgeRangeFn g (SSSP.Req u x)) d [] HP (fun e H => H))
      as [HP' Hrel].
    eapply SInv_ext;
      [|exact (PSInv_done INF g s u x _ _ HP' Hrel)].
    intros it. cbn beta. by rewrite app_assoc.
Qed.

Lemma for_each_run_sinv st r :
  SSSP.for_each_run op st r ->
  SInv INF g s st.1 (fun it => In it st.2) -> sssp_result INF g s r.
Proof.
  induction 1 as [d|d wl1 item wl2 st' r Hop Hrun IH]; cbn [fst snd].
  - intros HS. apply (SInv_result INF g s Hwf Hs HINF Hweights d _ HS).
    by intros it [].
  - intros HS. apply IH. cbn [fst snd]. subst st'.
    by apply deltaStepOp_sinv.
Qed.

End DeltaStepCorrect.

Lemma deltaRelax_measure g item d ctx e :
  data_ok d ->
  let st := SSSP.deltaRelax SSSP.ReqPushWrap g item (d, ctx) e in
  data_ok st.1 /\ measure st.1 + length st.2 <= measure d + length ctx.
Proof.
  intros Hok. unfold SSSP.deltaRelax, SSSP.atomicMin. cbn [fst snd].
  pose proof (wrap_nonneg (getData d (SSSP.src item) + getEdgeData g e)) as Hnd.
  set (nd := wrap _) in *.
  destruct (Z.ltb_spec nd (getData d (getEdgeDst g e))) as [Hlt|Hge];
    cbn [fst snd SSSP.ReqPushWrap]; [|done].
  destruct (measure_write d (getEdgeDst g e) nd Hok ltac:(lia)) as [Hok' Hm].
  split; [done|]. rewrite length_app. simpl. lia.
Qed.

Lemma deltaStepOp_measure g item d :
  data_ok d ->
  let st := SSSP.deltaStepOp SSSP.ReqPushWrap (SSSP.OutEdgeRangeFn g) g item
              (d, []) in
  data_ok st.1 /\ measure st.1 + length st.2 <= measure d.
Proof.
  intros Hok. unfold SSSP.deltaStepOp. cbn [fst snd].
  destruct (getData d (SSSP.src item) <? SSSP.dist item)%Z;
    [cbn; split; [done | lia]|].
  assert (Hfold : forall es d ctx, data_ok d ->
            let st := fold_left (SSSP.deltaRelax SSSP.ReqPushWrap g item) es
                                (d, ctx) in
            data_ok st.1 /\ measure st.1 + length st.2 <= measure d + length ctx).
  { clear. induction es as [|e es IH]; intros d ctx Hok; cbn [fold_left];
      [done|].
    destruct (deltaRelax_measure g item d ctx e Hok) as [Hok1 Hm1].
    destruct (SSSP.deltaRelax SSSP.ReqPushWrap g item (d, ctx) e) as [d1 c1].
    cbn [fst snd] in *.
    destruct (IH d1 c1 Hok1) as [Hok2 Hm2]. split; [done | lia]. }
  destruct (Hfold (SSSP.OutEdgeRangeFn g item) d [] Hok) as [Hok' Hm].
  split; [done|]. simpl in Hm. lia.
Qed.

Lemma for_each_run_exists g fuel :
  forall st,
  data_ok st.1 -> measure st.1 + length st.2 <= fuel ->
  exists r,
    SSSP.for_each_run
      (SSSP.deltaStepOp SSSP.ReqPushWrap (SSSP.OutEdgeRangeFn g) g) st r.
Proof.
  induction fuel as [|fuel IH]; intros [d wl] Hok Hm; cbn [fst snd] in *.
  - destruct wl; [|simpl in Hm; lia]. exists d. constructor.
  - destruct wl as [|item wl]; [exists d; constructor|].
    destruct (deltaStepOp_measure g item d Hok) as [Hok' Hm'].
    destruct (IH ((SSSP.deltaStepOp SSSP.ReqPushWrap (SSSP.OutEdgeRangeFn g) g
                     item (d, [])).1,
                  [] ++ wl ++
                  (SSSP.deltaStepOp SSSP.ReqPushWrap (SSSP.OutEdgeRangeFn g) g
                     item (d, [])).2)) as [r Hrun].
    + done.
    + cbn [fst snd app]. rewrite length_app. simpl in Hm. lia.
    + exists r. by apply (SSSP.for_each_step _ d [] item wl _ r eq_refl).
Qed.

Lemma deltaStepAlgo_returns g source d :
  data_ok d ->
  (forall d' wl1 item wl2,
     data_ok d' ->
     let st := SSSP.deltaStepOp SSSP.ReqPushWrap (SSSP.OutEdgeRangeFn g) g
                 item (d', []) in
     data_ok st.1 /\
     measure st.1 + length (wl1 ++ wl2 ++ st.2)
     < measure d' + length (wl1 ++ item :: wl2)) /\
  exists r,
    SSSP.deltaStepAlgo SSSP.ReqPushWrap (SSSP.OutEdgeRangeFn g) g source d r.
Proof.
  intros Hok. split.
  - intros d' wl1 item wl2 Hok'.
    destruct (deltaStepOp_measure g item d' Hok') as [Hok1 Hm].
    split; [done|]. rewrite !length_app. simpl. lia.
  - unfold SSSP.deltaStepAlgo.
    destruct (measure_source d source Hok) as [Hok' Hm].
    apply (for_each_run_exists g (S (measure d))); [done|].
    cbn [fst snd SSSP.ReqPushWrap length]. lia.
Qed.

(** The loop of [deltaStepAlgo] cannot go on for ever, whatever item the
    worklist hands out next: on every graph and from any array of
    distances without a negative number, a call of the operator lowers
    the sum of the distances plus the number of waiting items, so that
    many calls at most are made; and there is a run to the end. *)
Theorem deltaStepAlgo_terminates g source d :
  data_ok d ->
  (forall d' wl1 item wl2,
     data_ok d' ->
     let st := SSSP.deltaStepOp SSSP.ReqPushWrap (SSSP.OutEdgeRangeFn g) g
                 item (d', []) in
     data_ok st.1 /\
     measure st.1 + length (wl1 ++ wl2 ++ st.2)
     < measure d' + length (wl1 ++ item :: wl2)) /\
  exists r,
    SSSP.deltaStepAlgo SSSP.ReqPushWrap (SSSP.OutEdgeRangeFn g) g source d r.
Proof.
  intros Hok. by apply deltaStepAlgo_returns.
Qed.

Lemma deltaStepAlgo_terminates_witness :
  (forall d' wl1 item wl2,
     data_ok d' ->
     let st := SSSP.deltaStepOp SSSP.ReqPushWrap
                 (SSSP.OutEdgeRangeFn SSSP.graphWrap) SSSP.graphWrap
                 item (d', []) in
     data_ok st.1 /\
     measure st.1 + length (wl1 ++ wl2 ++ st.2)
     < measure d' + length (wl1 ++ item :: wl2)) /\
  exists r,
    SSSP.deltaStepAlgo SSSP.ReqPushWrap (SSSP.OutEdgeRangeFn SSSP.graphWrap)
      SSSP.graphWrap 0 [7; 7; 7]%Z r.
Proof.
  apply deltaStepAlgo_terminates. unfold data_ok. repeat constructor; lia.
Defined.

Lemma deltaStepAlgo_result INF g s :
  wf_graph g = true -> s < graph_size g ->
  (0 <= INF < 2 ^ 32)%Z -> weights_bounded INF g = true ->
  (exists r,
     SSSP.deltaStepAlgo SSSP.ReqPushWrap (SSSP.OutEdgeRangeFn g) g s
       (initData INF g s) r) /\
  forall d,
    SSSP.deltaStepAlgo SSSP.ReqPushWrap (SSSP.OutEdgeRangeFn g) g s
      (initData INF g s) d ->
    length d = graph_size g /\
    forall v, v < graph_size g ->
      (getData d v <= INF)%Z /\
      (forall W, wpath g s v W -> (getData d v <= W)%Z) /\
      (getData d v = INF \/ wpath g s v (getData d v)).
Proof.
  intros Hwf Hs HINF Hw. split.
  - apply deltaStepAlgo_returns. apply data_ok_init. lia.
  - intros d Hrun. unfold SSSP.deltaStepAlgo in Hrun.
    apply (for_each_run_sinv INF g s Hwf Hs HINF Hw _ d Hrun).
    cbn [fst snd SSSP.ReqPushWrap].
    eapply SInv_ext; [|by apply SInv_init].
    intros it. cbn. intuition.
Qed.

(** [deltaStepAlgo] on a well-formed graph whose weights cannot make a
    sum wrap around: in whatever order the worklist hands out the items,
    the loop ends with the shortest distances from the source, capped at
    [DIST_INFINITY]; so all runs end with the same array, and there is a
    run. *)
Theorem deltaStepAlgo_shortest_paths INF g s :
  wf_graph g = true -> s < graph_size g ->
  (0 <= INF < 2 ^ 32)%Z -> weights_bounded INF g = true ->
  (exists r,
     SSSP.deltaStepAlgo SSSP.ReqPushWrap (SSSP.OutEdgeRangeFn g) g s
       (initData INF g s) r) /\
  forall d,
    SSSP.deltaStepAlgo SSSP.ReqPushWrap (SSSP.OutEdgeRangeFn g) g s
      (initData INF g s) d ->
    length d = graph_size g /\
    forall v, v < graph_size g ->
      (getData d v <= INF)%Z /\
      (forall W, wpath g s v W -> (getData d v <= W)%Z) /\
      (getData d v = INF \/ wpath g s v (getData d v)).
Proof.
  intros Hwf Hs HINF Hw. by apply deltaStepAlgo_result.
Qed.

Lemma deltaStepAlgo_shortest_paths_witness :
  (exists r,
     SSSP.deltaStepAlgo SSSP.ReqPushWrap (SSSP.OutEdgeRangeFn SSSP.graphE2)
       SSSP.graphE2 0 (initData 100 SSSP.graphE2 0) r) /\
  forall d,
    SSSP.deltaStepAlgo SSSP.ReqPushWrap (SSSP.OutEdgeRangeFn SSSP.graphE2)
      SSSP.graphE2 0 (initData 100 SSSP.graphE2 0) d ->
    length d = graph_size SSSP.graphE2 /\
    forall v, v < graph_size SSSP.graphE2 ->
      (getData d v <= 100)%Z /\
      (forall W, wpath SSSP.graphE2 0 v W -> (getData d v <= W)%Z) /\
      (getData d v = 100%Z \/ wpath SSSP.graphE2 0 v (getData d v)).
Proof.
  apply deltaStepAlgo_shortest_paths;
    [reflexivity | vm_compute; lia | split; by vm_compute | reflexivity].
Defined.

(** ** [topoAlgo] *)

(** *** Termination: every round that changes something lowers [oldDist] *)

Section TopoTermination.

Variable INF : Z.
Variable sched : nat -> list GNode -> list GNode.
Variable g : Graph.

Lemma topoRelax_ok n d e :
  data_ok d -> data_ok (SSSP.topoRelax g n d e).
Proof.
  intros Hok. unfold SSSP.topoRelax.
  destruct (atomicMin_write d (getEdgeDst g e)
              (wrap (getData d n + getEdgeData g e))) as [->|[_ ->]]; [done|].
  apply data_ok_setData; [done | apply wrap_nonneg].
Qed.

Lemma topoRelax_fold_ok n es :
  forall d, data_ok d -> data_ok (fold_left (SSSP.topoRelax g n) es d).
Proof.
  induction es as [|e es IH]; intros d Hok; cbn [fold_left]; [done|].
  by apply IH, topoRelax_ok.
Qed.

Lemma topoOp_measure d old c n :
  data_ok d -> data_ok old ->
  let st := SSSP.topoOp g (d, old, c) n in
  data_ok st.1.1 /\ data_ok st.1.2 /\
  ((st.2 = true /\ S (measure st.1.2) <= measure old) \/ st = (d, old, c)).
Proof.
  intros Hd Hold. unfold SSSP.topoOp.
  destruct (Z.ltb_spec (getData d n) (getData old n)) as [Hlt|Hge];
    cbn [fst snd]; [|by auto].
  pose proof (getData_nonneg d n Hd) as H0.
  destruct (measure_write old n (getData d n) Hold ltac:(lia)) as [Hok Hm].
  split; [by apply topoRelax_fold_ok|]. split; [done|]. by left.
Qed.

Lemma topoOp_fold_measure nodes :
  forall d old c,
  data_ok d -> data_ok old ->
  let st := fold_left (SSSP.topoOp g) nodes (d, old, c) in
  data_ok st.1.1 /\ data_ok st.1.2 /\
  ((st.2 = true /\ (c = true \/ S (measure st.1.2) <= measure old)) \/
   st.2 = false) /\
  measure st.1.2 <= measure old.
Proof.
  induction nodes as [|n nodes IH]; intros d old c Hd Hold; cbn [fold_left].
  - cbn [fst snd]. split; [done|]. split; [done|]. split; [|done].
    destruct c; auto.
  - destruct (topoOp_measure d old c n Hd Hold) as (Hd1 & Hold1 & Hstep).
    destruct (SSSP.topoOp g (d, old, c) n) as [[d1 old1] c1].
    cbn [fst snd] in *.
    destruct (IH d1 old1 c1 Hd1 Hold1) as (Hd2 & Hold2 & Hch & Hm).
    split; [done|]. split; [done|].
    destruct Hstep as [[-> Hlt]|[= -> -> ->]].
    + split; [|lia]. destruct Hch as [[Hc _]|Hc]; [|by right].
      left. split; [done|]. right. lia.
    + done.
Qed.

Lemma topoLoop_terminates fuel :
  forall d old rounds,
  data_ok d -> data_ok old -> measure old < fuel ->
  exists r, SSSP.topoLoop sched fuel g d old rounds = Some r.
Proof.
  induction fuel as [|fuel IH]; intros d old rounds Hd Hold Hm; [lia|].
  cbn [SSSP.topoLoop].
  destruct (topoOp_fold_measure (sched (S rounds) (seq 0 (graph_size g)))
              d old false Hd Hold) as (Hd1 & Hold1 & Hch & Hm1).
  destruct (fold_left _ _ _) as [[d1 old1] c1]. cbn [fst snd] in *.
  destruct c1; [|by eexists].
  apply IH; [done | done |].
  destruct Hch as [[_ [Hc|Hlt]]|Hc]; [done | lia | done].
Qed.

End TopoTermination.

Lemma topoAlgo_returns INF sched g source d :
  data_ok d -> (0 <= INF)%Z ->
  exists r,
    SSSP.topoAlgo INF sched (S (measure (replicate (graph_size g) INF)))
      g source d = Some r.
Proof.
  intros Hok HINF. unfold SSSP.topoAlgo.
  apply topoLoop_terminates; [by apply measure_source | | lia].
  unfold data_ok. apply List.Forall_forall. intros x Hx.
  apply list_elem_of_In, elem_of_replicate in Hx as [-> _]. done.
Qed.

(** [topoAlgo] returns on every graph, under every schedule of its
    [do_all] and from any array of distances without a negative number: a
    round that changes something lowers an entry of [oldDist], so the
    rounds are at most one more than the entries of the fresh [oldDist]
    add up to (the number of nodes times [DIST_INFINITY]). *)
Theorem topoAlgo_terminates INF sched g source d :
  data_ok d -> (0 <= INF)%Z ->
  exists r,
    SSSP.topoAlgo INF sched (S (measure (replicate (graph_size g) INF)))
      g source d = Some r.
Proof.
  intros Hok HINF. by apply topoAlgo_returns.
Qed.

Lemma topoAlgo_terminates_witness :
  exists r,
    SSSP.topoAlgo 9 (fun _ l => l)
      (S (measure (replicate (graph_size SSSP.graphWrap) 9%Z)))
      SSSP.graphWrap 0 [7; 7; 7]%Z = Some r.
Proof.
  apply topoAlgo_terminates; [|lia]. unfold data_ok. repeat constructor; lia.
Defined.

(** *** What it returns *)

Section TopoCorrect.

Variable INF : Z.
Variable g : Graph.
Variable s : GNode.
Hypothesis Hwf : wf_graph g = true.
Hypothesis Hs : s < graph_size g.
Hypothesis HINF : (0 <= INF < 2 ^ 32)%Z.
Hypothesis Hweights : weights_bounded INF g = true.

(** The write of a relaxation from [u], whose distance is [x]. *)
Lemma SBase_write u x d e :
  SBase INF g s d -> u < graph_size g -> getData d u = x ->
  wpath g s u x -> In e (edges g u) ->
  (x + getEdgeData g e < getData d (getEdgeDst g e))%Z ->
  SBase INF g s (setData d (getEdgeDst g e) (x + getEdgeData g e)) /\
  getEdgeDst g e <> u.
Proof.
  intros HB Hu Hdu Hpath He Hlt.
  destruct (weight_ok INF g HINF Hweights e) as [Hw0 HwB].
  pose proof (wf_edge_dst g u e Hwf Hu He) as Hv.
  pose proof (wpath_step g s u e x Hpath Hu He) as Hpv.
  set (v := getEdgeDst g e) in *. set (nd := (x + getEdgeData g e)%Z) in *.
  pose proof (sb_range _ _ _ d HB u Hu) as Hru.
  pose proof (sb_range _ _ _ d HB v Hv) as Hrv.
  assert (Hvu : v <> u) by (intros Heq; rewrite Heq in Hlt; lia).
  assert (Hvs : v <> s).
  { intros Heq. rewrite Heq, (sb_src _ _ _ d HB) in Hlt. lia. }
  assert (Hnew : getData (setData d v nd) v = nd).
  { apply getData_setData_eq. by rewrite (sb_len _ _ _ d HB). }
  assert (Hold : forall y, y <> v -> getData (setData d v nd) y = getData d y).
  { intros y Hy. by apply getData_setData_ne. }
  split; [|done]. split.
  - rewrite length_setData. apply (sb_len _ _ _ d HB).
  - intros y Hy. destruct (Nat.eq_dec y v) as [->|Hne].
    + rewrite Hnew. lia.
    + rewrite Hold by done. by apply (sb_range _ _ _ d HB).
  - rewrite Hold by done. apply (sb_src _ _ _ d HB).
  - intros y Hy. destruct (Nat.eq_dec y v) as [->|Hne].
    + right. by rewrite Hnew.
    + rewrite Hold by done. by apply (sb_sound _ _ _ d HB).
Qed.

(** The invariant between two nodes of a round: [oldDist] is above the
    distances, and where the two agree below [INF] the edges of the node
    are relaxed. *)
Record TInv (d old : NodeData) : Prop := {
  t_base : SBase INF g s d;
  t_len : length old = graph_size g;
  t_old : forall v, v < graph_size g ->
      (getData d v <= getData old v <= INF)%Z;
  t_rel : forall u, u < graph_size g -> getData old u = getData d u ->
      (getData d u < INF)%Z -> relaxed g d u
}.

(** The invariant inside the operator on node [n], whose distance is
    [x]. *)
Record TPInv (n : GNode) (x : Z) (d old : NodeData) : Prop := {
  tp_base : SBase INF g s d;
  tp_cur : n < graph_size g /\ getData d n = x /\ wpath g s n x;
  tp_len : length old = graph_size g;
  tp_old : forall v, v < graph_size g ->
      (getData d v <= getData old v <= INF)%Z;
  tp_rel : forall u, u < graph_size g -> u <> n ->
      getData old u = getData d u -> (getData d u < INF)%Z -> relaxed g d u
}.

Lemma relaxed_mono d d' u :
  le_data d' d -> getData d' u = getData d u -> relaxed g d u ->
  relaxed g d' u.
Proof.
  intros Hle Hu Hrel e He. specialize (Hrel e He).
  specialize (Hle (getEdgeDst g e)). lia.
Qed.

Lemma topoRelax_tinv n x d old e :
  TPInv n x d old -> In e (edges g n) ->
  let d' := SSSP.topoRelax g n d e in
  TPInv n x d' old /\ le_data d' d /\
  (getData d' (getEdgeDst g e) <= x + getEdgeData g e)%Z.
Proof.
  intros [HB (Hn & Hdn & Hpath) Hlen Hold Hrel] He.
  unfold SSSP.topoRelax, SSSP.atomicMin. cbn [snd].
  destruct (weight_ok INF g HINF Hweights e) as [Hw0 HwB].
  pose proof (sb_range _ _ _ d HB n Hn) as Hrn.
  assert (Hwrap : wrap (getData d n + getEdgeData g e)
                  = (x + getEdgeData g e)%Z).
  { rewrite Hdn. unfold wrap. apply Z.mod_small. lia. }
  rewrite Hwrap.
  destruct (Z.ltb_spec (x + getEdgeData g e) (getData d (getEdgeDst g e)))
    as [Hlt|Hge].
  - destruct (SBase_write n x d e HB Hn Hdn Hpath He Hlt) as [HB' Hne].
    pose proof (wf_edge_dst g n e Hwf Hn He) as Hv.
    set (v := getEdgeDst g e) in *. set (nd := (x + getEdgeData g e)%Z) in *.
    assert (Hnew : getData (setData d v nd) v = nd).
    { apply getData_setData_eq. by rewrite (sb_len _ _ _ d HB). }
    assert (Hle : le_data (setData d v nd) d).
    { apply le_data_setData. lia. }
    split; [|split; [done | lia]].
    split; [done | | done | |].
    + split; [done|]. split; [|done]. by rewrite getData_setData_ne.
    + intros y Hy. specialize (Hold y Hy). specialize (Hle y). lia.
    + intros u Hu Hun Heq Hfin. destruct (Nat.eq_dec u v) as [->|Huv].
      * rewrite Hnew in Heq. specialize (Hold v Hv). lia.
      * rewrite getData_setData_ne in Heq, Hfin by done.
        apply (relaxed_mono d); [done | by rewrite getData_setData_ne |].
        by apply Hrel.
  - split; [by split|]. split; [apply le_data_refl | lia].
Qed.

Lemma topoRelax_fold_tinv n x es :
  forall d old,
  TPInv n x d old -> (forall e, In e es -> In e (edges g n)) ->
  let d' := fold_left (SSSP.topoRelax g n) es d in
  TPInv n x d' old /\ le_data d' d /\
  forall e, In e es ->
    (getData d' (getEdgeDst g e) <= x + getEdgeData g e)%Z.
Proof.
  induction es as [|e es IH]; intros d old HP Hes; cbn [fold_left].
  - split; [done|]. split; [apply le_data_refl | by intros e []].
  - destruct (topoRelax_tinv n x d old e HP (Hes e (or_introl eq_refl)))
      as (HP1 & Hle1 & Hrel1).
    destruct (IH _ old HP1 (fun e' H => Hes e' (or_intror H)))
      as (HP2 & Hle2 & Hrel2).
    split; [done|]. split; [by eapply le_data_trans|].
    intros e' [<-|Hin]; [|by apply Hrel2].
    specialize (Hle2 (getEdgeDst g e)). lia.
Qed.

Lemma topoOp_tinv d old c n :
  TInv d old -> n < graph_size g ->
  let st := SSSP.topoOp g (d, old, c) n in
  TInv st.1.1 st.1.2 /\
  ((st.2 = true) \/
   (st = (d, old, c) /\ ~ (getData d n < getData old n)%Z)).
Proof.
  intros [HB Hlen Hold Hrel] Hn. unfold SSSP.topoOp.
  destruct (Z.ltb_spec (getData d n) (getData old n)) as [Hlt|Hge];
    cbn [fst snd]; [|split; [by split | right; split; [done | lia]]].
  split; [|by left].
  set (x := getData d n) in *.
  pose proof (Hold n Hn) as Hon.
  assert (Hpath : wpath g s n x).
  { destruct (sb_sound _ _ _ d HB n Hn) as [Hinf|Hp]; [|done]. fold x in Hinf. lia. }
  assert (Hnew : getData (setData old n x) n = x).
  { apply getData_setData_eq. by rewrite Hlen. }
  assert (HP : TPInv n x d (setData old n x)).
  { split; [done | by split | by rewrite length_setData | |].
    - intros v Hv. destruct (Nat.eq_dec v n) as [->|Hne].
      + rewrite Hnew. fold x. lia.
      + rewrite getData_setData_ne by done. by apply Hold.
    - intros u Hu Hun Heq Hfin. rewrite getData_setData_ne in Heq by done.
      by apply Hrel. }
  destruct (topoRelax_fold_tinv n x (edges g n) d _ HP (fun e H => H))
    as ([HB' (_ & Hdn' & _) Hlen' Hold' Hrel'] & Hle & Hrelaxed).
  split; [done | done | done |].
  intros u Hu Heq Hfin. destruct (Nat.eq_dec u n) as [->|Hne].
  - intros e He. rewrite Hdn'. by apply Hrelaxed.
  - by apply Hrel'.
Qed.

Lemma topoOp_fold_tinv nodes :
  forall d old c,
  TInv d old -> (forall v, In v nodes -> v < graph_size g) ->
  let st := fold_left (SSSP.topoOp g) nodes (d, old, c) in
  TInv st.1.1 st.1.2 /\
  (st.2 = false ->
   st.1 = (d, old) /\
   forall v, In v nodes -> ~ (getData d v < getData old v)%Z).
Proof.
  induction nodes as [|n nodes IH]; intros d old c HT Hnodes; cbn [fold_left].
  - split; [done|]. intros _. split; [done | by intros v []].
  - destruct (topoOp_tinv d old c n HT (Hnodes n (or_introl eq_refl)))
      as [HT1 Hstep].
    destruct (SSSP.topoOp g (d, old, c) n) as [[d1 old1] c1].
    cbn [fst snd] in *.
    destruct (IH d1 old1 c1 HT1 (fun v H => Hnodes v (or_intror H)))
      as [HT2 Hstay].
    split; [done|]. intros Hc. destruct (Hstay Hc) as [Heq Hall].
    assert (Hkeep : forall ns st,
              (fold_left (SSSP.topoOp g) ns st).2 = false -> st.2 = false).
    { clear. induction ns as [|m ns IHns]; intros st; cbn [fold_left]; [done|].
      intros H. apply IHns in H. revert H. destruct st as [[d old] c].
      unfold SSSP.topoOp. by destruct (_ <? _)%Z. }
    apply Hkeep in Hc. cbn [snd] in Hc. subst c1.
    destruct Hstep as [|[[= -> ->] Hn]]; [done|].
    split; [done|]. intros v [<-|Hin]; [done | by apply Hall].
Qed.

Variable sched : nat -> list GNode -> list GNode.
Hypothesis Hsched : forall r l, Permutation (sched r l) l.

Lemma topoLoop_tinv fuel :
  forall d old rounds,
  TInv d old ->
  match SSSP.topoLoop sched fuel g d old rounds with
  | Some r => sssp_result INF g s r
  | None => True
  end.
Proof.
  induction fuel as [|fuel IH]; intros d old rounds HT; [done|].
  cbn [SSSP.topoLoop].
  destruct (topoOp_fold_tinv (sched (S rounds) (seq 0 (graph_size g))) d old
              false HT) as [HT1 Hstay].
  { intros v Hv. apply (Permutation_in _ (Hsched _ _)) in Hv.
    apply in_seq in Hv. lia. }
  destruct (fold_left _ _ _) as [[d1 old1] c1]. cbn [fst snd] in *.
  destruct c1; [by apply IH|].
  destruct (Hstay eq_refl) as [[= -> ->] Hall].
  destruct HT as [HB Hlen Hold Hrel].
  apply (SInv_result INF g s Hwf Hs HINF Hweights d (fun _ => False));
    [|by intros it []].
  split; [done | by intros it [] |].
  intros u Hu Hfin. right. apply Hrel; [done | | done].
  specialize (Hold u Hu).
  assert (Hin : In u (sched (S rounds) (seq 0 (graph_size g)))).
  { apply (Permutation_in _ (Permutation_sym (Hsched _ _))).
    apply in_seq. lia. }
  specialize (Hall u Hin). lia.
Qed.

Lemma TInv_init :
  TInv (setData (initData INF g s) s 0%Z) (replicate (graph_size g) INF).
Proof.
  pose proof (s_base _ _ _ _ _ (SInv_init INF g s Hs HINF)) as HB.
  split; [done | by rewrite length_replicate | |].
  - intros v Hv. rewrite getData_replicate by done.
    pose proof (sb_range _ _ _ _ HB v Hv). lia.
  - intros u Hu Heq Hfin. rewrite getData_replicate in Heq by done. lia.
Qed.

End TopoCorrect.

Lemma topoAlgo_result INF sched g s :
  wf_graph g = true -> s < graph_size g ->
  (0 <= INF < 2 ^ 32)%Z -> weights_bounded INF g = true ->
  (forall r l, Permutation (sched r l) l) ->
  exists d,
    SSSP.topoAlgo INF sched (S (measure (replicate (graph_size g) INF)))
      g s (initData INF g s) = Some d /\
    length d = graph_size g /\
    forall v, v < graph_size g ->
      (getData d v <= INF)%Z /\
      (forall W, wpath g s v W -> (getData d v <= W)%Z) /\
      (getData d v = INF \/ wpath g s v (getData d v)).
Proof.
  intros Hwf Hs HINF Hw Hsched.
  destruct (topoAlgo_returns INF sched g s (initData INF g s)) as [d Hrun].
  { apply data_ok_init. lia. }
  { lia. }
  exists d. split; [done|]. unfold SSSP.topoAlgo in Hrun.
  pose proof (topoLoop_tinv INF g s Hwf Hs HINF Hw sched Hsched
                (S (measure (replicate (graph_size g) INF)))
                (setData (initData INF g s) s 0%Z)
                (replicate (graph_size g) INF) 0
                (TInv_init INF g s Hs HINF)) as Hinv.
  rewrite Hrun in Hinv. exact Hinv.
Qed.

(** [topoAlgo] on a well-formed graph whose weights cannot make a sum
    wrap around, under every schedule that hands out every node once in
    each round: it returns the shortest distances from the source, capped
    at [DIST_INFINITY]. *)
Theorem topoAlgo_shortest_paths INF sched g s :
  wf_graph g = true -> s < graph_size g ->
  (0 <= INF < 2 ^ 32)%Z -> weights_bounded INF g = true ->
  (forall r l, Permutation (sched r l) l) ->
  exists d,
    SSSP.topoAlgo INF sched (S (measure (replicate (graph_size g) INF)))
      g s (initData INF g s) = Some d /\
    length d = graph_size g /\
    forall v, v < graph_size g ->
      (getData d v <= INF)%Z /\
      (forall W, wpath g s v W -> (getData d v <= W)%Z) /\
      (getData d v = INF \/ wpath g s v (getData d v)).
Proof.
  intros Hwf Hs HINF Hw Hsched. by apply topoAlgo_result.
Qed.

Lemma topoAlgo_shortest_paths_witness :
  exists d,
    SSSP.topoAlgo 100 (fun _ l => l)
      (S (measure (replicate (graph_size SSSP.graphE2) 100%Z)))
      SSSP.graphE2 0 (initData 100 SSSP.graphE2 0) = Some d /\
    length d = graph_size SSSP.graphE2 /\
    forall v, v < graph_size SSSP.graphE2 ->
      (getData d v <= 100)%Z /\
      (forall W, wpath SSSP.graphE2 0 v W -> (getData d v <= W)%Z) /\
      (getData d v = 100%Z \/ wpath SSSP.graphE2 0 v (getData d v)).
Proof.
  apply topoAlgo_shortest_paths;
    [reflexivity | vm_compute; lia | split; by vm_compute | reflexivity
    | by intros r l].
Defined.

(** ** The variants of SSSP.cpp agree *)

(** On a well-formed graph whose weights cannot make a sum wrap around,
    [dijkstraAlgo], [serDeltaAlgo] (for every shift that is not
    negative), [topoAlgo] (under every schedule) and every run of the
    loop of [deltaStepAlgo] end with one and the same array of
    distances. *)
Theorem sssp_variants_agree INF sched stepShift g s :
  wf_graph g = true -> s < graph_size g ->
  (0 <= INF < 2 ^ 32)%Z -> weights_bounded INF g = true ->
  (0 <= stepShift)%Z -> (forall r l, Permutation (sched r l) l) ->
  exists d,
    SSSP.dijkstraAlgo (H0 := SSSP.MinHeap SSSP.req_ltb)
      SSSP.ReqPushWrap (SSSP.OutEdgeRangeFn g)
      [] (S (measure (initData INF g s))) g s (initData INF g s) = Some d /\
    SSSP.serDeltaAlgo SSSP.ReqPushWrap (SSSP.OutEdgeRangeFn g) stepShift
      (measure (initData INF g s) + 2) g s (initData INF g s)
    = SSSP.Finished d /\
    SSSP.topoAlgo INF sched (S (measure (replicate (graph_size g) INF)))
      g s (initData INF g s) = Some d /\
    forall r,
      SSSP.deltaStepAlgo SSSP.ReqPushWrap (SSSP.OutEdgeRangeFn g) g s
        (initData INF g s) r -> r = d.
Proof.
  intros Hwf Hs HINF Hw Hshift Hsched.
  destruct (dijkstraAlgo_result INF g s Hwf Hs HINF Hw) as (d & Hrun & Hres).
  destruct (serDeltaAlgo_result INF g s stepShift Hwf Hs HINF Hw Hshift)
    as (d2 & Hrun2 & Hres2).
  destruct (topoAlgo_result INF sched g s Hwf Hs HINF Hw Hsched)
    as (d3 & Hrun3 & Hres3).
  destruct (deltaStepAlgo_result INF g s Hwf Hs HINF Hw) as [_ Hres4].
  exists d. split; [done|].
  rewrite (sssp_result_unique INF g s d d2 Hres Hres2).
  split; [done|].
  rewrite (sssp_result_unique INF g s d2 d3 Hres2 Hres3).
  split; [done|].
  intros r Hr. apply (sssp_result_unique INF g s r d3); [|done].
  by apply Hres4.
Qed.

Lemma sssp_variants_agree_witness :
  exists d,
    SSSP.dijkstraAlgo (H0 := SSSP.MinHeap SSSP.req_ltb)
      SSSP.ReqPushWrap (SSSP.OutEdgeRangeFn SSSP.graphE2)
      [] (S (measure (initData 100 SSSP.graphE2 0))) SSSP.graphE2 0
      (initData 100 SSSP.graphE2 0) = Some d /\
    SSSP.serDeltaAlgo SSSP.ReqPushWrap (SSSP.OutEdgeRangeFn SSSP.graphE2) 13
      (measure (initData 100 SSSP.graphE2 0) + 2) SSSP.graphE2 0
      (initData 100 SSSP.graphE2 0)
    = SSSP.Finished d /\
    SSSP.topoAlgo 100 (fun _ l => l)
      (S (measure (replicate (graph_size SSSP.graphE2) 100%Z)))
      SSSP.graphE2 0 (initData 100 SSSP.graphE2 0) = Some d /\
    forall r,
      SSSP.deltaStepAlgo SSSP.ReqPushWrap (SSSP.OutEdgeRangeFn SSSP.graphE2)
        SSSP.graphE2 0 (initData 100 SSSP.graphE2 0) r -> r = d.
Proof.
  apply sssp_variants_agree;
    [reflexivity | vm_compute; lia | split; by vm_compute | reflexivity
    | lia | by intros r l].
Defined.

(** ** [serialAlgo]: one turn of the loop per reachable node *)

Section SerialOnce.

Variable INF : Z.
Variable g : Graph.
Variable s : GNode.
Hypothesis Hwf : wf_graph g = true.
Hypothesis Hs : s < graph_size g.
Hypothesis HINF : (Z.of_nat (graph_size g) <= INF < 2 ^ 32)%Z.

(** The nodes processed and the nodes waiting are all different, and all
    of them have their distance. *)
Definition once (d : NodeData) (wl : list BFS.UpdateRequest)
    (log : list GNode) : Prop :=
  List.NoDup (log ++ map BFS.req_n wl) /\
  forall v, In v (log ++ map BFS.req_n wl) ->
    v < graph_size g /\ visited INF d v.

Lemma serialRelax_once u w d wl log e :
  PInv INF g s u w d wl -> In e (edges g u) -> once d wl log ->
  let st := BFS.serialRelax INF g (BFS.Req u w) (d, wl) e in
  once st.1 st.2 log.
Proof.
  intros HP He [Hnd Hall].
  destruct (p_cur _ _ _ _ _ _ _ HP) as (Hu & Hvisu & Hdu).
  cbn [BFS.req_n BFS.req_w] in Hu, Hvisu, Hdu.
  pose proof (p_base _ _ _ _ _ _ _ HP) as HB.
  pose proof (wf_edge_dst g u e Hwf Hu He) as Hv.
  unfold BFS.serialRelax. cbn [fst snd BFS.req_w].
  set (v := getEdgeDst g e) in *.
  destruct (Z.eqb_spec (getData d v) INF) as [Hdv|Hdv]; cbn [fst snd];
    [|by split].
  assert (Hedge : has_edge g u v) by (split; [done | by exists e]).
  destruct (base_visit INF g s Hs HINF d u v HB Hu Hvisu Hedge Hv Hdv)
    as [_ Hw].
  replace (getData d u + 1)%Z with w in Hw by lia.
  assert (Hfresh : ~ In v (log ++ map BFS.req_n wl)).
  { intros Hin. by destruct (Hall v Hin) as [_ Hvis]. }
  unfold once. rewrite map_app. cbn [map BFS.req_n]. split.
  - apply (Permutation_NoDup (l := v :: log ++ map BFS.req_n wl)).
    + rewrite app_assoc. apply Permutation_cons_append.
    + by constructor.
  - intros x Hx. rewrite app_assoc in Hx.
    apply in_app_iff in Hx as [Hx|[<-|[]]].
    + destruct (Hall x Hx) as [Hxn Hvx]. split; [done|].
      unfold visited. rewrite getData_setData_ne; [done|].
      intros ->. by apply Hfresh.
    + split; [done|]. unfold visited.
      rewrite getData_setData_eq; [lia|]. by rewrite (base_len _ _ _ _ HB).
Qed.

Lemma serialRelax_fold_once u w log es :
  forall d wl,
  PInv INF g s u w d wl -> (forall e, In e es -> In e (edges g u)) ->
  once d wl log ->
  let st := fold_left (BFS.serialRelax INF g (BFS.Req u w)) es (d, wl) in
  once st.1 st.2 log.
Proof.
  induction es as [|e es IH]; intros d wl HP Hes HQ; cbn [fold_left]; [done|].
  pose proof (serialRelax_once u w d wl log e HP (Hes e (or_introl eq_refl)) HQ)
    as HQ1.
  destruct (serialRelax_inv INF g s Hwf Hs HINF u w d wl e HP
              (Hes e (or_introl eq_refl))) as (HP1 & _).
  destruct (BFS.serialRelax INF g (BFS.Req u w) (d, wl) e) as [d1 wl1].
  cbn [fst snd] in *.
  apply IH; [done | | done]. intros e' H. apply Hes. by right.
Qed.

Lemma serialLoopL_once fuel :
  forall d wl log,
  Inv INF g s d wl -> once d wl log ->
  match BFS.serialLoopL INF fuel g d wl log with
  | Some (d', log') =>
      List.NoDup log' /\
      forall v, In v log' -> v < graph_size g /\ visited INF d' v
  | None => True
  end.
Proof.
  assert (Hnil : forall d log, once d [] log ->
            List.NoDup log /\
            forall v, In v log -> v < graph_size g /\ visited INF d v).
  { intros d log [Hnd Hall]. cbn [map] in *. by rewrite app_nil_r in *. }
  induction fuel as [|fuel IH]; intros d wl log HI HQ;
    cbn [BFS.serialLoopL]; destruct wl as [|r wl]; try done;
    try by apply Hnil.
  pose proof (Inv_PInv INF g s r wl d HI) as HP.
  assert (Hr : BFS.Req (BFS.req_n r) (BFS.req_w r) = r) by by destruct r.
  assert (HQ0 : once d wl (log ++ [BFS.req_n r])).
  { destruct HQ as [Hnd Hall]. cbn [map] in *. unfold once.
    rewrite <- app_assoc. cbn [app]. by split. }
  destruct (serialRelax_fold INF g s Hwf Hs HINF (BFS.req_n r) (BFS.req_w r)
              (edges g (BFS.req_n r)) d wl HP (fun e H => H))
    as (HP' & Hok & _).
  pose proof (serialRelax_fold_once (BFS.req_n r) (BFS.req_w r)
                (log ++ [BFS.req_n r]) (edges g (BFS.req_n r)) d wl HP
                (fun e H => H) HQ0) as HQ'.
  rewrite Hr in *.
  destruct (fold_left (BFS.serialRelax INF g r) (edges g (BFS.req_n r)) (d, wl))
    as [d1 wl1].
  cbn [fst snd] in *.
  apply IH; [|done]. by eapply (PInv_Inv INF g s Hs).
Qed.

End SerialOnce.

(** [serialAlgo] makes one turn of its loop for every node reachable from
    the source and none for any other node: no node is processed twice,
    so the iteration count it reports is the number of reachable nodes. *)
Theorem serialAlgo_each_node_once INF g s :
  wf_graph g = true -> s < graph_size g ->
  (Z.of_nat (graph_size g) <= INF < 2 ^ 32)%Z ->
  exists d processed,
    BFS.serialAlgo INF (graph_size g) g s (initData INF g s) = Some d /\
    BFS.serialAlgoL INF (graph_size g) g s (initData INF g s)
    = Some (d, processed) /\
    List.NoDup processed /\
    forall v, In v processed <-> reachable g s v.
Proof.
  intros Hwf Hs HINF.
  destruct (serialAlgo_correct INF g s Hwf Hs HINF (graph_size g) (le_n _))
    as (d & Hrun & HB & Hcl).
  pose proof (base_init INF g s Hs) as HB0.
  set (d0 := setData (initData INF g s) s 0%Z) in *.
  pose proof (serialLoopL_erase INF g (graph_size g) d0 [BFS.Req s 1%Z] [])
    as Her.
  pose proof (serialLoopL_processed INF (graph_size g) g (graph_size g)
                d0 [BFS.Req s 1%Z] []) as Hpr.
  pose proof (serialLoopL_once INF g s Hwf Hs HINF (graph_size g)
                d0 [BFS.Req s 1%Z] []) as Honce.
  unfold BFS.serialAlgoL, BFS.serialAlgo in *. fold d0 in Hrun |- *.
  rewrite Hrun in Her.
  destruct (BFS.serialLoopL INF (graph_size g) g d0 [BFS.Req s 1%Z] [])
    as [[d' processed]|]; [|done].
  injection Her as ->.
  exists d, processed. split; [done|]. split; [done|].
  destruct Honce as [Hnd Hall].
  - split; [done|]. split; [|split].
    + constructor; [|constructor]. split; [done|].
      split; [by apply (base_src_visited INF g s Hs HINF)|].
      cbn. by rewrite (base_src _ _ _ _ HB0).
    + intros x e Hx Hvx He. right. exists (BFS.Req s 1).
      split; [by left|]. cbn. symmetry. by apply (init_visited INF g s Hs).
    + split; [by exists [], []|].
      intros v Hv Hvv. rewrite (init_visited INF g s Hs v Hv Hvv).
      rewrite (base_src _ _ _ _ HB0). cbn. lia.
  - split.
    + cbn. constructor; [by intros [] | constructor].
    + intros v [<-|[]]. split; [done|].
      by apply (base_src_visited INF g s Hs HINF).
  - split; [done|]. intros v. split.
    + intros Hin. destruct (Hall v Hin) as [Hv Hvis].
      destruct (base_sound _ _ _ _ HB v Hv Hvis) as (k & Hw & _). by exists k.
    + intros [k Hw].
      pose proof (walk_node g s Hwf Hs v k Hw) as Hv.
      destruct (closed_walk INF g s Hwf Hs HINF d v k HB Hcl Hw) as [Hvis _].
      apply Hpr; [|done|done].
      intros x Hx Hvx. right. exists (BFS.Req s 1). split; [by left|].
      cbn. symmetry. by apply (init_visited INF g s Hs).
Qed.

Lemma serialAlgo_each_node_once_witness :
  exists d processed,
    BFS.serialAlgo 2147483646 (graph_size BFS.chain10) BFS.chain10 3
      (initData 2147483646 BFS.chain10 3) = Some d /\
    BFS.serialAlgoL 2147483646 (graph_size BFS.chain10) BFS.chain10 3
      (initData 2147483646 BFS.chain10 3) = Some (d, processed) /\
    List.NoDup processed /\
    forall v, In v processed <-> reachable BFS.chain10 3 v.
Proof.
  apply serialAlgo_each_node_once;
    [reflexivity | vm_compute; lia | split; by vm_compute].
Defined.

(** ** [main] of bfs.cpp: what it reports *)

Section BFSMainReport.

Variable INF : Z.
Variable numT : nat.
Variable schedTiles : list BFS.EdgeTile -> list BFS.EdgeTile.
Variable schedNodes : list GNode -> list GNode.
Variable asyncAlgo : Graph -> GNode -> NodeData -> option NodeData.
Variable verify : Graph -> NodeData -> GNode -> bool.
Variable g : Graph.
Variable s : GNode.
Hypothesis Hwf : wf_graph g = true.
Hypothesis Hs : s < graph_size g.
Hypothesis HINF : (Z.of_nat (graph_size g) <= INF < 2 ^ 32)%Z.
Hypothesis HschedTiles : forall l, Permutation (schedTiles l) l.
Hypothesis HschedNodes : forall l, Permutation (schedNodes l) l.

(** The algorithms that are embedded, and what [syncAlgo] needs. *)
Definition supported (algo : BFSMain.Algo) : Prop :=
  algo = BFSMain.Serial \/ algo = BFSMain.SerialSync \/
  algo = BFSMain.Sync2p \/
  (algo = BFSMain.Sync /\ 0 < numT /\ 0 < getDegree g s).

Lemma runAlgo_correct fuel algo :
  supported algo -> graph_size g <= fuel ->
  exists d,
    BFSMain.runAlgo INF numT schedTiles schedNodes asyncAlgo fuel g s algo
      (initData INF g s) = BFS.Finished d /\
    Base INF g s d /\ closed INF g d.
Proof.
  intros Hsup Hfuel. unfold BFSMain.runAlgo.
  destruct Hsup as [->|[->|[->|(-> & HT & Hdeg)]]].
  - destruct (serialAlgo_correct INF g s Hwf Hs HINF fuel Hfuel)
      as (d & -> & HB & Hcl). by exists d.
  - destruct (serialSyncAlgo_correct INF g s Hwf Hs HINF fuel Hfuel)
      as (d & -> & HB & Hcl). by exists d.
  - destruct (sync2phaseAlgo_correct INF g s Hwf Hs HINF schedNodes schedTiles
                HschedNodes HschedTiles fuel Hfuel) as (d & -> & HB & Hcl).
    by exists d.
  - destruct (syncAlgo_correct INF schedTiles numT g s fuel Hwf Hs HINF
                HschedTiles HT Hdeg Hfuel) as (d & log & -> & HB & Hcl).
    by exists d.
Qed.

End BFSMainReport.

(** [main] of bfs.cpp with one of the algorithms [Serial], [SerialSync],
    [Sync2p] or (from a source with an out-edge) [Sync], on a well-formed
    graph with both node options in range: it prints the BFS level of
    [reportNode], or [DIST_INFINITY] if [reportNode] cannot be reached,
    and then returns 0 unless the verification is on and rejects the
    result. If one of the two node options is not a node of the graph,
    [reportNode] included, it aborts before any search: with the defaults
    (start 0, report 1) on every graph of a single node. *)
Theorem bfs_main_reports_level INF numT schedTiles schedNodes asyncAlgo verify
    fuel g startNode reportNode algo :
  wf_graph g = true ->
  (Z.of_nat (graph_size g) <= INF < 2 ^ 32)%Z ->
  (forall l, Permutation (schedTiles l) l) ->
  (forall l, Permutation (schedNodes l) l) ->
  graph_size g <= fuel ->
  (startNode < graph_size g -> reportNode < graph_size g ->
   algo = BFSMain.Serial \/ algo = BFSMain.SerialSync \/
   algo = BFSMain.Sync2p \/
   (algo = BFSMain.Sync /\ 0 < numT /\ 0 < getDegree g startNode) ->
   exists x,
     (forall k, bfs_level g startNode reportNode k -> x = Z.of_nat k) /\
     (~ reachable g startNode reportNode -> x = INF) /\
     BFSMain.main INF numT schedTiles schedNodes asyncAlgo verify fuel g
       startNode reportNode algo true = BFSMain.Returned 0 x /\
     (BFSMain.main INF numT schedTiles schedNodes asyncAlgo verify fuel g
        startNode reportNode algo false = BFSMain.Returned 0 x \/
      BFSMain.main INF numT schedTiles schedNodes asyncAlgo verify fuel g
        startNode reportNode algo false = BFSMain.Die x)) /\
  (graph_size g <= startNode \/ graph_size g <= reportNode ->
   forall skipVerify,
     BFSMain.main INF numT schedTiles schedNodes asyncAlgo verify fuel g
       startNode reportNode algo skipVerify = BFSMain.Abort).
Proof.
  intros Hwf HINF HsT HsN Hfuel. split.
  - intros Hs Hr Hsup.
    destruct (runAlgo_correct INF numT schedTiles schedNodes asyncAlgo g startNode
                Hwf Hs HINF HsT HsN fuel algo Hsup Hfuel)
      as (d & Hrun & HB & Hcl).
    destruct (closed_result INF g startNode Hwf Hs HINF d HB Hcl) as [_ Hres].
    destruct (Hres reportNode Hr) as (Hl & _ & Hu).
    exists (getData d reportNode). split; [by auto|]. split; [done|].
    unfold BFSMain.main.
    destruct (Nat.leb_spec (graph_size g) startNode); [lia|].
    destruct (Nat.leb_spec (graph_size g) reportNode); [lia|].
    cbn [orb]. rewrite Hrun. cbn [negb]. split; [done|].
    destruct (verify g d startNode); auto.
  - intros Hout skipVerify. unfold BFSMain.main.
    destruct (Nat.leb_spec (graph_size g) startNode); [done|].
    destruct (Nat.leb_spec (graph_size g) reportNode); [done|]. lia.
Qed.

Lemma bfs_main_reports_level_witness :
  exists x,
    (forall k, bfs_level BFS.chain10 0 5 k -> x = Z.of_nat k) /\
    (~ reachable BFS.chain10 0 5 -> x = 2147483646%Z) /\
    BFSMain.main 2147483646 4 BFS.in_order (fun l => l) (fun _ _ _ => None)
      (fun _ _ _ => true) 10 BFS.chain10 0 5 BFSMain.Sync true
    = BFSMain.Returned 0 x /\
    (BFSMain.main 2147483646 4 BFS.in_order (fun l => l) (fun _ _ _ => None)
       (fun _ _ _ => true) 10 BFS.chain10 0 5 BFSMain.Sync false
     = BFSMain.Returned 0 x \/
     BFSMain.main 2147483646 4 BFS.in_order (fun l => l) (fun _ _ _ => None)
       (fun _ _ _ => true) 10 BFS.chain10 0 5 BFSMain.Sync false
     = BFSMain.Die x).
Proof.
  apply (proj1 (bfs_main_reports_level 2147483646 4 BFS.in_order (fun l => l)
                  (fun _ _ _ => None) (fun _ _ _ => true) 10 BFS.chain10 0 5
                  BFSMain.Sync eq_refl ltac:(split; by vm_compute)
                  ltac:(by intros l) ltac:(by intros l)
                  ltac:(vm_compute; lia)));
    [vm_compute; lia | vm_compute; lia |].
  right. right. right. split; [reflexivity|]. split; [lia | vm_compute; lia].
Defined.

(** ** The rounds of a source in [main] of SSSP.cpp *)

Section TrialRounds.

Variable trial : Graph -> GNode -> bool.
Variable g : Graph.
Variable s : GNode.
Hypothesis Htrial : trial g s = true.

Lemma roundsLoop_counts rounds fuel :
  forall i count,
  (0 <= i)%Z -> (rounds < 2 ^ 32 - 1)%Z ->
  (rounds - i + 1 < Z.of_nat fuel)%Z ->
  Main.roundsLoop trial fuel g s rounds i count
  = Some (count + Z.to_nat (rounds - i + 1)).
Proof.
  induction fuel as [|fuel IH]; intros i count Hi Hr Hfuel;
    cbn [Main.roundsLoop].
  - destruct (Z.leb_spec i rounds); [lia|]. f_equal. lia.
  - destruct (Z.leb_spec i rounds) as [Hle|Hgt]; [|f_equal; lia].
    rewrite Htrial.
    assert (Hw : wrap (i + 1) = (i + 1)%Z).
    { unfold wrap. apply Z.mod_small. lia. }
    rewrite Hw, IH by lia. f_equal. lia.
Qed.

Lemma roundsLoop_forever fuel :
  forall i count,
  (0 <= i < 2 ^ 32)%Z ->
  Main.roundsLoop trial fuel g s (2 ^ 32 - 1) i count = None.
Proof.
  induction fuel as [|fuel IH]; intros i count Hi; cbn [Main.roundsLoop];
    destruct (Z.leb_spec i (2 ^ 32 - 1)); try lia; [done|].
  rewrite Htrial. apply IH. unfold wrap. apply Z.mod_pos_bound. lia.
Qed.

End TrialRounds.

(** The loop over the rounds in [main] of SSSP.cpp tests [i <= rounds]:
    when every call of [trial] returns, it calls [trial] [rounds + 1]
    times for the source (23 times with the default 22), and it ends for
    every value of the option but the largest: with [rounds] at 2^32 - 1
    the test holds for every 32-bit [i], the counter wraps around and
    the loop never ends. *)
Theorem rounds_loop_off_by_one trial g s :
  trial g s = true ->
  (forall rounds fuel,
     (0 <= rounds < 2 ^ 32 - 1)%Z -> (rounds + 1 < Z.of_nat fuel)%Z ->
     Main.roundsLoop trial fuel g s rounds 0 0
     = Some (Z.to_nat rounds + 1)) /\
  (forall fuel, Main.roundsLoop trial fuel g s (2 ^ 32 - 1) 0 0 = None).
Proof.
  intros Htrial. split.
  - intros rounds fuel Hr Hfuel.
    rewrite (roundsLoop_counts trial g s Htrial rounds fuel 0 0) by lia.
    f_equal. lia.
  - intros fuel. apply roundsLoop_forever; [done | lia].
Qed.

Lemma rounds_loop_off_by_one_witness :
  (forall rounds fuel,
     (0 <= rounds < 2 ^ 32 - 1)%Z -> (rounds + 1 < Z.of_nat fuel)%Z ->
     Main.roundsLoop (fun _ _ => true) fuel Main.lonely 0 rounds 0 0
     = Some (Z.to_nat rounds + 1)) /\
  (forall fuel,
     Main.roundsLoop (fun _ _ => true) fuel Main.lonely 0 (2 ^ 32 - 1) 0 0
     = None).
Proof.
  by apply rounds_loop_off_by_one.
Defined.

(** ** [topoTileAlgo] *)

Lemma sssp_edgeTiles_spec {T} (maker : edge_iterator -> edge_iterator -> T)
    fuel :
  forall b e, e - b < fuel ->
  (forall t, In t (SSSP.edgeTiles maker fuel b e) ->
     exists b' e', t = maker b' e' /\ b <= b' /\ b' < e' /\ e' <= e) /\
  (forall i, b <= i < e ->
     exists b' e', In (maker b' e') (SSSP.edgeTiles maker fuel b e) /\
                   b' <= i < e').
Proof.
  assert (Hpos : 0 < SSSP.EDGE_TILE_SIZE) by (unfold SSSP.EDGE_TILE_SIZE; lia).
  induction fuel as [|fuel IH]; intros b e Hfuel; [lia|].
  cbn [SSSP.edgeTiles].
  destruct (Nat.ltb_spec (b + SSSP.EDGE_TILE_SIZE) e) as [Hlong|Hshort].
  - destruct (IH (b + SSSP.EDGE_TILE_SIZE) e ltac:(lia)) as [IH1 IH2].
    split.
    + intros t [<-|Hin].
      * exists b, (b + SSSP.EDGE_TILE_SIZE). split; [done | lia].
      * destruct (IH1 t Hin) as (b' & e' & -> & Hb). exists b', e'.
        split; [done | lia].
    + intros i Hi.
      destruct (Nat.lt_ge_cases i (b + SSSP.EDGE_TILE_SIZE)) as [Hlo|Hhi].
      * exists b, (b + SSSP.EDGE_TILE_SIZE). split; [by left | lia].
      * destruct (IH2 i ltac:(lia)) as (b' & e' & Hin & Hr).
        exists b', e'. split; [by right | done].
  - destruct (Nat.ltb_spec b e) as [Hne|Hemp].
    + split.
      * intros t [<-|[]]. exists b, e. split; [done | lia].
      * intros i Hi. exists b, e. split; [by left | lia].
    + split; [by intros t []|]. intros i Hi. lia.
Qed.

(** The tiles that the first [do_all] makes. *)
Lemma makeTiles_fold INF g nodes :
  forall tiles t,
  In t (fold_left (fun tiles n =>
                     SSSP.pushEdgeTiles tiles g n (SSSP.SrcEdgeTileMaker n INF))
                  nodes tiles)
  <-> In t tiles \/
      exists u, In u nodes /\
        In t (SSSP.pushEdgeTiles [] g u (SSSP.SrcEdgeTileMaker u INF)).
Proof.
  induction nodes as [|u nodes IH]; intros tiles t; cbn [fold_left].
  - split; [by left | by intros [H|(u & [] & _)]].
  - rewrite IH. unfold SSSP.pushEdgeTiles at 1. rewrite in_app_iff.
    split.
    + intros [[H|H]|(u' & Hu' & H)]; [by left | |].
      * right. exists u. split; [by left | done].
      * right. exists u'. split; [by right | done].
    + intros [H|(u' & [<-|Hu'] & H)]; [by left; left | |].
      * left. by right.
      * right. by exists u'.
Qed.

Lemma makeTiles_spec INF schedNodes g :
  (forall l, Permutation (schedNodes l) l) ->
  (forall t, In t (SSSP.makeTiles INF schedNodes g) ->
     SSSP.tile_dist t = INF /\ SSSP.tile_src t < graph_size g /\
     forall e, In e (edge_range (SSSP.tile_beg t) (SSSP.tile_end t)) ->
       In e (edges g (SSSP.tile_src t))) /\
  (forall u e, u < graph_size g -> In e (edges g u) ->
     exists t, In t (SSSP.makeTiles INF schedNodes g) /\
       SSSP.tile_src t = u /\
       In e (edge_range (SSSP.tile_beg t) (SSSP.tile_end t))).
Proof.
  intros Hsched. unfold SSSP.makeTiles. split.
  - intros t Ht. apply makeTiles_fold in Ht as [[]|(u & Hu & Ht)].
    apply (Permutation_in _ (Hsched _)), in_seq in Hu.
    unfold SSSP.pushEdgeTiles in Ht. cbn [app] in Ht.
    destruct (sssp_edgeTiles_spec (SSSP.SrcEdgeTileMaker u INF)
                (S (getDegree g u)) (edge_begin g u) (edge_end g u))
      as [H1 _]; [unfold getDegree; lia|].
    destruct (H1 t Ht) as (b' & e' & -> & Hb). cbn.
    split; [done|]. split; [lia|]. intros e He.
    apply in_edge_range in He. apply in_edge_range. lia.
  - intros u e Hu He. apply in_edge_range in He.
    destruct (sssp_edgeTiles_spec (SSSP.SrcEdgeTileMaker u INF)
                (S (getDegree g u)) (edge_begin g u) (edge_end g u))
      as [_ H2]; [unfold getDegree; lia|].
    destruct (H2 e He) as (b' & e' & Hin & Hr).
    exists (SSSP.SrcEdgeTileMaker u INF b' e'). split; [|split; [done|]].
    + apply makeTiles_fold. right. exists u. split; [|done].
      apply (Permutation_in _ (Permutation_sym (Hsched _))), in_seq. lia.
    + cbn. by apply in_edge_range.
Qed.

Lemma makeTiles_dist INF schedNodes g t :
  In t (SSSP.makeTiles INF schedNodes g) -> SSSP.tile_dist t = INF.
Proof.
  unfold SSSP.makeTiles. intros Ht.
  apply makeTiles_fold in Ht as [[]|(u & Hu & Ht)].
  unfold SSSP.pushEdgeTiles in Ht. cbn [app] in Ht.
  destruct (sssp_edgeTiles_spec (SSSP.SrcEdgeTileMaker u INF)
              (S (getDegree g u)) (edge_begin g u) (edge_end g u))
    as [H1 _]; [unfold getDegree; lia|].
  by destruct (H1 t Ht) as (b' & e' & -> & Hb).
Qed.

(** *** Termination *)

Section TopoTileTermination.

Variable g : Graph.

Lemma topoTileOp_measure d tiles c i :
  data_ok d -> data_ok (SSSP.tile_dist <$> tiles) ->
  let st := SSSP.topoTileOp g (d, tiles, c) i in
  data_ok st.1.1 /\ data_ok (SSSP.tile_dist <$> st.1.2) /\
  length st.1.2 = length tiles /\
  ((st.2 = true /\
    S (measure (SSSP.tile_dist <$> st.1.2))
    <= measure (SSSP.tile_dist <$> tiles)) \/
   st = (d, tiles, c)).
Proof.
  intros Hd Ht. unfold SSSP.topoTileOp.
  destruct (tiles !! i) as [t|] eqn:Hi; [|by auto].
  destruct (Z.ltb_spec (getData d (SSSP.tile_src t)) (SSSP.tile_dist t))
    as [Hlt|Hge]; cbn [fst snd]; [|by auto].
  pose proof (getData_nonneg d (SSSP.tile_src t) Hd) as H0.
  assert (Hget : getData (SSSP.tile_dist <$> tiles) i = SSSP.tile_dist t).
  { unfold getData. by rewrite list_lookup_fmap, Hi. }
  destruct (measure_write (SSSP.tile_dist <$> tiles) i
              (getData d (SSSP.tile_src t)) Ht ltac:(lia)) as [Hok Hm].
  assert (Heq : setData (SSSP.tile_dist <$> tiles) i
                  (getData d (SSSP.tile_src t))
                = SSSP.tile_dist <$>
                  <[i := SSSP.mkSrcEdgeTile (SSSP.tile_src t)
                           (getData d (SSSP.tile_src t))
                           (SSSP.tile_beg t) (SSSP.tile_end t)]> tiles).
  { unfold setData. by rewrite list_fmap_insert. }
  rewrite Heq in Hok, Hm.
  split; [by apply topoRelax_fold_ok|]. split; [done|].
  split; [by rewrite length_insert|]. by left.
Qed.

Lemma topoTileOp_fold_measure idxs :
  forall d tiles c,
  data_ok d -> data_ok (SSSP.tile_dist <$> tiles) ->
  let st := fold_left (SSSP.topoTileOp g) idxs (d, tiles, c) in
  data_ok st.1.1 /\ data_ok (SSSP.tile_dist <$> st.1.2) /\
  ((st.2 = true /\
    (c = true \/
     S (measure (SSSP.tile_dist <$> st.1.2))
     <= measure (SSSP.tile_dist <$> tiles))) \/
   st.2 = false) /\
  measure (SSSP.tile_dist <$> st.1.2) <= measure (SSSP.tile_dist <$> tiles).
Proof.
  induction idxs as [|i idxs IH]; intros d tiles c Hd Ht; cbn [fold_left].
  - cbn [fst snd]. split; [done|]. split; [done|]. split; [|done].
    destruct c; auto.
  - destruct (topoTileOp_measure d tiles c i Hd Ht) as (Hd1 & Ht1 & _ & Hstep).
    destruct (SSSP.topoTileOp g (d, tiles, c) i) as [[d1 tiles1] c1].
    cbn [fst snd] in *.
    destruct (IH d1 tiles1 c1 Hd1 Ht1) as (Hd2 & Ht2 & Hch & Hm).
    split; [done|]. split; [done|].
    destruct Hstep as [[-> Hlt]|[= -> -> ->]].
    + split; [|lia]. destruct Hch as [[Hc _]|Hc]; [|by right].
      left. split; [done|]. right. lia.
    + done.
Qed.

Variable schedTiles : nat -> list nat -> list nat.

Lemma topoTileLoop_terminates fuel :
  forall d tiles rounds,
  data_ok d -> data_ok (SSSP.tile_dist <$> tiles) ->
  measure (SSSP.tile_dist <$> tiles) < fuel ->
  exists r, SSSP.topoTileLoop schedTiles fuel g d tiles rounds = Some r.
Proof.
  induction fuel as [|fuel IH]; intros d tiles rounds Hd Ht Hm; [lia|].
  cbn [SSSP.topoTileLoop].
  destruct (topoTileOp_fold_measure
              (schedTiles (S rounds) (seq 0 (length tiles)))
              d tiles false Hd Ht) as (Hd1 & Ht1 & Hch & Hm1).
  destruct (fold_left _ _ _) as [[d1 tiles1] c1]. cbn [fst snd] in *.
  destruct c1; [|by eexists].
  apply IH; [done | done |].
  destruct Hch as [[_ [Hc|Hlt]]|Hc]; [done | lia | done].
Qed.

End TopoTileTermination.

Lemma topoTileAlgo_returns INF schedNodes schedTiles g source d :
  data_ok d -> (0 <= INF)%Z ->
  exists r,
    SSSP.topoTileAlgo INF schedNodes schedTiles
      (S (measure (SSSP.tile_dist <$> SSSP.makeTiles INF schedNodes g)))
      g source d = Some r.
Proof.
  intros Hok HINF. unfold SSSP.topoTileAlgo.
  apply topoTileLoop_terminates; [by apply measure_source | | lia].
  unfold data_ok. apply List.Forall_forall. intros x Hx.
  apply list_elem_of_In, list_elem_of_fmap in Hx as (t & -> & Ht).
  apply list_elem_of_In in Ht.
  by rewrite (makeTiles_dist INF schedNodes g t Ht).
Qed.

(** [topoTileAlgo] returns on every graph, under every schedule of its
    two [do_all] loops and from any array of distances without a negative
    number: a round that changes something lowers the distance of a tile,
    so the rounds are at most one more than the distances of the fresh
    tiles add up to (the number of tiles times [DIST_INFINITY]). *)
Theorem topoTileAlgo_terminates INF schedNodes schedTiles g source d :
  data_ok d -> (0 <= INF)%Z ->
  exists r,
    SSSP.topoTileAlgo INF schedNodes schedTiles
      (S (measure (SSSP.tile_dist <$> SSSP.makeTiles INF schedNodes g)))
      g source d = Some r.
Proof.
  intros Hok HINF. by apply topoTileAlgo_returns.
Qed.

Lemma topoTileAlgo_terminates_witness :
  exists r,
    SSSP.topoTileAlgo 9 (fun l => l) (fun _ l => l)
      (S (measure (SSSP.tile_dist <$>
                     SSSP.makeTiles 9 (fun l => l) SSSP.graphWrap)))
      SSSP.graphWrap 0 [7; 7; 7]%Z = Some r.
Proof.
  apply topoTileAlgo_terminates; [|lia].
  unfold data_ok. repeat constructor; lia.
Defined.

(** *** What it returns *)

Section TopoTileCorrect.

Variable INF : Z.
Variable g : Graph.
Variable s : GNode.
Hypothesis Hwf : wf_graph g = true.
Hypothesis Hs : s < graph_size g.
Hypothesis HINF : (0 <= INF < 2 ^ 32)%Z.
Hypothesis Hweights : weights_bounded INF g = true.

(** The edge loop of the operator from node [u], whose distance is
    [x]. *)
Lemma topoRelax_step u x d e :
  SBase INF g s d -> u < graph_size g -> getData d u = x ->
  wpath g s u x -> In e (edges g u) ->
  let d' := SSSP.topoRelax g u d e in
  SBase INF g s d' /\ getData d' u = x /\ le_data d' d /\
  (getData d' (getEdgeDst g e) <= x + getEdgeData g e)%Z.
Proof.
  intros HB Hu Hdu Hpath He.
  unfold SSSP.topoRelax, SSSP.atomicMin. cbn [snd].
  destruct (weight_ok INF g HINF Hweights e) as [Hw0 HwB].
  pose proof (sb_range _ _ _ d HB u Hu) as Hru.
  assert (Hwrap : wrap (getData d u + getEdgeData g e)
                  = (x + getEdgeData g e)%Z).
  { rewrite Hdu. unfold wrap. apply Z.mod_small. lia. }
  rewrite Hwrap.
  destruct (Z.ltb_spec (x + getEdgeData g e) (getData d (getEdgeDst g e)))
    as [Hlt|Hge].
  - destruct (SBase_write INF g s Hwf Hs HINF Hweights u x d e HB Hu Hdu Hpath
                He Hlt) as [HB' Hne].
    pose proof (wf_edge_dst g u e Hwf Hu He) as Hv.
    split; [done|]. split; [by rewrite getData_setData_ne|].
    split; [apply le_data_setData; lia|].
    rewrite getData_setData_eq; [lia|]. by rewrite (sb_len _ _ _ d HB).
  - split; [done|]. split; [done|]. split; [apply le_data_refl | lia].
Qed.

Lemma topoRelax_fold_step u x es :
  forall d,
  SBase INF g s d -> u < graph_size g -> getData d u = x ->
  wpath g s u x -> (forall e, In e es -> In e (edges g u)) ->
  let d' := fold_left (SSSP.topoRelax g u) es d in
  SBase INF g s d' /\ getData d' u = x /\ le_data d' d /\
  forall e, In e es ->
    (getData d' (getEdgeDst g e) <= x + getEdgeData g e)%Z.
Proof.
  induction es as [|e es IH]; intros d HB Hu Hdu Hpath Hes; cbn [fold_left].
  - split; [done|]. split; [done|]. split; [apply le_data_refl|].
    by intros e [].
  - destruct (topoRelax_step u x d e HB Hu Hdu Hpath
                (Hes e (or_introl eq_refl))) as (HB1 & Hdu1 & Hle1 & Hrel1).
    destruct (IH _ HB1 Hu Hdu1 Hpath (fun e' H => Hes e' (or_intror H)))
      as (HB2 & Hdu2 & Hle2 & Hrel2).
    split; [done|]. split; [done|]. split; [by eapply le_data_trans|].
    intros e' [<-|Hin]; [|by apply Hrel2].
    specialize (Hle2 (getEdgeDst g e)). lia.
Qed.

#[local] Abbreviation tile_range t :=
  (edge_range (SSSP.tile_beg t) (SSSP.tile_end t)).

(** A tile of the bag: its edges are edges of its node, its distance is
    above the distance of the node, and where the two agree below [INF]
    the edges of the tile are relaxed. *)
Definition tile_inv (d : NodeData) (t : SSSP.SrcEdgeTile) : Prop :=
  SSSP.tile_src t < graph_size g /\
  (forall e, In e (tile_range t) -> In e (edges g (SSSP.tile_src t))) /\
  (getData d (SSSP.tile_src t) <= SSSP.tile_dist t <= INF)%Z /\
  (SSSP.tile_dist t = getData d (SSSP.tile_src t) ->
   (getData d (SSSP.tile_src t) < INF)%Z ->
   forall e, In e (tile_range t) ->
     (getData d (getEdgeDst g e)
      <= getData d (SSSP.tile_src t) + getEdgeData g e)%Z).

(** Every edge of the graph lies in a tile of its node. *)
Definition covers (tiles : list SSSP.SrcEdgeTile) : Prop :=
  forall u e, u < graph_size g -> In e (edges g u) ->
    exists t, In t tiles /\ SSSP.tile_src t = u /\ In e (tile_range t).

Record TTInv (d : NodeData) (tiles : list SSSP.SrcEdgeTile) : Prop := {
  tt_base : SBase INF g s d;
  tt_tiles : Forall (tile_inv d) tiles;
  tt_covers : covers tiles
}.

Lemma tile_inv_mono d d' t :
  le_data d' d -> tile_inv d t -> tile_inv d' t.
Proof.
  intros Hle (Hsrc & Hsub & Hd & Hrel).
  pose proof (Hle (SSSP.tile_src t)) as Hls.
  split; [done|]. split; [done|]. split; [lia|].
  intros Heq Hfin e He.
  assert (Hsame : getData d' (SSSP.tile_src t) = getData d (SSSP.tile_src t))
    by lia.
  rewrite Hsame in *. specialize (Hrel Heq Hfin e He).
  specialize (Hle (getEdgeDst g e)). lia.
Qed.

Lemma covers_insert tiles i t t' :
  tiles !! i = Some t ->
  SSSP.tile_src t' = SSSP.tile_src t ->
  SSSP.tile_beg t' = SSSP.tile_beg t -> SSSP.tile_end t' = SSSP.tile_end t ->
  covers tiles -> covers (<[i := t']> tiles).
Proof.
  intros Hi Hsrc Hbeg Hend Hcov u e Hu He.
  destruct (Hcov u e Hu He) as (tc & Hin & Htc & Hr).
  apply list_elem_of_In, list_elem_of_lookup in Hin as [j Hj].
  destruct (decide (i = j)) as [<-|Hne].
  - exists t'. rewrite Hi in Hj. injection Hj as <-.
    split; [|split; [congruence | by rewrite Hbeg, Hend]].
    apply list_elem_of_In, list_elem_of_lookup. exists i.
    apply list_lookup_insert_eq. by eapply lookup_lt_Some.
  - exists tc. split; [|done].
    apply list_elem_of_In, list_elem_of_lookup. exists j.
    by rewrite list_lookup_insert_ne.
Qed.

Lemma topoTileOp_tinv d tiles c i :
  TTInv d tiles ->
  let st := SSSP.topoTileOp g (d, tiles, c) i in
  TTInv st.1.1 st.1.2 /\
  (st.2 = true \/
   (st = (d, tiles, c) /\
    forall t, tiles !! i = Some t ->
      ~ (getData d (SSSP.tile_src t) < SSSP.tile_dist t)%Z)).
Proof.
  intros [HB Htiles Hcov]. unfold SSSP.topoTileOp.
  destruct (tiles !! i) as [t|] eqn:Hi;
    [|split; [by split | right; by split]].
  destruct (Z.ltb_spec (getData d (SSSP.tile_src t)) (SSSP.tile_dist t))
    as [Hlt|Hge]; cbn [fst snd];
    [|split; [by split | right; split; [done|]; intros t' [= <-]; lia]].
  split; [|by left].
  pose proof Htiles as Hall. rewrite List.Forall_forall in Hall.
  destruct (Hall t) as (Hsrc & Hsub & Hd & _).
  { apply list_elem_of_In. by eapply list_elem_of_lookup_2. }
  set (u := SSSP.tile_src t) in *. set (x := getData d u) in *.
  assert (Hpath : wpath g s u x).
  { destruct (sb_sound _ _ _ d HB u Hsrc) as [Hinf|Hp]; [|done].
    fold x in Hinf. lia. }
  destruct (topoRelax_fold_step u x (tile_range t) d HB Hsrc eq_refl Hpath Hsub)
    as (HB' & Hdu' & Hle & Hrel).
  split; [done | |].
  - apply Forall_insert.
    + eapply List.Forall_impl; [|exact Htiles].
      intros t0. by apply tile_inv_mono.
    + split; [done|]. split; [done|]. cbn [SSSP.tile_src SSSP.tile_dist].
      fold u. split; [lia|]. intros _ _ e He. rewrite Hdu'. by apply Hrel.
  - by apply (covers_insert tiles i t).
Qed.

Lemma topoTileOp_fold_tinv idxs :
  forall d tiles c,
  TTInv d tiles ->
  let st := fold_left (SSSP.topoTileOp g) idxs (d, tiles, c) in
  TTInv st.1.1 st.1.2 /\
  (st.2 = false ->
   st.1 = (d, tiles) /\
   forall i t, In i idxs -> tiles !! i = Some t ->
     ~ (getData d (SSSP.tile_src t) < SSSP.tile_dist t)%Z).
Proof.
  induction idxs as [|i idxs IH]; intros d tiles c HT; cbn [fold_left].
  - split; [done|]. intros _. split; [done | by intros i t []].
  - destruct (topoTileOp_tinv d tiles c i HT) as [HT1 Hstep].
    destruct (SSSP.topoTileOp g (d, tiles, c) i) as [[d1 tiles1] c1].
    cbn [fst snd] in *.
    destruct (IH d1 tiles1 c1 HT1) as [HT2 Hstay].
    split; [done|]. intros Hc. destruct (Hstay Hc) as [Heq Hall].
    assert (Hkeep : forall ns st,
              (fold_left (SSSP.topoTileOp g) ns st).2 = false ->
              st.2 = false).
    { clear. induction ns as [|m ns IHns]; intros st; cbn [fold_left]; [done|].
      intros H. apply IHns in H. revert H. destruct st as [[d tiles] c].
      unfold SSSP.topoTileOp. destruct (tiles !! m); [|done].
      by destruct (_ <? _)%Z. }
    apply Hkeep in Hc. cbn [snd] in Hc. subst c1.
    destruct Hstep as [|[[= -> ->] Hn]]; [done|].
    split; [done|]. intros j t [<-|Hin] Hj; [by apply Hn | by eapply Hall].
Qed.

Variable schedTiles : nat -> list nat -> list nat.
Hypothesis HschedTiles : forall r l, Permutation (schedTiles r l) l.

Lemma topoTileLoop_tinv fuel :
  forall d tiles rounds,
  TTInv d tiles ->
  match SSSP.topoTileLoop schedTiles fuel g d tiles rounds with
  | Some r => sssp_result INF g s r
  | None => True
  end.
Proof.
  induction fuel as [|fuel IH]; intros d tiles rounds HT; [done|].
  cbn [SSSP.topoTileLoop].
  destruct (topoTileOp_fold_tinv (schedTiles (S rounds) (seq 0 (length tiles)))
              d tiles false HT) as [HT1 Hstay].
  destruct (fold_left _ _ _) as [[d1 tiles1] c1]. cbn [fst snd] in *.
  destruct c1; [by apply IH|].
  destruct (Hstay eq_refl) as [[= -> ->] Hall].
  destruct HT as [HB Htiles Hcov].
  apply (SInv_result INF g s Hwf Hs HINF Hweights d (fun _ => False));
    [|by intros it []].
  split; [done | by intros it [] |].
  intros u Hu Hfin. right. intros e He.
  destruct (Hcov u e Hu He) as (t & Hin & <- & Hr).
  rewrite List.Forall_forall in Htiles.
  destruct (Htiles t Hin) as (_ & _ & Hd & Hrel).
  apply list_elem_of_In, list_elem_of_lookup in Hin as [i Hi].
  assert (Hidx : In i (schedTiles (S rounds) (seq 0 (length tiles)))).
  { apply (Permutation_in _ (Permutation_sym (HschedTiles _ _))).
    apply in_seq. apply lookup_lt_Some in Hi. lia. }
  specialize (Hall i t Hidx Hi). apply Hrel; [lia | done | done].
Qed.

Variable schedNodes : list GNode -> list GNode.
Hypothesis HschedNodes : forall l, Permutation (schedNodes l) l.

Lemma TTInv_init :
  TTInv (setData (initData INF g s) s 0%Z) (SSSP.makeTiles INF schedNodes g).
Proof.
  pose proof (s_base _ _ _ _ _ (SInv_init INF g s Hs HINF)) as HB.
  destruct (makeTiles_spec INF schedNodes g HschedNodes) as [H1 H2].
  split; [done | | exact H2].
  apply List.Forall_forall. intros t Ht.
  destruct (H1 t Ht) as (Hdist & Hsrc & Hsub).
  pose proof (sb_range _ _ _ _ HB _ Hsrc).
  split; [done|]. split; [done|]. split; [lia|]. intros Heq Hfin. lia.
Qed.

End TopoTileCorrect.

Lemma topoTileAlgo_result INF schedNodes schedTiles g s :
  wf_graph g = true -> s < graph_size g ->
  (0 <= INF < 2 ^ 32)%Z -> weights_bounded INF g = true ->
  (forall l, Permutation (schedNodes l) l) ->
  (forall r l, Permutation (schedTiles r l) l) ->
  exists d,
    SSSP.topoTileAlgo INF schedNodes schedTiles
      (S (measure (SSSP.tile_dist <$> SSSP.makeTiles INF schedNodes g)))
      g s (initData INF g s) = Some d /\
    sssp_result INF g s d.
Proof.
  intros Hwf Hs HINF Hw HsN HsT.
  destruct (topoTileAlgo_returns INF schedNodes schedTiles g s
              (initData INF g s)) as [d Hrun].
  { apply data_ok_init. lia. }
  { lia. }
  exists d. split; [done|]. unfold SSSP.topoTileAlgo in Hrun.
  pose proof (topoTileLoop_tinv INF g s Hwf Hs HINF Hw schedTiles HsT
                (S (measure (SSSP.tile_dist <$>
                               SSSP.makeTiles INF schedNodes g)))
                (setData (initData INF g s) s 0%Z)
                (SSSP.makeTiles INF schedNodes g) 0
                (TTInv_init INF g s Hs HINF schedNodes HsN)) as Hinv.
  rewrite Hrun in Hinv. exact Hinv.
Qed.

(** [topoTileAlgo] on a well-formed graph whose weights cannot make a
    sum wrap around, under every schedule that hands out every node once
    when the tiles are made and every tile once in each round: it returns
    the shortest distances from the source, capped at [DIST_INFINITY],
    the array that [topoAlgo] returns. *)
Theorem topoTileAlgo_shortest_paths INF schedNodes schedTiles sched g s :
  wf_graph g = true -> s < graph_size g ->
  (0 <= INF < 2 ^ 32)%Z -> weights_bounded INF g = true ->
  (forall l, Permutation (schedNodes l) l) ->
  (forall r l, Permutation (schedTiles r l) l) ->
  (forall r l, Permutation (sched r l) l) ->
  exists d,
    SSSP.topoTileAlgo INF schedNodes schedTiles
      (S (measure (SSSP.tile_dist <$> SSSP.makeTiles INF schedNodes g)))
      g s (initData INF g s) = Some d /\
    SSSP.topoAlgo INF sched (S (measure (replicate (graph_size g) INF)))
      g s (initData INF g s) = Some d /\
    length d = graph_size g /\
    forall v, v < graph_size g ->
      (getData d v <= INF)%Z /\
      (forall W, wpath g s v W -> (getData d v <= W)%Z) /\
      (getData d v = INF \/ wpath g s v (getData d v)).
Proof.
  intros Hwf Hs HINF Hw HsN HsT Hsched.
  destruct (topoTileAlgo_result INF schedNodes schedTiles g s Hwf Hs HINF Hw
              HsN HsT) as (d & Hrun & Hres).
  destruct (topoAlgo_result INF sched g s Hwf Hs HINF Hw Hsched)
    as (d2 & Hrun2 & Hres2).
  exists d. split; [done|].
  rewrite (sssp_result_unique INF g s d d2 Hres Hres2). by split.
Qed.

Lemma topoTileAlgo_shortest_paths_witness :
  exists d,
    SSSP.topoTileAlgo 100 (fun l => l) (fun _ l => l)
      (S (measure (SSSP.tile_dist <$>
                     SSSP.makeTiles 100 (fun l => l) SSSP.graphE2)))
      SSSP.graphE2 0 (initData 100 SSSP.graphE2 0) = Some d /\
    SSSP.topoAlgo 100 (fun _ l => l)
      (S (measure (replicate (graph_size SSSP.graphE2) 100%Z)))
      SSSP.graphE2 0 (initData 100 SSSP.graphE2 0) = Some d /\
    length d = graph_size SSSP.graphE2 /\
    forall v, v < graph_size SSSP.graphE2 ->
      (getData d v <= 100)%Z /\
      (forall W, wpath SSSP.graphE2 0 v W -> (getData d v <= W)%Z) /\
      (getData d v = 100%Z \/ wpath SSSP.graphE2 0 v (getData d v)).
Proof.
  apply topoTileAlgo_shortest_paths;
    [reflexivity | vm_compute; lia | split; by vm_compute | reflexivity
    | by intros l | by intros r l | by intros r l].
Defined.
